(** * A caching forward HTTP proxy: LRU cache, connection handler,
      admission control and accept loop.

    The development embeds the Go sources

      - [internal/cache/lru.go]  (module [Cache]),
      - [proxy.go]               (module [Proxy]),
      - [main.go] and the server constructor (modules [Admission], [Acceptor])

    and proves the properties their specification states about them. *)

From stdpp Require Import base option list gmap strings sets fin_sets pretty.
From Stdlib Require Import ZArith Lia Ascii.

Local Open Scope Z_scope.

(** ** Go's [int] *)

(** [int] is a 64-bit two's complement integer on the platforms the server is
    built for; [++] and [--] wrap around silently. *)
Module GoInt.

Definition min_int : Z := - 2 ^ 63.
Definition max_int : Z := 2 ^ 63 - 1.

Definition is_int (x : Z) : Prop := min_int <= x <= max_int.

Definition wrap (x : Z) : Z := (x + 2 ^ 63) `mod` 2 ^ 64 - 2 ^ 63.

(** [x++] and [x--] *)
Definition incr (x : Z) : Z := wrap (x + 1).
Definition decr (x : Z) : Z := wrap (x - 1).

End GoInt.

(** ** internal/cache/lru.go *)

Module Cache.

(** [ProxyItem]: a cached HTTP response.  Go strings and byte slices are
    byte sequences, as is [string] here. *)
Record ProxyItem := mkItem {
  Status : string;
  Header : string;
  Body : string;
}.

#[global] Instance ProxyItem_eq_dec : EqDecision ProxyItem.
Proof. solve_decision. Defined.

(** A [*node] is [None] for [nil] and [Some a] for the node allocated at
    address [a].  A [*ProxyItem] is [None] for [nil]; the cache never looks
    inside an item, so a non-nil pointer is modelled by the item it points
    to. *)
Definition addr := nat.

Record node := mkNode {
  key : string;
  value : option ProxyItem;
  next : option addr;
  prev : option addr;
}.

(** [LRUCache], together with the heap cells ([nodes]) its pointers refer
    to.  The mutex is not modelled: every exported method holds it from
    entry to exit, so the methods below are the atomic steps of the cache. *)
Record LRUCache := mkCache {
  c_size : Z;
  c_capacity : Z;
  c_head : option addr;
  c_tail : option addr;
  c_items : gmap string addr;
  nodes : gmap addr node;
}.

Definition set_size (z : Z) (c : LRUCache) : LRUCache :=
  mkCache z (c_capacity c) (c_head c) (c_tail c) (c_items c) (nodes c).
Definition set_head (h : option addr) (c : LRUCache) : LRUCache :=
  mkCache (c_size c) (c_capacity c) h (c_tail c) (c_items c) (nodes c).
Definition set_tail (t : option addr) (c : LRUCache) : LRUCache :=
  mkCache (c_size c) (c_capacity c) (c_head c) t (c_items c) (nodes c).
Definition set_items (m : gmap string addr) (c : LRUCache) : LRUCache :=
  mkCache (c_size c) (c_capacity c) (c_head c) (c_tail c) m (nodes c).
Definition set_nodes (h : gmap addr node) (c : LRUCache) : LRUCache :=
  mkCache (c_size c) (c_capacity c) (c_head c) (c_tail c) (c_items c) h.

(** Field accesses through a node pointer.  A result of [None] is the
    run-time panic of a nil dereference. *)
Definition read_next (n : addr) (c : LRUCache) : option (option addr) :=
  nd ← nodes c !! n; Some (next nd).
Definition read_prev (n : addr) (c : LRUCache) : option (option addr) :=
  nd ← nodes c !! n; Some (prev nd).
Definition write_next (n : addr) (v : option addr) (c : LRUCache)
  : option LRUCache :=
  nd ← nodes c !! n;
  Some (set_nodes
          (<[n := mkNode (key nd) (value nd) v (prev nd)]> (nodes c)) c).
Definition write_prev (n : addr) (v : option addr) (c : LRUCache)
  : option LRUCache :=
  nd ← nodes c !! n;
  Some (set_nodes
          (<[n := mkNode (key nd) (value nd) (next nd) v]> (nodes c)) c).
Definition write_value (n : addr) (v : option ProxyItem) (c : LRUCache)
  : option LRUCache :=
  nd ← nodes c !! n;
  Some (set_nodes
          (<[n := mkNode (key nd) v (next nd) (prev nd)]> (nodes c)) c).

(** [NewLRUCache] *)
Definition NewLRUCache (capacity : Z) : LRUCache :=
  mkCache 0 capacity None None ∅ ∅.

(** [removeNode] *)
Definition removeNode (n : addr) (c : LRUCache) : option LRUCache :=
  c1 ← (if bool_decide (c_head c = Some n) && bool_decide (c_tail c = Some n)
        then
          Some (set_tail None (set_head None c))
        else if bool_decide (Some n = c_head c) then
          nx ← read_next n c;
          let c' := set_head nx c in
          match c_head c' with
          | Some h => write_prev h None c'
          | None => Some c'
          end
        else if bool_decide (Some n = c_tail c) then
          pv ← read_prev n c;
          let c' := set_tail pv c in
          match c_tail c' with
          | Some t => write_next t None c'
          | None => Some c'
          end
        else
          (* n.prev.next = n.next *)
          pv ← read_prev n c;
          nx ← read_next n c;
          p ← pv;
          c' ← write_next p nx c;
          (* n.next.prev = n.prev *)
          nx' ← read_next n c';
          pv' ← read_prev n c';
          x ← nx';
          write_prev x pv' c');
  c2 ← write_prev n None c1;
  write_next n None c2.

(** [moveToFront] *)
Definition moveToFront (n : addr) (c : LRUCache) : option LRUCache :=
  if bool_decide (c_head c = Some n) then Some c
  else
    match c_head c with
    | None =>
        let c1 := set_tail (Some n) (set_head (Some n) c) in
        c2 ← write_prev n None c1;
        write_next n None c2
    | Some h =>
        c1 ← write_next n (Some h) c;
        h' ← c_head c1;
        c2 ← write_prev h' (Some n) c1;
        write_prev n None (set_head (Some n) c2)
    end.

(** [evictLRU] *)
Definition evictLRU (c : LRUCache) : option LRUCache :=
  match c_tail c with
  | None => Some c
  | Some t =>
      nd ← nodes c !! t;
      let c1 := set_items (delete (key nd) (c_items c)) c in
      t' ← c_tail c1;
      c2 ← removeNode t' c1;
      Some (set_size (GoInt.decr (c_size c2)) c2)
  end.

(** [Get]: the result carries the cache after the call, the [bool] and the
    item pointer. *)
Definition Get (k : string) (c : LRUCache)
  : option (LRUCache * bool * option ProxyItem) :=
  match c_items c !! k with
  | None => Some (c, false, None)
  | Some n =>
      c1 ← removeNode n c;
      c2 ← moveToFront n c1;
      nd ← nodes c2 !! n;
      Some (c2, true, value nd)
  end.

(** [Put].  [&node{...}] allocates a cell no live pointer refers to. *)
Definition Put (k : string) (v : option ProxyItem) (c : LRUCache)
  : option LRUCache :=
  match c_items c !! k with
  | Some existingNode =>
      c1 ← write_value existingNode v c;
      c2 ← removeNode existingNode c1;
      moveToFront existingNode c2
  | None =>
      let newNode : addr := fresh (dom (nodes c)) in
      let c1 := set_nodes (<[newNode := mkNode k v None None]> (nodes c)) c in
      let c2 := set_items (<[k := newNode]> (c_items c1)) c1 in
      c3 ← moveToFront newNode c2;
      let c4 := set_size (GoInt.incr (c_size c3)) c3 in
      let c5 := match c_tail c4 with
                | None => set_tail (Some newNode) c4
                | Some _ => c4
                end in
      if bool_decide (c_size c5 > c_capacity c5) then evictLRU c5
      else Some c5
  end.

(** [Size] and [Capacity] *)
Definition Size (c : LRUCache) : Z := c_size c.
Definition Capacity (c : LRUCache) : Z := c_capacity c.

(** The loop of [Display]: follow [next] from a node to [nil], collecting
    the nodes passed.  [fuel] bounds the number of hops; [None] is a
    dangling pointer or exhausted fuel. *)
Fixpoint walk_next (fuel : nat) (h : gmap addr node) (n : option addr)
  : option (list addr) :=
  match n with
  | None => Some []
  | Some a =>
      match fuel with
      | O => None
      | S fuel' =>
          nd ← h !! a;
          rest ← walk_next fuel' h (next nd);
          Some (a :: rest)
      end
  end.

(** The same walk from the tail along [prev]. *)
Fixpoint walk_prev (fuel : nat) (h : gmap addr node) (n : option addr)
  : option (list addr) :=
  match n with
  | None => Some []
  | Some a =>
      match fuel with
      | O => None
      | S fuel' =>
          nd ← h !! a;
          rest ← walk_prev fuel' h (prev nd);
          Some (a :: rest)
      end
  end.

Definition key_at (h : gmap addr node) (a : addr) : string :=
  match h !! a with Some nd => key nd | None => ""%string end.

(** Keys in recency order, most recently used first, read off the list;
    the heap holds at most [size (nodes c)] distinct cells. *)
Definition recency_keys (c : LRUCache) : option (list string) :=
  l ← walk_next (size (nodes c)) (nodes c) (c_head c);
  Some (map (key_at (nodes c)) l).

Definition recency_keys_backward (c : LRUCache) : option (list string) :=
  l ← walk_prev (size (nodes c)) (nodes c) (c_tail c);
  Some (map (key_at (nodes c)) l).

(** Keys of the lookup index. *)
Definition index_keys (c : LRUCache) : gset string := dom (c_items c).

(** Sequences of calls. *)
Inductive op :=
| OpGet (k : string)
| OpPut (k : string) (v : option ProxyItem).

Definition run_op (o : op) (c : LRUCache) : option LRUCache :=
  match o with
  | OpGet k => r ← Get k c; Some (r.1.1)
  | OpPut k v => Put k v c
  end.

Fixpoint run_ops (os : list op) (c : LRUCache) : option LRUCache :=
  match os with
  | [] => Some c
  | o :: os' => c' ← run_op o c; run_ops os' c'
  end.

(** [Put] of each pair in turn; [Get] of each key in turn. *)
Definition puts (kvs : list (string * option ProxyItem)) : list op :=
  map (fun kv => OpPut kv.1 kv.2) kvs.
Definition gets (ks : list string) : list op := map OpGet ks.

End Cache.

(** ** proxy.go *)

Module Proxy.
Import Cache.

Definition CRLF : string :=
  String (Ascii.ascii_of_nat 13) (String (Ascii.ascii_of_nat 10) EmptyString).

(** The fields of [*http.Request] the proxy reads.  [RequestURI] is the
    request target as it stood on the request line; [URL_Path] and
    [URL_RawQuery] are the path and the query [http.ReadRequest] parsed out
    of it.  [ReqBody] is what [io.ReadAll(req.Body)] yields, [None] when the
    read fails. *)
Record Request := mkRequest {
  Method : string;
  RequestURI : string;
  URL_Path : string;
  URL_RawQuery : string;
  Proto : string;
  Host : string;
  ReqHeader : gmap string (list string);
  ReqBody : option string;
}.

(** The fields of [*http.Response] the proxy reads. *)
Record Response := mkResponse {
  RespProto : string;
  RespStatus : string;
  RespHeader : gmap string (list string);
  RespBody : option string;
}.

Definition badGatewayBody : string :=
  "The target server is unavailable. Please try again later.".

(** [fmt.Sprintf] with [%d] applied to [len(badGatewayBody)]. *)
Definition badGatewayResponse : string :=
  "HTTP/1.1 502 Bad Gateway" +:+ CRLF +:+
  "Content-Type: text/plain" +:+ CRLF +:+
  "Content-Length: " +:+ pretty (Z.of_nat (String.length badGatewayBody))
    +:+ CRLF +:+
  "Connection: close" +:+ CRLF +:+
  CRLF +:+
  badGatewayBody.

(** [generateCacheKey] *)
Definition generateCacheKey (req : Request) : string :=
  Host req +:+ ":" +:+ URL_Path req +:+ ":" +:+ Method req.

(** [strings.Contains] *)
Fixpoint Contains (s substr : string) : bool :=
  if String.prefix substr s then true
  else match s with
       | EmptyString => false
       | String _ s' => Contains s' substr
       end.

(** [strings.Join] *)
Fixpoint Join (elems : list string) (sep : string) : string :=
  match elems with
  | [] => ""
  | [x] => x
  | x :: rest => x +:+ sep +:+ Join rest sep
  end.

(** The loop [for key, values := range h { b.WriteString(...) }] over a
    header map.  Go leaves the order in which [range] visits a map
    unspecified; [visit] is the order taken by this run, a permutation of
    the entries of the map (see [ranges]). *)
Definition header_line (kv : string * list string) : string :=
  kv.1 +:+ ": " +:+ Join kv.2 ", " +:+ CRLF.

Definition write_headers (visit : list (string * list string)) : string :=
  fold_left (fun b kv => b +:+ header_line kv) visit "".

Definition ranges (h : gmap string (list string))
    (visit : list (string * list string)) : Prop :=
  visit ≡ₚ map_to_list h.

(** What one handler meets outside itself: the outcome of parsing the
    client's bytes, of each step of the exchange with the origin, and of
    the write to the client. *)
Record world := mkWorld {
  w_request : option Request;
  w_req_visit : list (string * list string);
  w_dial_ok : bool;
  w_target_write_ok : bool;
  w_response : option Response;
  w_resp_visit : list (string * list string);
  w_client_write_ok : bool;
}.

(** What a handler does that others can see. *)
Inductive event :=
| EvDial (address : string) (ok : bool)
| EvTargetWrite (data : string) (ok : bool)
| EvTargetClose
| EvClientWrite (data : string) (ok : bool)
| EvCachePut (key : string) (item : ProxyItem)
| EvLogError (msg : string)
| EvClientClose.

(** [forwardRequest] *)
Definition forwardRequest (req : Request) (w : world)
  : list event * option Response :=
  let targetAddr :=
    if Contains (Host req) ":" then Host req else Host req +:+ ":80" in
  if negb (w_dial_ok w) then ([EvDial targetAddr false], None)
  else
    let requestLine :=
      Method req +:+ " " +:+ URL_Path req +:+ " " +:+ Proto req +:+ CRLF in
    let hostHeader := "Host: " +:+ Host req +:+ CRLF in
    let headers := write_headers (w_req_visit w) in
    match ReqBody req with
    | None => ([EvDial targetAddr true; EvTargetClose], None)
    | Some body =>
        let fullRequest :=
          requestLine +:+ hostHeader +:+ headers +:+ CRLF +:+ body in
        if negb (w_target_write_ok w) then
          ([EvDial targetAddr true; EvTargetWrite fullRequest false;
            EvTargetClose], None)
        else
          ([EvDial targetAddr true; EvTargetWrite fullRequest true;
            EvTargetClose], w_response w)
    end.

(** [prepareResponse] *)
Definition prepareResponse (resp : Response) (w : world)
  : list event * (string * string * string) :=
  let '(evs, body) :=
    match RespBody resp with
    | Some b => ([], b)
    | None => ([EvLogError "Failed to read response body"], ""%string)
    end in
  let headers := write_headers (w_resp_visit w) in
  let statusLine := RespProto resp +:+ " " +:+ RespStatus resp +:+ CRLF in
  (evs, (statusLine, headers, body)).

(** [getCachedResponse] *)
Definition getCachedResponse (key : string) (s : LRUCache)
  : option (LRUCache * option ProxyItem) :=
  match Get key s with
  | None => None
  | Some (s', found, item) => Some (s', if found then item else None)
  end.

(** [sendCachedResponse] *)
Definition sendCachedResponse (item : ProxyItem) (w : world) : list event :=
  let response := Status item +:+ Header item +:+ CRLF +:+ Body item in
  if w_client_write_ok w then [EvClientWrite response true]
  else [EvClientWrite response false;
        EvLogError "Failed to send cached response"].

(** [sendErrorResponse] *)
Definition sendErrorResponse (w : world) : list event :=
  if w_client_write_ok w then [EvClientWrite badGatewayResponse true]
  else [EvClientWrite badGatewayResponse false;
        EvLogError "Failed to send error response"].

(** [cacheResponse] *)
Definition cacheResponse (key status headers body : string) (s : LRUCache)
  : option (LRUCache * list event) :=
  let item := mkItem status headers body in
  s' ← Put key (Some item) s;
  Some (s', [EvCachePut key item]).

(** [handleConnection], from the point where the token is held.  The
    handler reaches the cache through [Get] and [Put] only, each atomic;
    here it runs against the cache on its own.  [None] is a panic inside a
    cache call. *)
Definition handleConnection (s : LRUCache) (w : world)
  : option (LRUCache * list event) :=
  match w_request w with
  | None =>
      Some (s, [EvLogError "Failed to parse HTTP request"; EvClientClose])
  | Some request =>
      let cacheKey := generateCacheKey request in
      '(s1, cached) ← getCachedResponse cacheKey s;
      match cached with
      | Some cachedItem =>
          Some (s1, sendCachedResponse cachedItem w ++ [EvClientClose])
      | None =>
          let '(fwd, response) := forwardRequest request w in
          match response with
          | None =>
              Some (s1, fwd ++ [EvLogError "Failed to forward request"]
                        ++ sendErrorResponse w ++ [EvClientClose])
          | Some response =>
              let '(prep, (statusLine, headers, body)) :=
                prepareResponse response w in
              let responseData :=
                statusLine +:+ headers +:+ CRLF +:+ body in
              if negb (w_client_write_ok w) then
                Some (s1, fwd ++ prep
                          ++ [EvClientWrite responseData false;
                              EvLogError "Failed to send response";
                              EvClientClose])
              else
                '(s2, put) ←
                  cacheResponse cacheKey statusLine headers body s1;
                Some (s2, fwd ++ prep
                          ++ [EvClientWrite responseData true]
                          ++ put ++ [EvClientClose])
          end
      end
  end.

(** Projections of a trace. *)
Definition client_writes (evs : list event) : list string :=
  omap (fun e => match e with EvClientWrite d _ => Some d | _ => None end)
    evs.

Definition target_writes (evs : list event) : list string :=
  omap (fun e => match e with EvTargetWrite d _ => Some d | _ => None end)
    evs.

Definition cache_puts (evs : list event) : list (string * ProxyItem) :=
  omap (fun e => match e with EvCachePut k i => Some (k, i) | _ => None end)
    evs.

(** The serialization the specification words: the request line of the
    inbound request, a [Host] header, every other header with its values
    joined by [", "], a blank line, the body. *)
Definition request_line (method target proto : string) : string :=
  String.concat " " [method; target; proto] +:+ CRLF.

Definition spec_header_block (hs : list (string * list string)) : string :=
  String.concat ""
    (map (fun kv => kv.1 +:+ ": " +:+ String.concat ", " kv.2 +:+ CRLF) hs).

Definition spec_serialize (target : string) (req : Request)
    (hs : list (string * list string)) (body : string) : string :=
  request_line (Method req) target (Proto req) +:+
  "Host: " +:+ Host req +:+ CRLF +:+
  spec_header_block hs +:+
  CRLF +:+ body.

(** Sample inputs: a request for [/foo?x=1] on [example.test] with one
    repeated header, and a world in which every step succeeds. *)
Definition sample_request : Request :=
  mkRequest "GET" "/foo?x=1" "/foo" "x=1" "HTTP/1.1" "example.test"
    {[ "Accept"%string := ["text/html"%string; "text/plain"%string] ]}
    (Some "hello"%string).

Definition sample_response : Response :=
  mkResponse "HTTP/1.1" "200 OK" ∅ (Some "hi"%string).

Definition sample_world : world :=
  mkWorld (Some sample_request)
    [("Accept"%string, ["text/html"%string; "text/plain"%string])]
    true true (Some sample_response) [] true.

(** Two requests for different paths on different hosts. *)
Definition colon_path_request : Request :=
  mkRequest "GET" "/a:/b" "/a:/b" "" "HTTP/1.1" "h" ∅ (Some ""%string).

Definition colon_host_request : Request :=
  mkRequest "GET" "/b" "/b" "" "HTTP/1.1" "h:/a" ∅ (Some ""%string).

(** The same world with the origin refusing the connection, and with the
    client gone before the response is written. *)
Definition refused_world : world :=
  mkWorld (Some sample_request)
    [("Accept"%string, ["text/html"%string; "text/plain"%string])]
    false true None [] true.

Definition client_gone_world : world :=
  mkWorld (Some sample_request)
    [("Accept"%string, ["text/html"%string; "text/plain"%string])]
    true true (Some sample_response) [] false.

End Proxy.

(** ** The admission gate: the semaphore of the server and the handlers
       that pass through it *)

Module Admission.
Import Cache.

(** [config.Config] *)
Record Config := mkConfig {
  Port : string;
  MaxClients : Z;
  CacheSize : Z;
  LogLevel : string;
}.

(** A [chan struct{}]: every element is the empty struct, so a channel is
    its capacity and the number of elements it buffers. *)
Record chan := mkChan {
  ch_cap : nat;
  ch_len : nat;
}.

(** [make(chan struct{}, n)] panics for a negative [n]. *)
Definition make_chan (n : Z) : option chan :=
  if bool_decide (n < 0) then None else Some (mkChan (Z.to_nat n) 0).

Record ProxyServer := mkServer {
  cache : LRUCache;
  config : Config;
  semaphore : chan;
}.

(** [NewProxyServer] (the loggers are left out). *)
Definition NewProxyServer (cfg : Config) : option ProxyServer :=
  sem ← make_chan (MaxClients cfg);
  Some (mkServer (NewLRUCache (CacheSize cfg)) cfg sem).

(** The calls [handleConnection] defers, in the order it defers them:
    the receive from the semaphore, the [recover], [conn.Close()]. *)
Inductive deferred := DRelease | DRecover | DClose.

#[global] Instance deferred_eq_dec : EqDecision deferred.
Proof. solve_decision. Defined.

(** Where a handler goroutine stands.
    - [AtSend]: at [s.semaphore <- struct{}{}], not yet through.
    - [Running ds]: in the body, with the deferred calls [ds] registered,
      the latest first.
    - [Unwinding p ds]: the body is left, by [return] or by a panic; the
      deferred calls [ds] are still to run, and [p] says that a panic is
      under way.
    - [Finished]: the goroutine has ended.
    - [Crashed]: a panic has left the goroutine; the process dies. *)
Inductive pc :=
| AtSend
| Running (ds : list deferred)
| Unwinding (panicking : bool) (ds : list deferred)
| Finished
| Crashed.

(** A handler, with counters of the sends and receives it has completed
    on the semaphore. *)
Record handler := mkHandler {
  h_pc : pc;
  h_acquired : nat;
  h_released : nat;
}.

Record system := mkSystem {
  sem : chan;
  handlers : list handler;
}.

Definition initial (srv : ProxyServer) : system :=
  mkSystem (semaphore srv) [].

(** The [defer] statement the body reaches next.  No call stands between
    the send and the first two [defer] statements; [conn.Close()] is
    deferred after the two deadline calls. *)
Definition next_defer (ds : list deferred) : option deferred :=
  match ds with
  | [] => Some DRelease
  | [DRelease] => Some DRecover
  | [DRecover; DRelease] => Some DClose
  | _ => None
  end.

(** Every [return] of the body comes after [defer conn.Close()]. *)
Definition all_deferred : list deferred := [DClose; DRecover; DRelease].

(** A call in the body can panic; the first call of the body comes
    after the [defer] of the [recover]. *)
Definition may_panic (ds : list deferred) : bool :=
  bool_decide (DRecover ∈ ds).

(** One step of the system: the acceptor starts a handler, or one handler
    moves.  A send on a buffered channel goes through when the buffer has
    room, a receive when it holds an element; on an unbuffered channel a
    send goes through together with a receive.  Deferred calls run latest
    first; [recover] ends a panic; [conn.Close()] may itself panic. *)
Inductive step : system -> system -> Prop :=
| step_spawn ch hs :
    step (mkSystem ch hs) (mkSystem ch (hs ++ [mkHandler AtSend 0 0]))
| step_send ch hs i a r :
    hs !! i = Some (mkHandler AtSend a r) ->
    (ch_len ch < ch_cap ch)%nat ->
    step (mkSystem ch hs)
         (mkSystem (mkChan (ch_cap ch) (S (ch_len ch)))
                   (<[i := mkHandler (Running []) (S a) r]> hs))
| step_rendezvous ch hs i j a r p ds a' r' :
    ch_cap ch = 0%nat -> i <> j ->
    hs !! i = Some (mkHandler AtSend a r) ->
    hs !! j = Some (mkHandler (Unwinding p (DRelease :: ds)) a' r') ->
    step (mkSystem ch hs)
         (mkSystem ch
            (<[j := mkHandler (Unwinding p ds) a' (S r')]>
               (<[i := mkHandler (Running []) (S a) r]> hs)))
| step_defer ch hs i ds d a r :
    hs !! i = Some (mkHandler (Running ds) a r) ->
    next_defer ds = Some d ->
    step (mkSystem ch hs)
         (mkSystem ch (<[i := mkHandler (Running (d :: ds)) a r]> hs))
| step_panic ch hs i ds a r :
    hs !! i = Some (mkHandler (Running ds) a r) ->
    may_panic ds = true ->
    step (mkSystem ch hs)
         (mkSystem ch (<[i := mkHandler (Unwinding true ds) a r]> hs))
| step_return ch hs i a r :
    hs !! i = Some (mkHandler (Running all_deferred) a r) ->
    step (mkSystem ch hs)
         (mkSystem ch
            (<[i := mkHandler (Unwinding false all_deferred) a r]> hs))
| step_run_close ch hs i p ds a r :
    hs !! i = Some (mkHandler (Unwinding p (DClose :: ds)) a r) ->
    step (mkSystem ch hs)
         (mkSystem ch (<[i := mkHandler (Unwinding p ds) a r]> hs))
| step_close_panics ch hs i p ds a r :
    hs !! i = Some (mkHandler (Unwinding p (DClose :: ds)) a r) ->
    step (mkSystem ch hs)
         (mkSystem ch (<[i := mkHandler (Unwinding true ds) a r]> hs))
| step_run_recover ch hs i p ds a r :
    hs !! i = Some (mkHandler (Unwinding p (DRecover :: ds)) a r) ->
    step (mkSystem ch hs)
         (mkSystem ch (<[i := mkHandler (Unwinding false ds) a r]> hs))
| step_run_release ch hs i p ds a r n :
    hs !! i = Some (mkHandler (Unwinding p (DRelease :: ds)) a r) ->
    ch_len ch = S n ->
    step (mkSystem ch hs)
         (mkSystem (mkChan (ch_cap ch) n)
                   (<[i := mkHandler (Unwinding p ds) a (S r)]> hs))
| step_finish ch hs i a r :
    hs !! i = Some (mkHandler (Unwinding false []) a r) ->
    step (mkSystem ch hs)
         (mkSystem ch (<[i := mkHandler Finished a r]> hs))
| step_crash ch hs i a r :
    hs !! i = Some (mkHandler (Unwinding true []) a r) ->
    step (mkSystem ch hs)
         (mkSystem ch (<[i := mkHandler Crashed a r]> hs)).

Inductive reaches : system -> system -> Prop :=
| reaches_refl st : reaches st st
| reaches_step st1 st2 st3 :
    reaches st1 st2 -> step st2 st3 -> reaches st1 st3.

(** A handler is past the admission step from the moment its send goes
    through until its deferred receive has run, which is the last thing
    it does. *)
Definition admitted (h : handler) : bool :=
  match h_pc h with
  | Running _ => true
  | Unwinding _ ds => bool_decide (DRelease ∈ ds)
  | _ => false
  end.

Definition active (st : system) : nat :=
  length (filter (fun h => admitted h = true) (handlers st)).

(** What a handler adds to that count. *)
Definition weight (h : handler) : nat := if admitted h then 1 else 0.

(** The deferred receive of a handler can run now. *)
Definition can_release (st : system) (h : handler) : Prop :=
  match h_pc h with
  | Unwinding _ (DRelease :: _) => (0 < ch_len (sem st))%nat
  | _ => True
  end.

(** The shape of a single handler at any time. *)
Definition handler_ok (h : handler) : Prop :=
  match h_pc h with
  | AtSend => h_acquired h = 0%nat /\ h_released h = 0%nat
  | Running ds =>
      h_acquired h = 1%nat /\ h_released h = 0%nat /\
      (ds = [] \/ ds = [DRelease] \/ ds = [DRecover; DRelease]
       \/ ds = all_deferred)
  | Unwinding p ds =>
      h_acquired h = 1%nat /\
      ((ds = all_deferred \/ ds = [DRecover; DRelease]) /\ h_released h = 0%nat
       \/ (ds = [DRelease] /\ p = false /\ h_released h = 0%nat)
       \/ (ds = [] /\ p = false /\ h_released h = 1%nat))
  | Finished => h_acquired h = 1%nat /\ h_released h = 1%nat
  | Crashed => False
  end.

Definition system_ok (cap : nat) (st : system) : Prop :=
  ch_cap (sem st) = cap /\
  ch_len (sem st) = active st /\
  (ch_len (sem st) <= cap)%nat /\
  Forall handler_ok (handlers st).

(** The configuration [LoadConfig] builds by default, its server, and
    the system after the acceptor has started one handler and that
    handler has passed the semaphore. *)
Definition default_config : Config := mkConfig "9000" 100 100 "info".

Definition default_server : ProxyServer :=
  mkServer (NewLRUCache 100) default_config (mkChan 100 0).

Definition one_admitted : system :=
  mkSystem (mkChan 100 1) [mkHandler (Running []) 1 0].

End Admission.

(** ** main.go: the accept loop *)

Module Acceptor.

(** Errors, as [errors.Is] sees them: [net.ErrClosed], some other error,
    or an error that wraps another, such as the [*net.OpError] that
    [Accept] returns and the error [fmt.Errorf] makes with [%w]. *)
Inductive goerror :=
| ErrClosed
| ErrOther (msg : string)
| Wrap (msg : string) (err : goerror).

#[global] Instance goerror_eq_dec : EqDecision goerror.
Proof. solve_decision. Defined.

(** [errors.Is]: compare, then unwrap and compare again. *)
Fixpoint errors_Is (err target : goerror) : bool :=
  if decide (err = target) then true
  else match err with
       | Wrap _ inner => errors_Is inner target
       | _ => false
       end.

(** What one call of [listener.Accept()] returns. *)
Inductive accepted :=
| Conn (id : nat)
| AcceptError (err : goerror).

(** What the loop has done so far: the errors it has logged and the
    connections it has handed to a goroutine, both in order. *)
Record loop_state := mkLoop {
  logged : list goerror;
  dispatched : list nat;
}.

(** [Returned e]: [Start] has returned [e] ([None] for [nil]);
    [Accepting]: the loop is in [Accept], waiting. *)
Inductive outcome :=
| Returned (err : option goerror)
| Accepting.

(** The [for] loop of [Start], run on the results its calls of [Accept]
    return. *)
Fixpoint accept_loop (results : list accepted) (st : loop_state)
  : outcome * loop_state :=
  match results with
  | [] => (Accepting, st)
  | AcceptError err :: rest =>
      if errors_Is err ErrClosed then (Returned None, st)
      else accept_loop rest (mkLoop (logged st ++ [err]) (dispatched st))
  | Conn c :: rest =>
      accept_loop rest (mkLoop (logged st) (dispatched st ++ [c]))
  end.

(** [Start]: [net.Listen], then the loop. *)
Definition Start (listen : option goerror) (results : list accepted)
  : outcome * loop_state :=
  match listen with
  | Some err =>
      (Returned (Some (Wrap "failed to create listener" err)), mkLoop [] [])
  | None => accept_loop results (mkLoop [] [])
  end.

(** The result of [Accept] that reports the closed listener. *)
Definition is_closed (a : accepted) : bool :=
  match a with
  | AcceptError err => errors_Is err ErrClosed
  | Conn _ => false
  end.

(** The results the loop gets to see: those before the first that
    reports the closed listener. *)
Fixpoint before_close (results : list accepted) : list accepted :=
  match results with
  | [] => []
  | a :: rest => if is_closed a then [] else a :: before_close rest
  end.

Definition errors_of (results : list accepted) : list goerror :=
  omap (fun a => match a with AcceptError e => Some e | _ => None end)
    results.

Definition conns_of (results : list accepted) : list nat :=
  omap (fun a => match a with Conn c => Some c | _ => None end) results.

End Acceptor.


(** ** Representation invariant of the cache *)

Module CacheInv.
Import Cache.

Definition hd_or (q : option addr) (l : list addr) : option addr :=
  match l with [] => q | b :: _ => Some b end.

Definition last_or (p : option addr) (l : list addr) : option addr :=
  match last l with Some a => Some a | None => p end.

(** [dseg h p l q]: the cells [l] are chained in this order through [next]
    and [prev]; [p] is the [prev] of the first and [q] the [next] of the
    last. *)
Fixpoint dseg (h : gmap addr node) (p : option addr) (l : list addr)
  (q : option addr) : Prop :=
  match l with
  | [] => True
  | a :: l' =>
      exists nd, h !! a = Some nd /\ prev nd = p /\ next nd = hd_or q l'
                 /\ dseg h (Some a) l' q
  end.

(** The list part: [l] is the recency order, most recent first. *)
Record dll (c : LRUCache) (l : list addr) : Prop := mk_dll {
  dll_nodup : NoDup l;
  dll_head : c_head c = head l;
  dll_tail : c_tail c = last l;
  dll_links : dseg (nodes c) None l None;
}.

(** The index part: the map holds exactly the listed cells, each under
    its own key. *)
Definition indexed (c : LRUCache) (l : list addr) : Prop :=
  forall k a, c_items c !! k = Some a <->
              a ∈ l /\ key <$> (nodes c !! a) = Some k.

Definition wf (c : LRUCache) (l : list addr) : Prop :=
  dll c l /\ indexed c l.

(** What a cell stores, as opposed to how it is linked. *)
Definition entry : Type := string * option ProxyItem.

Definition payload (h : gmap addr node) (a : addr) : option entry :=
  (fun nd => (key nd, value nd)) <$> h !! a.

Definition entry_at (h : gmap addr node) (a : addr) : entry :=
  default (""%string, None) (payload h a).

Definition view (h : gmap addr node) (l : list addr) : list entry :=
  map (entry_at h) l.

(** [c'] differs from [c] in the list structure only. *)
Definition same_data (c c' : LRUCache) : Prop :=
  c_size c' = c_size c /\ c_capacity c' = c_capacity c /\
  c_items c' = c_items c /\
  forall a, payload (nodes c') a = payload (nodes c) a.

End CacheInv.

(** ** Functional model of the cache *)

(** The cache seen as the list of its entries in recency order, most recently
    used first.  [m_get] and [m_put] take the decisions [Get] and [Put] take,
    on this list; [refines] relates a heap state to the model state it
    represents. *)
Module CacheModel.
Import Cache CacheInv.

Record model := mkModel {
  m_size : Z;
  m_capacity : Z;
  m_entries : list entry;
}.

Fixpoint a_lookup (k : string) (es : list entry)
  : option (option ProxyItem) :=
  match es with
  | [] => None
  | e :: es' => if decide (e.1 = k) then Some e.2 else a_lookup k es'
  end.

Definition a_remove (k : string) (es : list entry) : list entry :=
  filter (fun e : entry => e.1 <> k) es.

Definition m_new (capacity : Z) : model := mkModel 0 capacity [].

Definition m_get (k : string) (m : model)
  : model * bool * option ProxyItem :=
  match a_lookup k (m_entries m) with
  | None => (m, false, None)
  | Some v =>
      (mkModel (m_size m) (m_capacity m) ((k, v) :: a_remove k (m_entries m)),
       true, v)
  end.

Definition m_put (k : string) (v : option ProxyItem) (m : model) : model :=
  match a_lookup k (m_entries m) with
  | Some _ =>
      mkModel (m_size m) (m_capacity m) ((k, v) :: a_remove k (m_entries m))
  | None =>
      let es := (k, v) :: m_entries m in
      let sz := GoInt.incr (m_size m) in
      if bool_decide (sz > m_capacity m)
      then mkModel (GoInt.decr sz) (m_capacity m) (removelast es)
      else mkModel sz (m_capacity m) es
  end.

Definition m_run_op (o : op) (m : model) : model :=
  match o with
  | OpGet k => (m_get k m).1.1
  | OpPut k v => m_put k v m
  end.

Definition m_run_ops (os : list op) (m : model) : model :=
  fold_left (fun m o => m_run_op o m) os m.

Definition refines (c : LRUCache) (m : model) : Prop :=
  exists l, wf c l /\ m_entries m = view (nodes c) l /\
            m_size m = c_size c /\ m_capacity m = c_capacity c.

(** The counter agrees with the number of entries as long as it cannot
    overflow. *)
Definition keys (es : list entry) : list string := map fst es.

Definition m_ok (m : model) : Prop :=
  NoDup (keys (m_entries m)) /\
  GoInt.is_int (m_size m) /\
  (m_capacity m < GoInt.max_int ->
   m_size m = Z.of_nat (length (m_entries m)) /\
   m_size m <= Z.max 0 (m_capacity m)).

End CacheModel.

(** ** What callers observe of the cache and of a handler *)

Module CacheObs.
Import Cache.

(** What a caller of [Get] gets back: the [bool] and the item. *)
Definition lookup_result (k : string) (c : LRUCache)
  : option (bool * option ProxyItem) :=
  match Get k c with
  | Some (_, found, v) => Some (found, v)
  | None => None
  end.

(** The item of the latest [Put] of [k] in a sequence of calls. *)
Fixpoint last_put (k : string) (os : list op) : option (option ProxyItem) :=
  match os with
  | [] => None
  | o :: os' =>
      match last_put k os' with
      | Some v => Some v
      | None =>
          match o with
          | OpPut k' v => if decide (k' = k) then Some v else None
          | OpGet _ => None
          end
      end
  end.

(** [Display]: the loop over the list from the head, writing each key,
    and what it prints for a list of keys. *)
Definition newline : string := String (Ascii.ascii_of_nat 10) EmptyString.

Fixpoint display_loop (fuel : nat) (h : gmap addr node) (n : option addr)
  : option string :=
  match n with
  | None => Some ("END" +:+ newline)
  | Some a =>
      match fuel with
      | O => None
      | S fuel' =>
          nd ← h !! a;
          rest ← display_loop fuel' h (next nd);
          Some (key nd +:+ " -> " +:+ rest)
      end
  end.

Definition Display (c : LRUCache) : option string :=
  out ← display_loop (size (nodes c)) (nodes c) (c_head c);
  Some ("Cache: " +:+ out).

Definition display_line (ks : list string) : string :=
  "Cache: " +:+ foldr (fun k out => k +:+ " -> " +:+ out) ("END" +:+ newline) ks.

End CacheObs.

Module ProxyObs.
Import Proxy.

(** The addresses a trace dials, and the number of times it closes the
    connection to the origin. *)
Definition dials (evs : list event) : list string :=
  omap (fun e => match e with EvDial a _ => Some a | _ => None end) evs.

Definition target_closes (evs : list event) : nat :=
  length (omap (fun e => match e with EvTargetClose => Some tt | _ => None end)
            evs).

(** The address [forwardRequest] dials. *)
Definition target_address (req : Request) : string :=
  if Contains (Host req) ":" then Host req else Host req +:+ ":80".

(** A world that differs from [sample_world] in nothing the handler
    reads. *)
Definition second_world : world :=
  mkWorld (Some sample_request) [] false false None [] true.

(** A response whose body cannot be read, and a world that answers with
    it. *)
Definition truncated_response : Response :=
  mkResponse "HTTP/1.1" "200 OK" ∅ None.

Definition truncated_world : world :=
  mkWorld (Some sample_request)
    [("Accept"%string, ["text/html"%string; "text/plain"%string])]
    true true (Some truncated_response) [] true.

(** A request whose target holds an escaped space and a query string:
    [GET /a%20b?q=1 HTTP/1.1]; [URL.Path] is the decoded path. *)
Definition encoded_path_request : Request :=
  mkRequest "GET" "/a%20b?q=1" "/a b" "q=1" "HTTP/1.1" "example.test"
    {[ "Accept"%string := ["text/html"%string; "text/plain"%string] ]}
    (Some "hello"%string).

(** The request of [sample_request] with another query string. *)
Definition other_query_request : Request :=
  mkRequest "GET" "/foo?x=2" "/foo" "x=2" "HTTP/1.1" "example.test" ∅ None.

End ProxyObs.

(** ** config: [LoadConfig] *)

Module ConfigLoader.
Import Admission.

(** [os.Getenv]: the value of the variable, empty when it is not set. *)
Definition Getenv (env : gmap string string) (key : string) : string :=
  default ""%string (env !! key).

(** [getEnvOrDefault] *)
Definition getEnvOrDefault (env : gmap string string)
    (key defaultValue : string) : string :=
  let value := Getenv env key in
  if bool_decide (value <> ""%string) then value else defaultValue.

(** The values package [flag] has parsed from the command line, [None] for
    a flag that is not given. *)
Record flags := mkFlags {
  f_port : option string;
  f_max_clients : option Z;
  f_cache_size : option Z;
  f_log_level : option string;
}.

(** [LoadConfig]: each [flag.XxxVar] takes the field as it stands for its
    default, and [flag.Parse] overwrites the field when the flag is given. *)
Definition LoadConfig (env : gmap string string) (fl : flags) : Config :=
  let cfg :=
    mkConfig (getEnvOrDefault env "PROXY_PORT" "9000") 100 100
             (getEnvOrDefault env "LOG_LEVEL" "info") in
  mkConfig (default (Port cfg) (f_port fl))
           (default (MaxClients cfg) (f_max_clients fl))
           (default (CacheSize cfg) (f_cache_size fl))
           (default (LogLevel cfg) (f_log_level fl)).

Definition no_flags : flags := mkFlags None None None None.

(** An environment that sets [PROXY_PORT] to the empty string. *)
Definition empty_port_env : gmap string string :=
  {[ "PROXY_PORT"%string := ""%string ]}.

End ConfigLoader.

Module AdmissionObs.
Import Cache Admission.

(** A server that admits no client, and systems with one handler waiting
    at the semaphore. *)
Definition zero_config : Config := mkConfig "9000" 0 100 "info".

Definition zero_server : ProxyServer :=
  mkServer (NewLRUCache 100) zero_config (mkChan 0 0).

Definition one_waiting_zero : system :=
  mkSystem (mkChan 0 0) [mkHandler AtSend 0 0].

Definition one_waiting : system :=
  mkSystem (mkChan 100 0) [mkHandler AtSend 0 0].

End AdmissionObs.

(** * Proofs *)

(** ** Arithmetic of [int] *)

Module GoIntFacts.

Lemma wrap_is_int x : GoInt.is_int (GoInt.wrap x).
Proof.
  unfold GoInt.is_int, GoInt.wrap, GoInt.min_int, GoInt.max_int.
  pose proof (Z.mod_pos_bound (x + 2 ^ 63) (2 ^ 64)). lia.
Qed.

Lemma wrap_id x : GoInt.is_int x -> GoInt.wrap x = x.
Proof.
  unfold GoInt.is_int, GoInt.wrap, GoInt.min_int, GoInt.max_int. intros H.
  rewrite Z.mod_small; lia.
Qed.

Lemma incr_small x :
  GoInt.min_int <= x < GoInt.max_int -> GoInt.incr x = x + 1.
Proof. intros H. apply wrap_id. unfold GoInt.is_int. lia. Qed.

Lemma decr_small x :
  GoInt.min_int < x <= GoInt.max_int -> GoInt.decr x = x - 1.
Proof. intros H. apply wrap_id. unfold GoInt.is_int. lia. Qed.

End GoIntFacts.

(** ** The list structure of the cache *)

Module CacheFacts.
Import Cache CacheInv.

Lemma last_or_cons p a l : last_or p (a :: l) = last_or (Some a) l.
Proof. unfold last_or. rewrite last_cons. by destruct (last l). Qed.

Lemma last_or_snoc p l a : last_or p (l ++ [a]) = Some a.
Proof. unfold last_or. by rewrite last_snoc. Qed.

Lemma hd_or_app q l1 l2 : hd_or q (l1 ++ l2) = hd_or (hd_or q l2) l1.
Proof. by destruct l1. Qed.

Lemma hd_or_head q l :
  hd_or q l = match head l with Some a => Some a | None => q end.
Proof. by destruct l. Qed.

Lemma dseg_app h p l1 l2 q :
  dseg h p (l1 ++ l2) q <->
  dseg h p l1 (hd_or q l2) /\ dseg h (last_or p l1) l2 q.
Proof.
  revert p. induction l1 as [|a l1 IH]; intros p; simpl.
  - unfold last_or. simpl. tauto.
  - rewrite last_or_cons, hd_or_app. split.
    + intros (nd & ? & ? & ? & Hd). apply IH in Hd as [? ?]. eauto 10.
    + intros [(nd & ? & ? & ? & Hd) ?]. exists nd. rewrite IH. eauto.
Qed.

Lemma dseg_in_heap h p l q a : dseg h p l q -> a ∈ l -> is_Some (h !! a).
Proof.
  revert p. induction l as [|b l IH]; intros p Hd Hin.
  - by apply elem_of_nil in Hin.
  - destruct Hd as (nd & ? & ? & ? & Hd).
    apply elem_of_cons in Hin as [->|Hin]; eauto.
Qed.

(** Only the links of the listed cells matter. *)
Lemma dseg_frame h h' p l q :
  (forall a, a ∈ l ->
     (fun nd => (prev nd, next nd)) <$> h' !! a
     = (fun nd => (prev nd, next nd)) <$> h !! a) ->
  dseg h p l q -> dseg h' p l q.
Proof.
  revert p. induction l as [|b l IH]; intros p Hag Hd; [done|].
  destruct Hd as (nd & Hb & ? & ? & Hd).
  pose proof (Hag b ltac:(left)) as Hb'. rewrite Hb in Hb'. simpl in Hb'.
  destruct (h' !! b) as [nd'|] eqn:E; [|done]. simpl in Hb'.
  exists nd'. repeat split; try congruence.
  apply IH; [|done]. intros a Ha. apply Hag. by right.
Qed.

Lemma dseg_insert_other h p l q a nd :
  a ∉ l -> dseg h p l q -> dseg (<[a := nd]> h) p l q.
Proof.
  intros Hni. apply dseg_frame. intros b Hb.
  rewrite lookup_insert_ne; [done|]. intros ->. done.
Qed.

Lemma dseg_set_first_prev h p p' a l q nd :
  a ∉ l -> h !! a = Some nd -> dseg h p (a :: l) q ->
  dseg (<[a := mkNode (key nd) (value nd) (next nd) p']> h) p' (a :: l) q.
Proof.
  intros Hni Ha (nd' & Ha' & ? & ? & Hd). simplify_eq.
  eexists. rewrite lookup_insert_eq. repeat split; [done|].
  by apply dseg_insert_other.
Qed.

Lemma dseg_set_last_next h p a l q q' nd :
  a ∉ l -> h !! a = Some nd -> dseg h p (l ++ [a]) q ->
  dseg (<[a := mkNode (key nd) (value nd) q' (prev nd)]> h) p (l ++ [a]) q'.
Proof.
  intros Hni Ha. rewrite !dseg_app. intros [H1 (nd' & Ha' & ? & ? & _)].
  simplify_eq. split.
  - by apply dseg_insert_other.
  - eexists. rewrite lookup_insert_eq. done.
Qed.

Lemma dseg_set_value h p l q a nd v :
  h !! a = Some nd -> dseg h p l q ->
  dseg (<[a := mkNode (key nd) v (next nd) (prev nd)]> h) p l q.
Proof.
  intros Ha. apply dseg_frame. intros b _.
  destruct (decide (a = b)) as [->|].
  - by rewrite lookup_insert_eq, Ha.
  - by rewrite lookup_insert_ne.
Qed.

Lemma same_data_refl c : same_data c c.
Proof. by repeat split. Qed.

Lemma same_data_trans c1 c2 c3 :
  same_data c1 c2 -> same_data c2 c3 -> same_data c1 c3.
Proof.
  intros (?&?&?&Hp1) (?&?&?&Hp2).
  split; [congruence|]. split; [congruence|]. split; [congruence|].
  intros a. by rewrite Hp2, Hp1.
Qed.

Lemma write_prev_spec n v c nd :
  nodes c !! n = Some nd ->
  write_prev n v c
  = Some (set_nodes
            (<[n := mkNode (key nd) (value nd) (next nd) v]> (nodes c)) c).
Proof. intros H. unfold write_prev. by rewrite H. Qed.

Lemma write_next_spec n v c nd :
  nodes c !! n = Some nd ->
  write_next n v c
  = Some (set_nodes
            (<[n := mkNode (key nd) (value nd) v (prev nd)]> (nodes c)) c).
Proof. intros H. unfold write_next. by rewrite H. Qed.

Lemma payload_insert_same h n nd nd' a :
  h !! n = Some nd -> key nd' = key nd -> value nd' = value nd ->
  payload (<[n := nd']> h) a = payload h a.
Proof.
  intros H Hk Hv. unfold payload. destruct (decide (n = a)) as [->|].
  - rewrite lookup_insert_eq, H. simpl. by rewrite Hk, Hv.
  - by rewrite lookup_insert_ne.
Qed.

Lemma same_data_relink c n nd nd' :
  nodes c !! n = Some nd -> key nd' = key nd -> value nd' = value nd ->
  same_data c (set_nodes (<[n := nd']> (nodes c)) c).
Proof.
  intros H ? ?. repeat split. intros a. simpl.
  by apply (payload_insert_same _ _ nd).
Qed.

(** Detaching a cell: clearing both links of [n] keeps a chain that does
    not pass through [n]. *)
Lemma detach_spec c n l :
  n ∉ l -> is_Some (nodes c !! n) -> dll c l ->
  exists c', (c2 ← write_prev n None c; write_next n None c2) = Some c'
             /\ dll c' l /\ same_data c c'.
Proof.
  intros Hni [nd Hn] [Hnd Hh Ht Hl].
  rewrite (write_prev_spec _ _ _ _ Hn). simpl.
  erewrite write_next_spec by (simpl; apply lookup_insert_eq). simpl.
  eexists. split; [done|]. split.
  - split; simpl; try done.
    do 2 (apply dseg_insert_other; [done|]). done.
  - split; [done|]. split; [done|]. split; [done|]. intros a. simpl.
    erewrite (payload_insert_same _ n); [|apply lookup_insert_eq|done..].
    by apply (payload_insert_same _ _ nd).
Qed.

Lemma head_app_cons {A} (a : A) l1 l2 : head ((a :: l1) ++ l2) = Some a.
Proof. done. Qed.

Lemma head_snoc_app {A} (l : list A) a l2 :
  head ((l ++ [a]) ++ l2) = head (l ++ [a]).
Proof. by destruct l. Qed.

Lemma head_snoc_elem {A} (l : list A) a :
  exists b, head (l ++ [a]) = Some b /\ b ∈ l ++ [a].
Proof.
  destruct l as [|b l]; simpl.
  - exists a. split; [done|]. apply list_elem_of_singleton. done.
  - exists b. split; [done|]. left.
Qed.

Lemma last_app_cons {A} (l : list A) a l2 :
  last (l ++ a :: l2) = last (a :: l2).
Proof.
  induction l as [|b l IH]; [done|].
  simpl. rewrite last_cons, IH. by rewrite last_cons; destruct (last l2).
Qed.

Lemma last_cons_elem {A} (a : A) l :
  exists b, last (a :: l) = Some b /\ b ∈ a :: l.
Proof.
  destruct (last (a :: l)) as [b|] eqn:E.
  - exists b. split; [done|]. by apply last_Some_elem_of.
  - by apply last_None in E.
Qed.

(** Second half of [removeNode]: [n.prev = nil; n.next = nil]. *)
Lemma removeNode_finish c c1 n l :
  same_data c c1 -> n ∉ l -> is_Some (nodes c1 !! n) -> dll c1 l ->
  exists c', (c2 ← write_prev n None c1; write_next n None c2) = Some c'
             /\ dll c' l /\ same_data c c'.
Proof.
  intros Hsd Hni Hn Hd.
  destruct (detach_spec c1 n l Hni Hn Hd) as (c' & E & ? & ?).
  exists c'. split; [done|]. split; [done|].
  by eapply same_data_trans.
Qed.

Lemma removeNode_spec c n l1 l2 :
  dll c (l1 ++ n :: l2) ->
  exists c', removeNode n c = Some c' /\ dll c' (l1 ++ l2) /\ same_data c c'.
Proof.
  intros [Hnd Hh Ht Hl].
  apply NoDup_app in Hnd as (Hnd1 & Hdisj & Hnd2).
  apply NoDup_cons in Hnd2 as [Hn2 Hnd2].
  assert (Hn1 : n ∉ l1).
  { intros Hin. apply (Hdisj _ Hin). left. }
  apply dseg_app in Hl as [Hl1 (nd & Hn & Hpv & Hnx & Hl2)].
  unfold removeNode.
  destruct l1 as [|p l1 _] using rev_ind; destruct l2 as [|x l2].
  - (* the only node *)
    simpl in Hh, Ht. rewrite Hh, Ht.
    rewrite !bool_decide_eq_true_2 by done. simpl.
    apply removeNode_finish; [by repeat split|done|by eexists|].
    by split.
  - (* at the head *)
    simpl in Hh, Ht. rewrite Hh.
    assert (c_tail c <> Some n) as Htn.
    { rewrite Ht. intros E. apply last_Some_elem_of in E. done. }
    rewrite (bool_decide_eq_true_2 (Some n = Some n)) by done.
    rewrite (bool_decide_eq_false_2 (c_tail c = Some n)) by done. simpl.
    unfold read_next. rewrite Hn. simpl. simpl in Hnx. rewrite Hnx. simpl.
    destruct Hl2 as (ndx & Hx & Hxp & Hxn & Hl2).
    assert (x ∉ l2) by (by apply NoDup_cons in Hnd2 as [? ?]).
    erewrite write_prev_spec by (simpl; exact Hx). simpl.
    apply removeNode_finish.
    + by apply (same_data_relink (set_head (Some x) c) x ndx).
    + done.
    + simpl. rewrite lookup_insert_ne; [by eexists|].
      intros ->. apply Hn2. left.
    + split; simpl; [done|done|done|].
      apply (dseg_set_first_prev _ (Some n)); [done..|].
        exists ndx. done.
  - (* at the tail *)
    rewrite app_nil_r.
    assert (c_head c <> Some n) as Hhn.
    { rewrite Hh. destruct (head_snoc_elem l1 p) as (b & Hb & Hin).
      rewrite head_snoc_app, Hb. intros [= ->]. done. }
    rewrite last_snoc in Ht.
    rewrite (bool_decide_eq_false_2 (c_head c = Some n)) by done.
    rewrite (bool_decide_eq_false_2 (Some n = c_head c)) by done.
    rewrite (bool_decide_eq_true_2 (Some n = c_tail c)) by done. simpl.
    unfold read_prev. rewrite Hn. simpl. rewrite Hpv, last_or_snoc. simpl.
    assert (Hp1 : p ∉ l1).
    { apply NoDup_app in Hnd1 as (_ & Hd & _). intros Hin.
      apply (Hd _ Hin). left. }
    assert (Hpin : is_Some (nodes c !! p)).
    { eapply dseg_in_heap; [exact Hl1|]. apply elem_of_app. right. left. }
    destruct Hpin as [ndp Hp].
    erewrite write_next_spec by (simpl; exact Hp). simpl.
    apply removeNode_finish.
    + by apply (same_data_relink (set_tail (Some p) c) p ndp).
    + done.
    + simpl. rewrite lookup_insert_ne; [by eexists|].
      intros ->. apply Hn1. apply elem_of_app. right. left.
    + split; simpl; [done| |by rewrite last_snoc|].
      * by rewrite Hh, head_snoc_app.
      * by apply (dseg_set_last_next _ _ _ _ (Some n)).
  - (* in the middle *)
    assert (c_head c <> Some n) as Hhn.
    { rewrite Hh. destruct (head_snoc_elem l1 p) as (b & Hb & Hin).
      rewrite head_snoc_app, Hb. intros [= ->]. done. }
    assert (c_tail c <> Some n) as Htn.
    { rewrite Ht, last_app_cons, last_cons_cons. intros E.
      apply last_Some_elem_of in E. done. }
    rewrite (bool_decide_eq_false_2 (c_head c = Some n)) by done.
    rewrite (bool_decide_eq_false_2 (Some n = c_head c)) by done.
    rewrite (bool_decide_eq_false_2 (Some n = c_tail c)) by done. simpl.
    assert (Hp1 : p ∉ l1).
    { apply NoDup_app in Hnd1 as (_ & Hd & _). intros Hin.
      apply (Hd _ Hin). left. }
    assert (Hpin : is_Some (nodes c !! p)).
    { eapply dseg_in_heap; [exact Hl1|]. apply elem_of_app. right. left. }
    destruct Hpin as [ndp Hp].
    destruct Hl2 as (ndx & Hx & Hxp & Hxn & Hl2).
    assert (Hx2 : x ∉ l2) by (by apply NoDup_cons in Hnd2 as [? ?]).
    assert (Hpn : p <> n).
    { intros ->. apply Hn1. apply elem_of_app. right. left. }
    assert (Hxn' : x <> n).
    { intros ->. apply Hn2. left. }
    assert (Hpx : p <> x).
    { intros ->. apply (Hdisj x); [apply elem_of_app; right; left|].
      right. left. }
    assert (Hpl2 : p ∉ x :: l2).
    { intros Hin. apply (Hdisj p); [apply elem_of_app; right; left|].
      by right. }
    assert (Hxl1 : x ∉ l1 ++ [p]).
    { intros Hin. apply (Hdisj x Hin). right. left. }
    unfold read_prev, read_next. rewrite Hn. simpl.
    rewrite Hpv, last_or_snoc. simpl in Hnx. rewrite Hnx. simpl.
    erewrite write_next_spec by (simpl; exact Hp). simpl.
    rewrite lookup_insert_ne by done. rewrite Hn. simpl.
    rewrite Hnx, Hpv, last_or_snoc. simpl.
    erewrite write_prev_spec
      by (simpl; rewrite lookup_insert_ne by done; exact Hx). simpl.
    apply removeNode_finish.
    + split; [done|]. split; [done|]. split; [done|]. intros a. simpl.
      rewrite (payload_insert_same _ x ndx);
        [|by rewrite lookup_insert_ne|done..].
      by apply (payload_insert_same _ p ndp).
    + intros Hin. apply elem_of_app in Hin as [?|?]; done.
    + simpl. rewrite !lookup_insert_ne by done. by eexists.
    + split; simpl.
      * apply NoDup_app. split; [done|]. split; [|done].
        intros y Hy1 Hy2. apply (Hdisj y Hy1). by right.
      * rewrite Hh. by rewrite !head_snoc_app.
      * rewrite Ht. by rewrite !last_app_cons, last_cons_cons.
      * apply dseg_app. split.
        -- apply dseg_insert_other; [done|]. simpl.
           by apply (dseg_set_last_next _ _ _ _ (Some n)).
        -- rewrite last_or_snoc.
           apply (dseg_set_first_prev _ (Some n)); [done| |].
           ++ by rewrite lookup_insert_ne.
           ++ apply dseg_insert_other; [done|]. exists ndx. done.
Qed.

Lemma moveToFront_spec c n l :
  n ∉ l -> is_Some (nodes c !! n) -> dll c l ->
  exists c', moveToFront n c = Some c' /\ dll c' (n :: l) /\ same_data c c'.
Proof.
  intros Hni [nd Hn] [Hnd Hh Ht Hl]. unfold moveToFront.
  assert (c_head c <> Some n) as Hhn.
  { rewrite Hh. intros E. apply head_Some_elem_of in E. done. }
  rewrite bool_decide_eq_false_2 by done.
  destruct l as [|h l].
  - simpl in Hh. rewrite Hh.
    erewrite write_prev_spec by (simpl; exact Hn). simpl.
    erewrite write_next_spec by (simpl; apply lookup_insert_eq). simpl.
    eexists. split; [done|]. split.
    + split; simpl; [by apply NoDup_singleton|done|done|].
      eexists. rewrite lookup_insert_eq. done.
    + split; [done|]. split; [done|]. split; [done|]. intros a. simpl.
      erewrite (payload_insert_same _ n); [|apply lookup_insert_eq|done..].
      by apply (payload_insert_same _ _ nd).
  - simpl in Hh. rewrite Hh.
    assert (Hne : h <> n) by (intros ->; apply Hni; left).
    destruct Hl as (ndh & Hhd & Hhp & Hhn' & Hl).
    assert (Hhl : h ∉ l) by (by apply NoDup_cons in Hnd as [? ?]).
    erewrite write_next_spec by exact Hn. simpl. rewrite Hh. simpl.
    erewrite write_prev_spec
      by (simpl; rewrite lookup_insert_ne by done; exact Hhd). simpl.
    erewrite write_prev_spec
      by (simpl; rewrite lookup_insert_ne by done; apply lookup_insert_eq).
    simpl.
    eexists. split; [done|]. split.
    + split; simpl.
      * apply NoDup_cons. done.
      * done.
      * rewrite Ht. by rewrite !last_cons.
      * eexists. rewrite lookup_insert_eq.
        split; [done|]. split; [done|]. split; [done|].
        apply (dseg_insert_other _ (Some n) (h :: l) None); [done|].
        apply (dseg_set_first_prev _ None); [done| |].
        -- by rewrite lookup_insert_ne.
        -- apply dseg_insert_other; [done|]. exists ndh. done.
    + split; [done|]. split; [done|]. split; [done|]. intros a. simpl.
      erewrite (payload_insert_same _ n);
        [|rewrite lookup_insert_ne by done; apply lookup_insert_eq|done..].
      rewrite (payload_insert_same _ h ndh);
        [|by rewrite lookup_insert_ne|done..].
      by apply (payload_insert_same _ _ nd).
Qed.

(** ** The index *)

Lemma key_payload h a : key <$> h !! a = fst <$> payload h a.
Proof. unfold payload. by destruct (h !! a). Qed.

Lemma indexed_same_data c c' l l' :
  same_data c c' -> (forall a, a ∈ l <-> a ∈ l') ->
  indexed c l -> indexed c' l'.
Proof.
  intros (_ & _ & Hi & Hp) Hl Hidx k a.
  rewrite Hi, key_payload, Hp, <- key_payload, <- Hl. apply Hidx.
Qed.

Lemma view_same_payload h h' l :
  (forall a, a ∈ l -> payload h' a = payload h a) -> view h' l = view h l.
Proof.
  intros H. unfold view. apply map_ext_in. intros a Ha.
  unfold entry_at. rewrite H; [done|]. by apply list_elem_of_In.
Qed.

Lemma view_same_data c c' l :
  same_data c c' -> view (nodes c') l = view (nodes c) l.
Proof. intros (_ & _ & _ & Hp). apply view_same_payload. auto. Qed.

Lemma view_app h l1 l2 : view h (l1 ++ l2) = view h l1 ++ view h l2.
Proof. apply map_app. Qed.

Lemma wf_in_heap c l a : wf c l -> a ∈ l -> is_Some (nodes c !! a).
Proof. intros [[_ _ _ Hl] _]. by apply (dseg_in_heap _ None l None). Qed.

(** Distinct listed cells carry distinct keys. *)
Lemma wf_key_inj c l a b nda ndb :
  wf c l -> a ∈ l -> b ∈ l ->
  nodes c !! a = Some nda -> nodes c !! b = Some ndb ->
  key nda = key ndb -> a = b.
Proof.
  intros [_ Hidx] Ha Hb Hna Hnb Hk.
  assert (c_items c !! key nda = Some a) as E1.
  { apply Hidx. by rewrite Hna. }
  assert (c_items c !! key nda = Some b) as E2.
  { apply Hidx. rewrite Hnb. simpl. by rewrite Hk. }
  congruence.
Qed.

End CacheFacts.

Module CacheRefinement.
Import Cache CacheInv CacheModel CacheFacts.

Lemma a_lookup_app_ne k es1 es2 :
  (forall e, e ∈ es1 -> e.1 <> k) ->
  a_lookup k (es1 ++ es2) = a_lookup k es2.
Proof.
  induction es1 as [|e es1 IH]; intros H; [done|]. simpl.
  rewrite decide_False by (apply H; left).
  apply IH. intros e' He'. apply H. by right.
Qed.

Lemma a_lookup_none k es :
  (forall e, e ∈ es -> e.1 <> k) -> a_lookup k es = None.
Proof.
  intros H. rewrite <- (app_nil_r es). by rewrite a_lookup_app_ne.
Qed.

Lemma a_lookup_none_inv k es e :
  a_lookup k es = None -> e ∈ es -> e.1 <> k.
Proof.
  induction es as [|e' es IH]; intros Hl Hin.
  - by apply elem_of_nil in Hin.
  - simpl in Hl. destruct (decide (e'.1 = k)); [done|].
    apply elem_of_cons in Hin as [->|Hin]; auto.
Qed.

Lemma a_remove_all_ne k es :
  (forall e, e ∈ es -> e.1 <> k) -> a_remove k es = es.
Proof.
  induction es as [|e es IH]; intros H; [done|].
  unfold a_remove. rewrite filter_cons_True by (apply H; left).
  f_equal. apply IH. intros e' He'. apply H. by right.
Qed.

Lemma a_remove_app k es1 es2 :
  a_remove k (es1 ++ es2) = a_remove k es1 ++ a_remove k es2.
Proof. apply filter_app. Qed.

Lemma a_remove_cons_eq k v es : a_remove k ((k, v) :: es) = a_remove k es.
Proof. unfold a_remove. by rewrite filter_cons_False by (simpl; auto). Qed.

Lemma entry_at_lookup h a nd :
  h !! a = Some nd -> entry_at h a = (key nd, value nd).
Proof. intros H. unfold entry_at, payload. by rewrite H. Qed.

Lemma view_keys_ne c l1 n l2 nd e :
  wf c (l1 ++ n :: l2) -> nodes c !! n = Some nd ->
  e ∈ view (nodes c) (l1 ++ l2) -> e.1 <> key nd.
Proof.
  intros Hwf Hn He Hk.
  apply list_elem_of_In, in_map_iff in He as (a & <- & Ha).
  apply list_elem_of_In in Ha.
  assert (Hal : a ∈ l1 ++ n :: l2).
  { apply elem_of_app in Ha as [?|?]; apply elem_of_app; [by left|].
    right. by right. }
  destruct (wf_in_heap _ _ _ Hwf Hal) as [nda Hnda].
  rewrite (entry_at_lookup _ _ _ Hnda) in Hk. simpl in Hk.
  assert (a = n) as ->.
  { eapply wf_key_inj; eauto. apply elem_of_app. right. left. }
  destruct Hwf as [[Hnd _ _ _] _].
  apply NoDup_app in Hnd as (_ & Hdisj & Hnd2).
  apply NoDup_cons in Hnd2 as [Hn2 _].
  apply elem_of_app in Ha as [Ha|Ha]; [|done].
  apply (Hdisj _ Ha). left.
Qed.

Lemma a_lookup_view c l1 n l2 nd :
  wf c (l1 ++ n :: l2) -> nodes c !! n = Some nd ->
  a_lookup (key nd) (view (nodes c) (l1 ++ n :: l2)) = Some (value nd).
Proof.
  intros Hwf Hn. rewrite view_app, a_lookup_app_ne.
  - simpl. rewrite (entry_at_lookup _ _ _ Hn). simpl.
    by rewrite decide_True.
  - intros e He. eapply view_keys_ne; [done..|].
    rewrite view_app. apply elem_of_app. by left.
Qed.

Lemma a_remove_view c l1 n l2 nd :
  wf c (l1 ++ n :: l2) -> nodes c !! n = Some nd ->
  a_remove (key nd) (view (nodes c) (l1 ++ n :: l2))
  = view (nodes c) (l1 ++ l2).
Proof.
  intros Hwf Hn. rewrite view_app, a_remove_app. simpl.
  rewrite (entry_at_lookup _ _ _ Hn), a_remove_cons_eq.
  rewrite <- a_remove_app, <- view_app.
  apply a_remove_all_ne. intros e He. by eapply view_keys_ne.
Qed.

Lemma a_lookup_view_miss c l k :
  wf c l -> c_items c !! k = None -> a_lookup k (view (nodes c) l) = None.
Proof.
  intros Hwf Hk. apply a_lookup_none. intros e He Hek.
  apply list_elem_of_In, in_map_iff in He as (a & <- & Ha).
  apply list_elem_of_In in Ha.
  destruct (wf_in_heap _ _ _ Hwf Ha) as [nda Hnda].
  rewrite (entry_at_lookup _ _ _ Hnda) in Hek. simpl in Hek.
  destruct Hwf as [_ Hidx].
  assert (c_items c !! k = Some a); [|congruence].
  apply Hidx. split; [done|]. rewrite Hnda. simpl. by rewrite Hek.
Qed.

Lemma same_data_lookup c c' a nd :
  same_data c c' -> nodes c !! a = Some nd ->
  exists nd', nodes c' !! a = Some nd' /\ key nd' = key nd
              /\ value nd' = value nd.
Proof.
  intros (_ & _ & _ & Hp) Ha. specialize (Hp a). unfold payload in Hp.
  rewrite Ha in Hp. destruct (nodes c' !! a) as [nd'|]; [|done].
  simpl in Hp. exists nd'. split; [done|]. by simplify_eq.
Qed.

Lemma NoDup_mid {A} (l1 l2 : list A) n :
  NoDup (l1 ++ n :: l2) -> (n ∉ l1 ++ l2) /\ NoDup (l1 ++ l2).
Proof.
  intros H. apply NoDup_app in H as (H1 & Hd & H2).
  apply NoDup_cons in H2 as [Hn2 H2]. split.
  - intros Hin. apply elem_of_app in Hin as [Hin|Hin]; [|done].
    apply (Hd _ Hin). left.
  - apply NoDup_app. split; [done|]. split; [|done].
    intros x Hx Hx2. apply (Hd _ Hx). by right.
Qed.

Lemma elem_of_mid {A} (l1 l2 : list A) n a :
  a ∈ l1 ++ n :: l2 <-> a ∈ n :: l1 ++ l2.
Proof. rewrite !elem_of_app, !elem_of_cons, elem_of_app. tauto. Qed.

(** [removeNode] then [moveToFront]: the step shared by a hit and an
    update. *)
Lemma touch_spec c n l1 l2 :
  wf c (l1 ++ n :: l2) ->
  exists c2, (c1 ← removeNode n c; moveToFront n c1) = Some c2
             /\ wf c2 (n :: l1 ++ l2) /\ same_data c c2.
Proof.
  intros Hwf. pose proof Hwf as [Hdll Hidx].
  destruct (removeNode_spec _ _ _ _ Hdll) as (c1 & E1 & Hd1 & Hs1).
  rewrite E1. simpl.
  destruct (NoDup_mid _ _ _ (dll_nodup _ _ Hdll)) as [Hni _].
  destruct (wf_in_heap c _ n Hwf) as [nd Hn].
  { apply elem_of_app. right. left. }
  destruct (same_data_lookup _ _ _ _ Hs1 Hn) as (nd1 & Hn1 & _).
  destruct (moveToFront_spec c1 n (l1 ++ l2) Hni) as (c2 & E2 & Hd2 & Hs2);
    [by eexists|done|].
  exists c2. split; [done|].
  assert (same_data c c2) by (by eapply same_data_trans).
  split; [|done]. split; [done|].
  eapply indexed_same_data; [done| |done]. apply elem_of_mid.
Qed.

Lemma Get_refines k c m m' found v :
  refines c m -> m_get k m = (m', found, v) ->
  exists c', Get k c = Some (c', found, v) /\ refines c' m'.
Proof.
  intros (l & Hwf & He & Hs & Hc). unfold Get, m_get. rewrite He.
  destruct (c_items c !! k) as [n|] eqn:E.
  - pose proof Hwf as [_ Hidx]. apply Hidx in E as [Hin Hkey].
    destruct (nodes c !! n) as [nd|] eqn:Hn; [|done].
    simpl in Hkey. injection Hkey as Hk. subst k.
    apply list_elem_of_split in Hin as (l1 & l2 & ->).
    destruct (touch_spec _ _ _ _ Hwf) as (c2 & E2 & Hwf2 & Hs2).
    destruct (removeNode n c) as [c1|]; [|done]. simpl in E2 |- *.
    rewrite E2. simpl.
    destruct (same_data_lookup _ _ _ _ Hs2 Hn) as (nd2 & Hn2 & Hk2 & Hv2).
    rewrite Hn2. simpl.
    rewrite (a_lookup_view _ _ _ _ _ Hwf Hn). intros [= <- <- <-].
    exists c2. split; [by rewrite Hv2|].
    exists (n :: l1 ++ l2). split; [done|]. simpl.
    pose proof Hs2 as (Hsz & Hcap & _).
    split; [|split; congruence].
    rewrite (a_remove_view _ _ _ _ _ Hwf Hn).
    rewrite (entry_at_lookup _ _ _ Hn2), Hk2, Hv2. f_equal.
    symmetry. by apply view_same_data.
  - rewrite (a_lookup_view_miss _ _ _ Hwf E). intros [= <- <- <-].
    exists c. split; [done|]. by exists l.
Qed.

Lemma dll_fields c c' l :
  c_head c' = c_head c -> c_tail c' = c_tail c -> nodes c' = nodes c ->
  dll c l -> dll c' l.
Proof.
  intros Hh Ht Hn [? ? ? ?]. split; [done|congruence|congruence|].
  by rewrite Hn.
Qed.

Lemma evictLRU_spec c l t :
  wf c (l ++ [t]) ->
  exists c', evictLRU c = Some c' /\ wf c' l
             /\ c_size c' = GoInt.decr (c_size c)
             /\ c_capacity c' = c_capacity c
             /\ forall a, payload (nodes c') a = payload (nodes c) a.
Proof.
  intros Hwf. pose proof Hwf as [Hdll Hidx]. unfold evictLRU.
  rewrite (dll_tail _ _ Hdll), last_snoc.
  destruct (wf_in_heap c _ t Hwf) as [nd Hn].
  { apply elem_of_app. right. left. }
  rewrite Hn. simpl. rewrite (dll_tail _ _ Hdll), last_snoc. simpl.
  set (c1 := set_items (delete (key nd) (c_items c)) c).
  assert (Hd1 : dll c1 (l ++ [t])) by (by apply (dll_fields c)).
  destruct (removeNode_spec _ _ _ _ Hd1) as (c2 & E2 & Hd2 & Hs2).
  rewrite E2. simpl. rewrite app_nil_r in Hd2.
  destruct Hs2 as (Hsz & Hcap & Hit & Hp).
  eexists. split; [done|]. simpl.
  split; [|split; [by rewrite Hsz|split; [by rewrite Hcap|done]]].
  split; [by apply (dll_fields c2)|].
  destruct (NoDup_mid _ _ _ (dll_nodup _ _ Hdll)) as [Hni _].
  rewrite app_nil_r in Hni.
  intros k a. simpl. rewrite Hit. simpl.
  rewrite key_payload, Hp. simpl. rewrite <- key_payload.
  rewrite lookup_delete_Some, (Hidx k a), elem_of_app, list_elem_of_singleton.
  split.
  - intros (Hne & [Ha | ->] & Hk); [done|].
    rewrite Hn in Hk. simpl in Hk. congruence.
  - intros [Ha Hk]. split; [|by auto].
    intros <-. assert (c_items c !! key nd = Some t) as E1.
    { apply Hidx. rewrite Hn. split; [|done]. apply elem_of_app.
      right. left. }
    assert (c_items c !! key nd = Some a) as E3.
    { apply Hidx. split; [|done]. apply elem_of_app. by left. }
    congruence.
Qed.

Lemma snoc_of_cons {A} (a : A) l : exists l0 t, a :: l = l0 ++ [t].
Proof.
  revert a. induction l as [|b l IH]; intros a.
  - by exists [], a.
  - destruct (IH b) as (l0 & t & E). exists (a :: l0), t.
    by rewrite E.
Qed.

Lemma payload_insert_ne h a b nd :
  a <> b -> payload (<[a := nd]> h) b = payload h b.
Proof. intros H. unfold payload. by rewrite lookup_insert_ne. Qed.

Lemma Put_refines k v c m :
  refines c m ->
  exists c', Put k v c = Some c' /\ refines c' (m_put k v m).
Proof.
  intros (l & Hwf & He & Hs & Hc). unfold Put, m_put. rewrite He.
  pose proof Hwf as [Hdll Hidx].
  destruct (c_items c !! k) as [n|] eqn:E.
  - (* update in place *)
    apply Hidx in E as [Hin Hkey].
    destruct (nodes c !! n) as [nd|] eqn:Hn; [|done].
    simpl in Hkey. injection Hkey as Hk. subst k.
    apply list_elem_of_split in Hin as (l1 & l2 & ->).
    unfold write_value. rewrite Hn. simpl.
    set (nd0 := mkNode (key nd) v (next nd) (prev nd)).
    set (c0 := set_nodes (<[n := nd0]> (nodes c)) c).
    assert (Hwf0 : wf c0 (l1 ++ n :: l2)).
    { split.
      - destruct Hdll as [? ? ? Hl]. split; [done..|].
        by apply dseg_set_value.
      - intros k a. simpl. rewrite (Hidx k a).
        destruct (decide (n = a)) as [->|].
        + by rewrite lookup_insert_eq, Hn.
        + by rewrite lookup_insert_ne. }
    destruct (touch_spec _ _ _ _ Hwf0) as (c2 & E2 & Hwf2 & Hs2).
    rewrite E2.
    rewrite (a_lookup_view _ _ _ _ _ Hwf Hn).
    exists c2. split; [done|].
    exists (n :: l1 ++ l2). split; [done|]. simpl.
    pose proof Hs2 as (Hsz & Hcap & _).
    split; [|split; [by rewrite Hsz|by rewrite Hcap]].
    rewrite (a_remove_view _ _ _ _ _ Hwf Hn).
    assert (Hn0 : nodes c0 !! n = Some nd0) by apply lookup_insert_eq.
    destruct (same_data_lookup _ _ _ _ Hs2 Hn0) as (nd2 & Hn2 & Hk2 & Hv2).
    rewrite (entry_at_lookup _ _ _ Hn2), Hk2, Hv2. f_equal.
    rewrite (view_same_data _ _ _ Hs2). symmetry.
    apply view_same_payload. intros a Ha. simpl.
    apply payload_insert_ne. intros ->.
    by destruct (NoDup_mid _ _ _ (dll_nodup _ _ Hdll)) as [Hni _].
  - (* a new entry *)
    rewrite (a_lookup_view_miss _ _ _ Hwf E).
    set (a := fresh (dom (nodes c))).
    assert (Ha : nodes c !! a = None).
    { apply not_elem_of_dom. apply is_fresh. }
    assert (Hal : a ∉ l).
    { intros Hin. destruct (wf_in_heap _ _ _ Hwf Hin) as [? ?]. congruence. }
    set (nd0 := mkNode k v None None).
    set (c2 := set_items _ _).
    assert (Hd2 : dll c2 l).
    { destruct Hdll as [? ? ? Hl]. split; [done..|]. simpl.
      by apply dseg_insert_other. }
    destruct (moveToFront_spec c2 a l Hal) as (c3 & E3 & Hd3 & Hs3);
      [by (simpl; rewrite lookup_insert_eq)|done|].
    rewrite E3. simpl.
    pose proof Hs3 as (Hsz3 & Hcap3 & Hit3 & Hp3).
    assert (Hidx3 : indexed c3 (a :: l)).
    { intros k' a'. rewrite Hit3, key_payload, Hp3, <- key_payload. simpl.
      rewrite elem_of_cons.
      destruct (decide (a = a')) as [<-|Hne].
      - rewrite lookup_insert_eq. simpl.
        destruct (decide (k = k')) as [<-|Hk].
        + rewrite lookup_insert_eq. by intuition.
        + rewrite lookup_insert_ne by done. split.
          * intros Hit. apply Hidx in Hit as [? ?]. done.
          * intros [_ ?]. congruence.
      - rewrite (lookup_insert_ne _ a a') by done.
        destruct (decide (k = k')) as [<-|Hk].
        + rewrite lookup_insert_eq. split; [congruence|].
          intros [[?|Hin] Hkey]; [done|].
          assert (c_items c !! k = Some a') by (by apply Hidx).
          congruence.
        + rewrite lookup_insert_ne by done. rewrite (Hidx k' a').
          split; [intros [? ?]; auto|].
          intros [[?|?] ?]; [congruence|auto]. }
    assert (Hv3 : view (nodes c3) (a :: l) = (k, v) :: view (nodes c) l).
    { rewrite (view_same_data _ _ _ Hs3). simpl. f_equal.
      - rewrite (entry_at_lookup _ _ nd0); [done|apply lookup_insert_eq].
      - apply view_same_payload. intros b Hb.
        apply payload_insert_ne. by intros ->. }
    assert (Ht3 : exists t, c_tail c3 = Some t).
    { rewrite (dll_tail _ _ Hd3).
      destruct (last_cons_elem a l) as (t & -> & _). by eexists. }
    destruct Ht3 as (t & Ht3). rewrite Ht3. simpl.
    rewrite Hsz3, Hcap3. simpl. rewrite <- Hs, <- Hc.
    case_bool_decide.
    + destruct (snoc_of_cons a l) as (l0 & t' & El).
      set (c4 := set_size _ c3).
      assert (Hwf4 : wf c4 (l0 ++ [t'])).
      { rewrite <- El. split; [by apply (dll_fields c3)|done]. }
      destruct (evictLRU_spec _ _ _ Hwf4)
        as (c' & E' & Hwf' & Hsz' & Hcap' & Hp').
      exists c'. split; [done|].
      exists l0. split; [done|]. cbn [m_entries m_size m_capacity].
      split; [|split; [done|by rewrite Hcap', Hc]].
      rewrite (view_same_payload _ _ _ (fun a _ => Hp' a)).
      change (removelast ((k, v) :: view (nodes c) l) = view (nodes c3) l0).
      rewrite <- Hv3, El. unfold view. rewrite map_app. cbn [map].
      by rewrite removelast_last.
    + eexists. split; [done|].
      exists (a :: l). split.
      { split; [by apply (dll_fields c3)|done]. }
      cbn [m_entries m_size m_capacity nodes c_size c_capacity set_size].
      rewrite Hv3, Hcap3. simpl. by rewrite Hc.
Qed.

End CacheRefinement.

(** ** Properties of the functional model *)

Module CacheModelFacts.
Import Cache CacheInv CacheModel CacheRefinement.

Lemma keys_app es1 es2 : keys (es1 ++ es2) = keys es1 ++ keys es2.
Proof. apply map_app. Qed.

Lemma elem_of_keys k es : k ∈ keys es <-> exists v, (k, v) ∈ es.
Proof.
  unfold keys. rewrite list_elem_of_In, in_map_iff. split.
  - intros ([k' v] & <- & Hin). exists v. by apply list_elem_of_In.
  - intros (v & Hin). exists (k, v). split; [done|].
    by apply list_elem_of_In.
Qed.

Lemma a_lookup_not_in k es : k ∉ keys es -> a_lookup k es = None.
Proof.
  intros Hni. apply a_lookup_none. intros [k' v] He <-. apply Hni.
  apply elem_of_keys. by exists v.
Qed.

Lemma a_lookup_in_keys k es v : a_lookup k es = Some v -> (k, v) ∈ es.
Proof.
  induction es as [|[k' v'] es IH]; [done|]. simpl.
  case_decide; simplify_eq.
  - intros [= ->]. left.
  - intros H'. right. auto.
Qed.

Lemma a_lookup_elem k v es :
  NoDup (keys es) -> (k, v) ∈ es -> a_lookup k es = Some v.
Proof.
  induction es as [|[k' v'] es IH]; intros Hnd Hin.
  - by apply elem_of_nil in Hin.
  - simpl in Hnd. apply NoDup_cons in Hnd as [Hk' Hnd]. simpl.
    apply elem_of_cons in Hin as [[= <- <-]|Hin].
    + by rewrite decide_True.
    + rewrite decide_False; [by apply IH|].
      intros ->. apply Hk'. apply elem_of_keys. by exists v.
Qed.

Lemma keys_a_remove k k' es :
  k' ∈ keys (a_remove k es) <-> k' ∈ keys es /\ k' <> k.
Proof.
  rewrite !elem_of_keys. unfold a_remove. split.
  - intros (v & Hin). apply list_elem_of_filter in Hin as [Hne Hin].
    split; [by exists v|done].
  - intros [(v & Hin) Hne]. exists v. by apply list_elem_of_filter.
Qed.

Lemma NoDup_keys_a_remove k es :
  NoDup (keys es) -> NoDup (keys (a_remove k es)).
Proof.
  induction es as [|[k' v'] es IH]; intros Hnd; [done|].
  simpl in Hnd. apply NoDup_cons in Hnd as [Hk' Hnd].
  unfold a_remove. destruct (decide (k' = k)) as [->|Hne].
  - rewrite filter_cons_False by (simpl; auto). by apply IH.
  - rewrite filter_cons_True by done. simpl. apply NoDup_cons.
    split; [|by apply IH].
    intros Hin. apply keys_a_remove in Hin as [? _]. done.
Qed.

Lemma NoDup_touch k v es :
  NoDup (keys es) -> NoDup (keys ((k, v) :: a_remove k es)).
Proof.
  intros Hnd. simpl. apply NoDup_cons. split.
  - intros Hin. apply keys_a_remove in Hin as [_ ?]. done.
  - by apply NoDup_keys_a_remove.
Qed.

Lemma length_a_remove k v es :
  NoDup (keys es) -> a_lookup k es = Some v ->
  S (length (a_remove k es)) = length es.
Proof.
  induction es as [|[k' v'] es IH]; intros Hnd Hl; [done|].
  simpl in Hnd. apply NoDup_cons in Hnd as [Hk' Hnd].
  simpl in Hl. unfold a_remove. case_decide as Hk; simpl in Hk.
  - subst k'. rewrite filter_cons_False by (simpl; auto). simpl.
    f_equal. fold (a_remove k es). f_equal. apply a_remove_all_ne.
    intros [k2 v2] Hin <-. apply Hk'. apply elem_of_keys. by exists v2.
  - rewrite filter_cons_True by done. simpl. f_equal. by apply IH.
Qed.

Lemma NoDup_keys_removelast es :
  NoDup (keys es) -> NoDup (keys (removelast es)).
Proof.
  destruct es as [|e es _] using rev_ind; [done|].
  rewrite removelast_last, keys_app. intros H.
  by apply NoDup_app in H as [? _].
Qed.

Lemma length_removelast_snoc {A} (l : list A) a :
  length (removelast (a :: l)) = length l.
Proof.
  destruct (snoc_of_cons a l) as (l0 & t & E).
  rewrite E, removelast_last.
  apply (f_equal length) in E. rewrite length_app in E. simpl in E. lia.
Qed.

Lemma m_ok_new cap : m_ok (m_new cap).
Proof.
  repeat split; simpl; try (apply NoDup_nil_2);
    unfold GoInt.min_int, GoInt.max_int in *; lia.
Qed.

Lemma m_ok_get k m : m_ok m -> m_ok (m_get k m).1.1.
Proof.
  intros (Hnd & Hint & Hsz). unfold m_get.
  destruct (a_lookup k (m_entries m)) as [v|] eqn:E;
    cbn [fst snd m_size m_capacity m_entries]; [|done].
  split; [by apply (NoDup_touch k v)|]. split; [done|].
  cbn [m_size m_capacity m_entries].
  intros Hcap. destruct (Hsz Hcap) as [Hs ?]. split; [|done].
  rewrite Hs. f_equal. cbn [length]. symmetry.
  by apply (length_a_remove k v).
Qed.

Lemma m_ok_put k v m : m_ok m -> m_ok (m_put k v m).
Proof.
  intros (Hnd & Hint & Hsz). unfold m_put.
  destruct (a_lookup k (m_entries m)) as [v'|] eqn:E;
    cbn [m_size m_capacity m_entries].
  - split; [by apply (NoDup_touch k v)|]. split; [done|].
    cbn [m_size m_capacity m_entries].
    intros Hcap. destruct (Hsz Hcap) as [Hs ?]. split; [|done].
    rewrite Hs. f_equal. cbn [length]. symmetry.
    by apply (length_a_remove k v').
  - assert (Hnd' : NoDup (keys ((k, v) :: m_entries m))).
    { simpl. apply NoDup_cons. split; [|done]. intros Hin.
      apply elem_of_keys in Hin as (v' & Hin).
      by rewrite (a_lookup_elem k v' _ Hnd Hin) in E. }
    assert (Hincr : m_capacity m < GoInt.max_int ->
                    GoInt.incr (m_size m) = m_size m + 1).
    { intros Hcap. destruct (Hsz Hcap) as [Hs Hle].
      apply GoIntFacts.incr_small.
      unfold GoInt.min_int, GoInt.max_int in *. lia. }
    case_bool_decide as Hgt; unfold m_ok; cbn [m_entries m_size m_capacity].
    + split; [by apply NoDup_keys_removelast|].
      split; [apply GoIntFacts.wrap_is_int|].
      intros Hcap. destruct (Hsz Hcap) as [Hs Hle].
      rewrite (Hincr Hcap) in *.
      rewrite GoIntFacts.decr_small
        by (unfold GoInt.min_int, GoInt.max_int in *; lia).
      rewrite length_removelast_snoc. lia.
    + split; [done|]. split; [apply GoIntFacts.wrap_is_int|].
      intros Hcap. destruct (Hsz Hcap) as [Hs Hle].
      rewrite (Hincr Hcap) in *. cbn [length]. lia.
Qed.

Lemma m_run_ops_snoc os o m :
  m_run_ops (os ++ [o]) m = m_run_op o (m_run_ops os m).
Proof. unfold m_run_ops. by rewrite fold_left_app. Qed.

Lemma m_ok_run os m : m_ok m -> m_ok (m_run_ops os m).
Proof.
  induction os as [|o os IH] using rev_ind; [done|].
  intros H. rewrite m_run_ops_snoc. destruct o; simpl.
  - by apply m_ok_get, IH.
  - by apply m_ok_put, IH.
Qed.

Lemma m_capacity_get k m : m_capacity (m_get k m).1.1 = m_capacity m.
Proof. unfold m_get. by destruct (a_lookup k (m_entries m)). Qed.

Lemma m_capacity_put k v m : m_capacity (m_put k v m) = m_capacity m.
Proof.
  unfold m_put. destruct (a_lookup k (m_entries m)); [done|].
  by case_bool_decide.
Qed.

Lemma m_capacity_run os m : m_capacity (m_run_ops os m) = m_capacity m.
Proof.
  induction os as [|o os IH] using rev_ind; [done|].
  rewrite m_run_ops_snoc. destruct o; simpl.
  - by rewrite m_capacity_get.
  - by rewrite m_capacity_put.
Qed.

(** The counter never exceeds the capacity once the capacity is not
    negative. *)
Lemma m_ok_size_le m : m_ok m -> m_size m <= Z.max 0 (m_capacity m).
Proof.
  intros (_ & [_ Hhi] & Hsz).
  destruct (decide (m_capacity m < GoInt.max_int)) as [Hc|Hc].
  - by destruct (Hsz Hc).
  - lia.
Qed.

End CacheModelFacts.

(** ** Every run of the cache follows the model *)

Module CacheRuns.
Import Cache CacheInv CacheModel CacheFacts CacheRefinement CacheModelFacts.

Lemma refines_new cap : refines (NewLRUCache cap) (m_new cap).
Proof.
  exists []. split; [|done]. split.
  - split; simpl; [apply NoDup_nil_2|done..].
  - intros k a. simpl. rewrite lookup_empty. split; [done|].
    intros [Hin _]. by apply elem_of_nil in Hin.
Qed.

Lemma run_op_refines o c m :
  refines c m ->
  exists c', run_op o c = Some c' /\ refines c' (m_run_op o m).
Proof.
  intros Hr. destruct o as [k|k v]; simpl.
  - destruct (m_get k m) as [[m' found] v] eqn:E.
    destruct (Get_refines _ _ _ _ _ _ Hr E) as (c' & -> & Hr').
    by exists c'.
  - by apply Put_refines.
Qed.

Lemma run_ops_refines os c m :
  refines c m ->
  exists c', run_ops os c = Some c' /\ refines c' (m_run_ops os m).
Proof.
  revert c m. induction os as [|o os IH]; intros c m Hr; simpl.
  - by exists c.
  - destruct (run_op_refines o _ _ Hr) as (c1 & -> & Hr1). simpl.
    by apply IH.
Qed.

Lemma run_ops_app os1 os2 c :
  run_ops (os1 ++ os2) c = (c' ← run_ops os1 c; run_ops os2 c').
Proof.
  revert c. induction os1 as [|o os1 IH]; intros c; simpl; [done|].
  destruct (run_op o c); simpl; [apply IH|done].
Qed.

(** Any sequence of calls on a fresh cache runs to completion, and ends in
    a state that represents a well-formed model state. *)
Lemma reachable cap os :
  exists c m, run_ops os (NewLRUCache cap) = Some c /\ refines c m
              /\ m_ok m /\ m = m_run_ops os (m_new cap)
              /\ c_capacity c = cap.
Proof.
  destruct (run_ops_refines os _ _ (refines_new cap)) as (c & E & Hr).
  exists c, (m_run_ops os (m_new cap)). split; [done|]. split; [done|].
  split; [apply m_ok_run, m_ok_new|]. split; [done|].
  destruct Hr as (_ & _ & _ & _ & <-). by rewrite m_capacity_run.
Qed.

(** A miss leaves the cache as it was. *)
Lemma Get_miss_unchanged k c c' v :
  Get k c = Some (c', false, v) -> c' = c /\ v = None.
Proof.
  unfold Get. destruct (c_items c !! k) as [n|]; [|by intros [= <- <-]].
  destruct (removeNode n c) as [c1|]; simpl; [|done].
  destruct (moveToFront n c1) as [c2|]; simpl; [|done].
  destruct (nodes c2 !! n); simpl; done.
Qed.

Lemma reachable_refines cap os c :
  run_ops os (NewLRUCache cap) = Some c ->
  exists m, refines c m /\ m_ok m /\ m_capacity m = cap.
Proof.
  intros E. destruct (reachable cap os) as (c' & m & E' & Hr & Hok & _ & Hc).
  assert (c' = c) as -> by congruence.
  exists m. split; [done|]. split; [done|].
  by destruct Hr as (_ & _ & _ & _ & ->).
Qed.

(** A lookup leaves the index as it was. *)
Lemma Get_items k c m c' found v :
  refines c m -> Get k c = Some (c', found, v) -> c_items c' = c_items c.
Proof.
  intros (l & Hwf & _) E. unfold Get in E.
  destruct (c_items c !! k) as [n|] eqn:Ek; [|by injection E as <- _ _].
  pose proof Hwf as [_ Hidx]. apply Hidx in Ek as [Hin _].
  apply list_elem_of_split in Hin as (l1 & l2 & ->).
  destruct (touch_spec _ _ _ _ Hwf) as (c2 & E2 & _ & (_ & _ & Hit & _)).
  destruct (removeNode n c) as [c1|]; [|done]. simpl in E, E2.
  rewrite E2 in E. simpl in E.
  destruct (nodes c2 !! n); [|done]. simpl in E. by injection E as <- _ _.
Qed.

(** *** Walking the list *)

Lemma walk_next_dseg h p l fuel :
  dseg h p l None -> (length l <= fuel)%nat ->
  walk_next fuel h (head l) = Some l.
Proof.
  revert p fuel. induction l as [|a l IH]; intros p fuel Hd Hf.
  - by destruct fuel.
  - destruct fuel as [|fuel]; [simpl in Hf; lia|].
    destruct Hd as (nd & Ha & _ & Hnx & Hd). simpl.
    rewrite Ha. simpl. rewrite Hnx, hd_or_head.
    replace (match head l with Some a0 => Some a0 | None => None end)
      with (head l) by (by destruct (head l)).
    rewrite (IH (Some a) fuel Hd); [done|]. simpl in Hf. lia.
Qed.

Lemma walk_prev_dseg h l q fuel :
  dseg h None l q -> (length l <= fuel)%nat ->
  walk_prev fuel h (last l) = Some (reverse l).
Proof.
  revert q fuel. induction l as [|a l IH] using rev_ind; intros q fuel Hd Hf.
  - by destruct fuel.
  - rewrite length_app in Hf. simpl in Hf.
    destruct fuel as [|fuel]; [lia|].
    apply dseg_app in Hd as [Hd (nd & Ha & Hpv & _)].
    rewrite last_snoc, reverse_snoc. simpl. rewrite Ha. simpl.
    rewrite Hpv. unfold last_or.
    replace (match last l with Some a0 => Some a0 | None => None end)
      with (last l) by (by destruct (last l)).
    rewrite (IH _ fuel Hd); [done|lia].
Qed.

Lemma length_le_heap c l : wf c l -> (length l <= size (nodes c))%nat.
Proof.
  intros Hwf. pose proof Hwf as [[Hnd _ _ _] _].
  rewrite <- (size_list_to_set (C := gset addr) l Hnd), <- size_dom.
  apply subseteq_size. intros a Ha. apply elem_of_list_to_set in Ha.
  apply elem_of_dom. by eapply wf_in_heap.
Qed.

Lemma key_at_entry h a : key_at h a = (entry_at h a).1.
Proof. unfold key_at, entry_at, payload. by destruct (h !! a). Qed.

Lemma keys_view h l : map (key_at h) l = keys (view h l).
Proof.
  unfold keys, view. rewrite map_map. apply map_ext. apply key_at_entry.
Qed.

Lemma map_reverse {A B} (f : A -> B) l :
  map f (reverse l) = reverse (map f l).
Proof.
  induction l as [|a l IH]; [done|].
  simpl. by rewrite !reverse_cons, map_app, IH.
Qed.

(** Both walks succeed and read off the keys of the model. *)
Lemma recency_keys_refines c m :
  refines c m ->
  recency_keys c = Some (keys (m_entries m)) /\
  recency_keys_backward c = Some (reverse (keys (m_entries m))).
Proof.
  intros (l & Hwf & -> & _). pose proof Hwf as [[_ Hh Ht Hl] _].
  pose proof (length_le_heap _ _ Hwf) as Hlen.
  unfold recency_keys, recency_keys_backward. rewrite Hh, Ht.
  rewrite (walk_next_dseg _ _ _ _ Hl Hlen).
  rewrite (walk_prev_dseg _ _ _ _ Hl Hlen). simpl.
  rewrite !keys_view. split; [done|]. f_equal.
  unfold keys, view. by rewrite !map_reverse.
Qed.

(** The keys of the index and the keys of the model are the same. *)
Lemma index_keys_refines c m k :
  refines c m -> k ∈ index_keys c <-> k ∈ keys (m_entries m).
Proof.
  intros (l & Hwf & -> & _). pose proof Hwf as [_ Hidx].
  unfold index_keys. rewrite elem_of_dom, <- keys_view.
  rewrite list_elem_of_In, in_map_iff. split.
  - intros [a Ha]. apply Hidx in Ha as [Hin Hk]. exists a.
    split; [|by apply list_elem_of_In].
    unfold key_at. destruct (nodes c !! a); simpl in Hk; by simplify_eq.
  - intros (a & Hk & Hin). apply list_elem_of_In in Hin.
    exists a. apply Hidx. split; [done|].
    destruct (wf_in_heap _ _ _ Hwf Hin) as [nd Hnd].
    unfold key_at in Hk. rewrite Hnd in Hk |- *. simpl. by rewrite Hk.
Qed.

End CacheRuns.

(** ** The cache: capacity, eviction order, index, update in place *)

Module CacheProperties.
Import Cache CacheInv CacheModel CacheFacts CacheRefinement CacheModelFacts
  CacheRuns.

Lemma Get_hit c m k v :
  refines c m -> a_lookup k (m_entries m) = Some v ->
  exists c', Get k c = Some (c', true, v) /\
             refines c' (m_get k m).1.1.
Proof.
  intros Hr Hl.
  destruct (m_get k m) as [[m' found] v'] eqn:E.
  destruct (Get_refines _ _ _ _ _ _ Hr E) as (c' & E' & Hr').
  unfold m_get in E. rewrite Hl in E. injection E as <- <- <-.
  by exists c'.
Qed.

Lemma Get_miss c m k :
  refines c m -> a_lookup k (m_entries m) = None ->
  Get k c = Some (c, false, None).
Proof.
  intros Hr Hl.
  destruct (m_get k m) as [[m' found] v'] eqn:E.
  destruct (Get_refines _ _ _ _ _ _ Hr E) as (c' & E' & Hr').
  unfold m_get in E. rewrite Hl in E. injection E as <- <- <-.
  by destruct (Get_miss_unchanged _ _ _ _ E') as [-> _].
Qed.

(** C1, as amended: the capacity is fixed when the cache is made, and
    after every [Put], whatever calls came before it, [Size()] is at most
    the capacity or zero, whichever is larger.  So [Size() <= Capacity()]
    for every capacity that is not negative; for a capacity of zero or
    less the cache is empty after every [Put] and the key just put
    misses. *)
Theorem capacity_invariant (cap : Z) (os : list op) (k : string)
    (v : option ProxyItem) :
  exists c,
    run_ops (os ++ [OpPut k v]) (NewLRUCache cap) = Some c /\
    Capacity c = cap /\
    Size c <= Z.max 0 (Capacity c) /\
    (0 <= cap -> Size c <= Capacity c) /\
    (cap <= 0 -> Size c = 0 /\ Get k c = Some (c, false, None)).
Proof.
  destruct (reachable cap (os ++ [OpPut k v]))
    as (c & m & E & Hr & Hok & _ & Hcap).
  exists c. split; [done|]. split; [done|].
  pose proof Hr as (l & _ & _ & Hsz & Hc).
  pose proof (m_ok_size_le _ Hok) as Hle.
  unfold Size, Capacity. rewrite <- Hsz, <- Hc.
  split; [done|]. split; [lia|].
  intros Hneg. destruct Hok as (_ & _ & Hexact).
  destruct Hexact as [Hlen Hle'].
  { unfold GoInt.max_int. lia. }
  assert (m_entries m = []) as Hnil.
  { destruct (m_entries m); [done|]. simpl in Hlen. lia. }
  split; [lia|]. apply (Get_miss _ m); [done|]. by rewrite Hnil.
Qed.

(** C1 as stated fails for a negative capacity: after one [Put] into a
    cache of capacity -1 the cache is empty, and 0 is not at most -1. *)
Lemma capacity_invariant_negative_capacity :
  exists c,
    run_ops [OpPut "a" None] (NewLRUCache (-1)) = Some c /\
    Size c = 0 /\ Capacity c = -1 /\ ~ (Size c <= Capacity c).
Proof.
  eexists. split; [vm_compute; reflexivity|].
  vm_compute. repeat split; congruence.
Qed.

(** C6: after any sequence of [Get] and [Put] on a fresh cache, walking
    the list from the head along [next] ends at [nil] and passes exactly
    the keys of the index, each once; walking from the tail along [prev]
    passes the same keys in the opposite order. *)
Theorem list_and_index_agree (cap : Z) (os : list op) :
  exists c ks,
    run_ops os (NewLRUCache cap) = Some c /\
    recency_keys c = Some ks /\
    recency_keys_backward c = Some (reverse ks) /\
    NoDup ks /\
    forall k, k ∈ ks <-> k ∈ index_keys c.
Proof.
  destruct (reachable cap os) as (c & m & E & Hr & Hok & _ & _).
  destruct (recency_keys_refines _ _ Hr) as [Hf Hb].
  exists c, (keys (m_entries m)). split; [done|]. split; [done|].
  split; [done|]. split; [by destruct Hok|].
  intros k. symmetry. by apply index_keys_refines.
Qed.

(** With room for at least one entry, a [Put] leaves its key at the
    front. *)
Lemma m_put_front k v m :
  m_ok m -> 1 <= m_capacity m ->
  exists rest, m_entries (m_put k v m) = (k, v) :: rest.
Proof.
  intros (Hnd & [Hlo Hhi] & Hsz) Hcap. unfold m_put.
  destruct (a_lookup k (m_entries m)); [by eexists|].
  case_bool_decide as Hgt; [|by eexists].
  cbn [m_entries]. destruct (m_entries m) as [|e es] eqn:Ees.
  - exfalso.
    pose proof (GoIntFacts.wrap_is_int (m_size m + 1)) as [_ Hw].
    fold (GoInt.incr (m_size m)) in Hw.
    destruct (decide (m_capacity m < GoInt.max_int)) as [Hc|Hc].
    + destruct (Hsz Hc) as [Hs _]. simpl in Hs. rewrite Hs in Hgt.
      change (GoInt.incr (Z.of_nat 0)) with 1 in Hgt. lia.
    + lia.
  - by eexists.
Qed.

Lemma a_remove_front k v es :
  k ∉ keys es -> a_remove k ((k, v) :: es) = es.
Proof.
  intros Hni. rewrite a_remove_cons_eq. apply a_remove_all_ne.
  intros [k' v'] Hin <-. apply Hni. apply elem_of_keys. by exists v'.
Qed.

(** C7, as amended: on a cache of capacity at least one, in whatever
    state earlier calls left it, [Put(K, V1)] then [Put(K, V2)] then
    [Get(K)] returns [V2]; the second [Put] leaves [Size()] unchanged and
    the list with the same keys, [K] first and nowhere else. *)
Theorem update_in_place (cap : Z) (os : list op) (K : string)
    (V1 V2 : option ProxyItem) :
  1 <= cap ->
  exists c0 c1 c2 c3 rest,
    run_ops os (NewLRUCache cap) = Some c0 /\
    Put K V1 c0 = Some c1 /\
    Put K V2 c1 = Some c2 /\
    Get K c2 = Some (c3, true, V2) /\
    Size c2 = Size c1 /\
    recency_keys c1 = Some (K :: rest) /\
    recency_keys c2 = Some (K :: rest) /\
    K ∉ rest.
Proof.
  intros Hcap.
  destruct (reachable cap os) as (c0 & m0 & E0 & Hr0 & Hok0 & _ & Hc0).
  destruct (Put_refines K V1 _ _ Hr0) as (c1 & E1 & Hr1).
  pose proof (m_ok_put K V1 _ Hok0) as Hok1.
  assert (Hm0 : 1 <= m_capacity m0).
  { destruct Hr0 as (_ & _ & _ & _ & ->). lia. }
  destruct (m_put_front K V1 _ Hok0 Hm0) as (rest & Hes1).
  set (m1 := m_put K V1 m0) in *.
  destruct (Put_refines K V2 _ _ Hr1) as (c2 & E2 & Hr2).
  assert (Hnr : K ∉ keys rest).
  { destruct Hok1 as (Hnd & _). rewrite Hes1 in Hnd. simpl in Hnd.
    by apply NoDup_cons in Hnd as [? _]. }
  assert (Hm2 : m_put K V2 m1
                = mkModel (m_size m1) (m_capacity m1) ((K, V2) :: rest)).
  { unfold m_put. rewrite Hes1. simpl. rewrite decide_True by done.
    fold (a_remove K ((K, V1) :: rest)). by rewrite a_remove_front. }
  rewrite Hm2 in Hr2.
  destruct (Get_hit c2 _ K V2 Hr2) as (c3 & E3 & _).
  { simpl. by rewrite decide_True. }
  exists c0, c1, c2, c3, (keys rest).
  split; [done|]. split; [done|]. split; [done|]. split; [done|].
  split.
  { pose proof Hr1 as (? & _ & _ & Hs1 & _).
    pose proof Hr2 as (? & _ & _ & Hs2 & _).
    unfold Size. simpl in Hs2. congruence. }
  destruct (recency_keys_refines _ _ Hr1) as [-> _].
  destruct (recency_keys_refines _ _ Hr2) as [-> _].
  rewrite Hes1. done.
Qed.

Lemma update_in_place_witness :
  exists c0 c1 c2 c3 rest,
    run_ops [OpPut "a" None] (NewLRUCache 1) = Some c0 /\
    Put "k" (Some (mkItem "1" "" "")) c0 = Some c1 /\
    Put "k" (Some (mkItem "2" "" "")) c1 = Some c2 /\
    Get "k" c2 = Some (c3, true, Some (mkItem "2" "" "")) /\
    Size c2 = Size c1 /\
    recency_keys c1 = Some ("k"%string :: rest) /\
    recency_keys c2 = Some ("k"%string :: rest) /\
    "k"%string ∉ rest.
Proof.
  apply (update_in_place 1 [OpPut "a" None] "k"
           (Some (mkItem "1" "" "")) (Some (mkItem "2" "" ""))).
  lia.
Defined.

(** C7 as stated fails on a cache of capacity zero, where no [Put]
    sticks: after [Put(k, V1)] and [Put(k, V2)] a [Get(k)] misses. *)
Lemma update_in_place_zero_capacity :
  exists c1 c2,
    Put "k" (Some (mkItem "1" "" "")) (NewLRUCache 0) = Some c1 /\
    Put "k" (Some (mkItem "2" "" "")) c1 = Some c2 /\
    Get "k" c2 = Some (c2, false, None) /\
    forall c3, Get "k" c2 <> Some (c3, true, Some (mkItem "2" "" "")).
Proof.
  eexists. eexists. split; [vm_compute; reflexivity|].
  split; [vm_compute; reflexivity|].
  split; [vm_compute; reflexivity|].
  intros c3. vm_compute. congruence.
Qed.

(** *** Filling a cache and overflowing it by one *)

Lemma keys_reverse es : keys (reverse es) = reverse (keys es).
Proof. apply map_reverse. Qed.

Lemma puts_snoc kvs k v : puts (kvs ++ [(k, v)]) = puts kvs ++ [OpPut k v].
Proof. unfold puts. by rewrite map_app. Qed.

Lemma gets_snoc gs g : gets (gs ++ [g]) = gets gs ++ [OpGet g].
Proof. unfold gets. by rewrite map_app. Qed.

Lemma removelast_reverse {A} (l : list A) :
  removelast (reverse l) = reverse (tail l).
Proof.
  destruct l as [|a l]; [done|].
  cbn [tail]. rewrite reverse_cons. apply removelast_last.
Qed.

Lemma m_puts_fill (N : nat) kvs :
  NoDup (keys kvs) -> (length kvs <= N)%nat ->
  Z.of_nat N < GoInt.max_int ->
  m_run_ops (puts kvs) (m_new (Z.of_nat N))
  = mkModel (Z.of_nat (length kvs)) (Z.of_nat N) (reverse kvs).
Proof.
  intros Hnd Hlen HN.
  induction kvs as [|[k v] kvs IH] using rev_ind; [done|].
  rewrite keys_app in Hnd. apply NoDup_app in Hnd as (Hnd & Hdisj & _).
  rewrite length_app in Hlen. simpl in Hlen.
  rewrite puts_snoc, m_run_ops_snoc, IH by (done || lia). simpl.
  unfold m_put. cbn [m_entries m_size m_capacity].
  rewrite a_lookup_not_in.
  2:{ rewrite keys_reverse, elem_of_reverse. intros Hin.
      apply (Hdisj _ Hin). simpl. left. }
  rewrite GoIntFacts.incr_small by (unfold GoInt.min_int; lia).
  rewrite bool_decide_eq_false_2 by lia.
  rewrite reverse_snoc, length_app. simpl. f_equal. lia.
Qed.

Lemma m_puts_overflow (N : nat) kvs :
  NoDup (keys kvs) -> length kvs = S N ->
  Z.of_nat N < GoInt.max_int ->
  m_run_ops (puts kvs) (m_new (Z.of_nat N))
  = mkModel (Z.of_nat N) (Z.of_nat N) (reverse (tail kvs)).
Proof.
  intros Hnd Hlen HN.
  destruct kvs as [|[k v] kvs0 _] using rev_ind; [done|].
  rewrite length_app in Hlen. simpl in Hlen.
  pose proof Hnd as Hnd'.
  rewrite keys_app in Hnd. apply NoDup_app in Hnd as (Hnd & Hdisj & _).
  rewrite puts_snoc, m_run_ops_snoc, m_puts_fill by (done || lia). simpl.
  unfold m_put. cbn [m_entries m_size m_capacity].
  rewrite a_lookup_not_in.
  2:{ rewrite keys_reverse, elem_of_reverse. intros Hin.
      apply (Hdisj _ Hin). simpl. left. }
  rewrite GoIntFacts.incr_small by (unfold GoInt.min_int; lia).
  rewrite bool_decide_eq_true_2 by lia.
  rewrite GoIntFacts.decr_small
    by (unfold GoInt.min_int, GoInt.max_int in *; lia).
  f_equal; [lia|].
  rewrite <- reverse_snoc. apply removelast_reverse.
Qed.

Lemma a_lookup_a_remove_ne k k' es :
  k <> k' -> a_lookup k (a_remove k' es) = a_lookup k es.
Proof.
  intros Hne. induction es as [|[k2 v2] es IH]; [done|].
  unfold a_remove. destruct (decide (k2 = k')) as [->|Hk2].
  - rewrite filter_cons_False by (simpl; auto). simpl.
    rewrite decide_False by done. apply IH.
  - rewrite filter_cons_True by done. simpl.
    case_decide; [done|]. apply IH.
Qed.

(** A lookup moves an entry; it neither adds nor removes nor changes
    one. *)
Lemma m_get_lookup k k' m :
  a_lookup k (m_entries (m_get k' m).1.1) = a_lookup k (m_entries m).
Proof.
  unfold m_get. destruct (a_lookup k' (m_entries m)) as [v'|] eqn:E;
    [|done].
  simpl. case_decide as Hk.
  - by subst k'.
  - apply a_lookup_a_remove_ne. congruence.
Qed.

Lemma m_gets_lookup k gs m :
  a_lookup k (m_entries (m_run_ops (gets gs) m))
  = a_lookup k (m_entries m).
Proof.
  induction gs as [|g gs IH] using rev_ind; [done|].
  rewrite gets_snoc, m_run_ops_snoc. simpl. by rewrite m_get_lookup.
Qed.

Lemma m_run_ops_app os1 os2 m :
  m_run_ops (os1 ++ os2) m = m_run_ops os2 (m_run_ops os1 m).
Proof. unfold m_run_ops. by rewrite fold_left_app. Qed.

Lemma a_lookup_cons_eq k v es : a_lookup k ((k, v) :: es) = Some v.
Proof. simpl. by rewrite decide_True. Qed.

Lemma a_lookup_cons_ne k k' v es :
  k' <> k -> a_lookup k ((k', v) :: es) = a_lookup k es.
Proof. intros H. simpl. by rewrite decide_False. Qed.

Lemma a_remove_cons_ne k k' v es :
  k' <> k -> a_remove k ((k', v) :: es) = (k', v) :: a_remove k es.
Proof. intros H. unfold a_remove. by rewrite filter_cons_True. Qed.

(** The scenario of the recency refresh, on the model. *)
Lemma m_refresh_scenario A B C va vb vc :
  A <> B -> A <> C -> B <> C ->
  let m1 := m_run_ops [OpPut A va; OpPut B vb] (m_new 2) in
  m_get A m1 = (mkModel 2 2 [(A, va); (B, vb)], true, va) /\
  m_put C vc (mkModel 2 2 [(A, va); (B, vb)])
  = mkModel 2 2 [(C, vc); (A, va)].
Proof.
  intros HAB HAC HBC m1.
  assert (m1 = mkModel 2 2 [(B, vb); (A, va)]) as ->.
  { apply (m_puts_fill 2 [(A, va); (B, vb)]); [|simpl; lia|done].
    simpl. apply NoDup_cons. split; [|apply NoDup_singleton].
    by intros ?%list_elem_of_singleton. }
  split.
  - unfold m_get. cbn [m_entries m_size m_capacity].
    rewrite a_lookup_cons_ne, a_lookup_cons_eq by done.
    by rewrite a_remove_cons_ne, a_remove_cons_eq by done.
  - unfold m_put. cbn [m_entries m_size m_capacity].
    rewrite !a_lookup_cons_ne by done. simpl a_lookup. cbv iota.
    change (GoInt.incr 2) with 3.
    rewrite bool_decide_eq_true_2 by lia.
    by change (GoInt.decr 3) with 2.
Qed.

Lemma keys_a_remove_filter k es :
  keys (a_remove k es) = filter (fun x => x <> k) (keys es).
Proof.
  induction es as [|[k' v'] es IH]; [done|].
  unfold a_remove. simpl. destruct (decide (k' = k)) as [->|Hne].
  - rewrite !filter_cons_False by (simpl; auto). apply IH.
  - rewrite !filter_cons_True by done. simpl. f_equal. apply IH.
Qed.

Lemma keys_removelast es : keys (removelast es) = removelast (keys es).
Proof.
  destruct es as [|e es _] using rev_ind; [done|].
  rewrite removelast_last, keys_app. cbn [keys map].
  by rewrite removelast_last.
Qed.

Lemma a_lookup_in k es : k ∈ keys es -> is_Some (a_lookup k es).
Proof.
  intros Hin. destruct (a_lookup k es) eqn:E; [by eexists|].
  apply elem_of_keys in Hin as (v & Hin).
  by apply (a_lookup_none_inv _ _ _ E) in Hin.
Qed.

(** What a call does to the recency order of the model. *)
Lemma m_get_order k m m' v :
  m_get k m = (m', true, v) ->
  keys (m_entries m')
  = k :: filter (fun x => x <> k) (keys (m_entries m)).
Proof.
  unfold m_get. destruct (a_lookup k (m_entries m)); [|done].
  intros [= <- <-]. simpl. f_equal. apply keys_a_remove_filter.
Qed.

Lemma m_put_order k v m :
  m_ok m -> m_capacity m < GoInt.max_int ->
  let ks := keys (m_entries m) in
  keys (m_entries (m_put k v m))
  = if bool_decide (k ∈ ks) then k :: filter (fun x => x <> k) ks
    else if bool_decide (Z.of_nat (length ks) + 1 > m_capacity m)
         then removelast (k :: ks)
         else k :: ks.
Proof.
  intros (Hnd & _ & Hsz) Hcap ks. destruct (Hsz Hcap) as [Hs Hle].
  unfold m_put. destruct (a_lookup k (m_entries m)) as [v'|] eqn:E.
  - rewrite (bool_decide_eq_true_2 (k ∈ ks)).
    + simpl. f_equal. apply keys_a_remove_filter.
    + apply elem_of_keys. exists v'. by apply a_lookup_in_keys.
  - rewrite (bool_decide_eq_false_2 (k ∈ ks)).
    2:{ intros Hin. apply a_lookup_in in Hin as [? ?]. congruence. }
    rewrite GoIntFacts.incr_small
      by (unfold GoInt.min_int, GoInt.max_int in *; lia).
    assert (Z.of_nat (length ks) = m_size m) as ->.
    { unfold ks, keys. by rewrite length_map. }
    case_bool_decide; cbn [m_entries]; [|done].
    by rewrite keys_removelast.
Qed.

(** C2: eviction removes the least recently used entry, and both a hit
    and a [Put] make an entry the most recently used.
    (LRU order) On a cache of capacity [N], after [N+1] calls of [Put]
    with distinct keys [k1..k(N+1)] and no [Get] between them, [Get(k1)]
    misses and [Get] of each of [k2..k(N+1)] hits with the value put, also
    after any number of such lookups [gs].
    (Recency refresh) On a cache of capacity 2, after [Put(A)], [Put(B)],
    [Get(A)] (a hit), [Put(C)] with distinct keys, [B] is gone, [A] and
    [C] are present, and the list reads [C, A].
    (In general) In any state reached from a fresh cache, with the keys
    [ks] in recency order: a hit on [k] and a [Put] of a present [k] move
    [k] to the front and keep the rest in order; a [Put] of an absent [k]
    puts [k] in front and, when that makes [Size()] exceed the capacity,
    drops the last key of the list and no other. *)
Theorem lru_eviction_order (N : nat) (kvs : list entry) (gs : list string)
    (A B C : string) (va vb vc : option ProxyItem) :
  NoDup (keys kvs) -> length kvs = S N ->
  Z.of_nat N < GoInt.max_int ->
  A <> B -> A <> C -> B <> C ->
  (exists c,
     run_ops (puts kvs ++ gets gs) (NewLRUCache (Z.of_nat N)) = Some c /\
     forall k1 v1 rest, kvs = (k1, v1) :: rest ->
       Get k1 c = Some (c, false, None) /\
       forall k v, (k, v) ∈ rest ->
         exists c', Get k c = Some (c', true, v)) /\
  (exists c1 c2 c3,
     run_ops [OpPut A va; OpPut B vb] (NewLRUCache 2) = Some c1 /\
     Get A c1 = Some (c2, true, va) /\
     Put C vc c2 = Some c3 /\
     Get B c3 = Some (c3, false, None) /\
     (exists c', Get A c3 = Some (c', true, va)) /\
     (exists c', Get C c3 = Some (c', true, vc)) /\
     recency_keys c3 = Some [C; A]) /\
  (forall cap os c k v,
     cap < GoInt.max_int ->
     run_ops os (NewLRUCache cap) = Some c ->
     exists ks c',
       recency_keys c = Some ks /\
       Put k v c = Some c' /\
       recency_keys c'
       = Some (if bool_decide (k ∈ ks)
               then k :: filter (fun x => x <> k) ks
               else if bool_decide (Z.of_nat (length ks) + 1 > cap)
                    then removelast (k :: ks)
                    else k :: ks) /\
       forall c'' v', Get k c = Some (c'', true, v') ->
         recency_keys c'' = Some (k :: filter (fun x => x <> k) ks)).
Proof.
  intros Hnd Hlen HN HAB HAC HBC. split; [|split].
  - destruct (run_ops_refines (puts kvs ++ gets gs) _ _
                (refines_new (Z.of_nat N))) as (c & E & Hr).
    exists c. split; [done|].
    intros k1 v1 rest ->.
    rewrite m_run_ops_app, (m_puts_overflow N) in Hr by done.
    cbn [tail] in Hr. simpl in Hnd. apply NoDup_cons in Hnd as [Hk1 Hnd].
    split.
    + apply (Get_miss _ _ _ Hr). rewrite m_gets_lookup. simpl.
      apply a_lookup_not_in. by rewrite keys_reverse, elem_of_reverse.
    + intros k v Hin. eapply Get_hit in Hr as (c' & E' & _).
      * by exists c'.
      * rewrite m_gets_lookup. simpl. apply a_lookup_elem.
        -- by rewrite keys_reverse, reverse_Permutation.
        -- by apply elem_of_reverse.
  - destruct (run_ops_refines [OpPut A va; OpPut B vb] _ _ (refines_new 2))
      as (c1 & E1 & Hr1).
    destruct (m_refresh_scenario A B C va vb vc HAB HAC HBC) as [Hg Hp].
    cbv zeta in Hg.
    destruct (Get_refines _ _ _ _ _ _ Hr1 Hg) as (c2 & E2 & Hr2).
    destruct (Put_refines C vc _ _ Hr2) as (c3 & E3 & Hr3).
    rewrite Hp in Hr3.
    exists c1, c2, c3. split; [done|]. split; [done|]. split; [done|].
    split.
    { apply (Get_miss _ _ _ Hr3). cbn [m_entries].
      rewrite !a_lookup_cons_ne by done. done. }
    split.
    { eapply Get_hit in Hr3 as (c' & E' & _); [by exists c'|].
      cbn [m_entries].
      by rewrite a_lookup_cons_ne, a_lookup_cons_eq by done. }
    split.
    { eapply Get_hit in Hr3 as (c' & E' & _); [by exists c'|].
      cbn [m_entries]. by rewrite a_lookup_cons_eq. }
    by destruct (recency_keys_refines _ _ Hr3) as [-> _].
  - intros cap os c k v Hcap E.
    destruct (reachable cap os) as (c0 & m & E0 & Hr & Hok & _ & Hc).
    assert (c0 = c) as -> by congruence.
    assert (Hmc : m_capacity m = cap).
    { destruct Hr as (_ & _ & _ & _ & ->). done. }
    destruct (Put_refines k v _ _ Hr) as (c' & E' & Hr').
    exists (keys (m_entries m)), c'.
    destruct (recency_keys_refines _ _ Hr) as [-> _].
    destruct (recency_keys_refines _ _ Hr') as [-> _].
    split; [done|]. split; [done|]. split.
    + f_equal. rewrite <- Hmc. apply m_put_order; [done|]. by rewrite Hmc.
    + intros c'' v' Eg.
      destruct (m_get k m) as [[m' found] v''] eqn:Em.
      destruct (Get_refines _ _ _ _ _ _ Hr Em) as (c2 & E2 & Hr2).
      assert (c2 = c'' /\ found = true) as [-> ->].
      { rewrite Eg in E2. by injection E2 as -> ->. }
      destruct (recency_keys_refines _ _ Hr2) as [-> _].
      f_equal. by eapply m_get_order.
Qed.

Lemma lru_eviction_order_witness :
  (exists c,
     run_ops (puts [("k1"%string, None); ("k2"%string, None);
                    ("k3"%string, None)] ++ gets ["k3"%string; "k1"%string])
       (NewLRUCache (Z.of_nat 2)) = Some c /\
     forall k1 v1 rest,
       [("k1"%string, None); ("k2"%string, None); ("k3"%string, None)]
       = (k1, v1) :: rest ->
       Get k1 c = Some (c, false, None) /\
       forall k v, (k, v) ∈ rest ->
         exists c', Get k c = Some (c', true, v)) /\
  (exists c1 c2 c3,
     run_ops [OpPut "A" None; OpPut "B" None] (NewLRUCache 2) = Some c1 /\
     Get "A" c1 = Some (c2, true, None) /\
     Put "C" None c2 = Some c3 /\
     Get "B" c3 = Some (c3, false, None) /\
     (exists c', Get "A" c3 = Some (c', true, None)) /\
     (exists c', Get "C" c3 = Some (c', true, None)) /\
     recency_keys c3 = Some ["C"%string; "A"%string]).
Proof.
  refine (let H := lru_eviction_order 2
           [("k1"%string, None); ("k2"%string, None); ("k3"%string, None)]
           ["k3"%string; "k1"%string] "A" "B" "C" None None None
           _ _ _ _ _ _ in conj (proj1 H) (proj1 (proj2 H))).
  - apply (bool_decide_unpack _). vm_compute. exact I.
  - reflexivity.
  - reflexivity.
  - discriminate.
  - discriminate.
  - discriminate.
Defined.

End CacheProperties.

(** ** The connection handler *)

Module ProxyProperties.
Import Cache CacheModel CacheRefinement CacheRuns Proxy.

Lemma append_assoc (s1 s2 s3 : string) :
  (s1 +:+ s2) +:+ s3 = s1 +:+ (s2 +:+ s3).
Proof.
  induction s1 as [|a s1 IH]; [done|].
  change (String a ((s1 +:+ s2) +:+ s3) = String a (s1 +:+ (s2 +:+ s3))).
  by f_equal.
Qed.

Lemma append_nil_r (s : string) : s +:+ "" = s.
Proof.
  induction s as [|a s IH]; [done|].
  change (String a (s +:+ "") = String a s). by f_equal.
Qed.

Lemma Join_concat vs sep : Join vs sep = String.concat sep vs.
Proof.
  induction vs as [|v vs IH]; [done|].
  destruct vs as [|v' vs]; [done|].
  change (Join (v :: v' :: vs) sep) with (v +:+ sep +:+ Join (v' :: vs) sep).
  by rewrite IH.
Qed.

Lemma write_headers_from b visit :
  fold_left (fun b kv => b +:+ header_line kv) visit b
  = b +:+ spec_header_block visit.
Proof.
  revert b. induction visit as [|kv visit IH]; intros b.
  - simpl. by rewrite append_nil_r.
  - simpl. rewrite IH. rewrite append_assoc. f_equal.
    unfold spec_header_block.
    change (map ?f (kv :: visit)) with (f kv :: map f visit).
    unfold header_line. rewrite Join_concat.
    destruct (map _ visit) as [|x xs] eqn:E.
    + cbn [String.concat]. by rewrite append_nil_r.
    + cbn [String.concat]. done.
Qed.

Lemma write_headers_spec visit :
  write_headers visit = spec_header_block visit.
Proof. unfold write_headers. by rewrite write_headers_from. Qed.

Lemma ranges_lookup h visit k vs :
  ranges h visit -> (k, vs) ∈ visit <-> h !! k = Some vs.
Proof.
  unfold ranges. intros ->. apply elem_of_map_to_list.
Qed.

Lemma ranges_NoDup h visit : ranges h visit -> NoDup (map fst visit).
Proof.
  unfold ranges. intros Hp.
  change (map fst visit) with (fst <$> visit). rewrite Hp.
  apply NoDup_fst_map_to_list.
Qed.

(** What [forwardRequest] writes to the origin once it has dialled and
    read the body: one request, rebuilt from the parsed request, with the
    path of the request URL for its target. *)
Lemma forward_writes_rebuilt_request (req : Request) (w : world)
    (body : string) :
  w_dial_ok w = true -> ReqBody req = Some body ->
  target_writes (forwardRequest req w).1
  = [spec_serialize (URL_Path req) req (w_req_visit w) body].
Proof.
  intros Hd Hb. unfold forwardRequest. rewrite Hd, Hb. simpl.
  assert (forall d ok a,
            target_writes [EvDial a true; EvTargetWrite d ok; EvTargetClose]
            = [d]) as Htw by done.
  destruct (w_target_write_ok w); cbn [negb fst]; rewrite Htw; f_equal;
    unfold spec_serialize, request_line; cbn [String.concat];
    rewrite write_headers_spec, !append_assoc; done.
Qed.

(** C4 fails on the code: [forwardRequest] forwards the request of the
    client, but builds its request line from [req.URL.Path], the decoded
    path of the request target, and not from the target as it came in.
    The request [GET /foo?x=1 HTTP/1.1] goes out as [GET /foo HTTP/1.1],
    without its query string, and [GET /a%20b?q=1 HTTP/1.1] goes out as
    [GET /a b HTTP/1.1], which is no request line.  In both cases what is
    written differs from the inbound request serialized as the claim
    says; the [Host] header, the other headers, the blank line and the
    body go out as the claim says. *)
Theorem forwarded_request_not_verbatim :
  (target_writes (forwardRequest sample_request sample_world).1
   = ["GET /foo HTTP/1.1" +:+ CRLF +:+
      "Host: example.test" +:+ CRLF +:+
      "Accept: text/html, text/plain" +:+ CRLF +:+
      CRLF +:+ "hello"] /\
   target_writes (forwardRequest sample_request sample_world).1
   <> [spec_serialize (RequestURI sample_request) sample_request
         (w_req_visit sample_world) "hello"]) /\
  (target_writes
     (forwardRequest ProxyObs.encoded_path_request sample_world).1
   = ["GET /a b HTTP/1.1" +:+ CRLF +:+
      "Host: example.test" +:+ CRLF +:+
      "Accept: text/html, text/plain" +:+ CRLF +:+
      CRLF +:+ "hello"] /\
   target_writes
     (forwardRequest ProxyObs.encoded_path_request sample_world).1
   <> [spec_serialize (RequestURI ProxyObs.encoded_path_request)
         ProxyObs.encoded_path_request (w_req_visit sample_world) "hello"]).
Proof.
  split; (split; [by vm_compute|]); vm_compute; congruence.
Qed.

(** *** The handler and the cache *)

Lemma forward_events_private req w :
  client_writes (forwardRequest req w).1 = [] /\
  cache_puts (forwardRequest req w).1 = [].
Proof.
  unfold forwardRequest.
  destruct (w_dial_ok w); [|done]. simpl.
  destruct (ReqBody req); [|done].
  by destruct (w_target_write_ok w).
Qed.

(** Forwarding fails when the dial fails, when the request body cannot be
    read, when the write to the origin fails, or when no response can be
    parsed, and only then. *)
Lemma forward_fails req w :
  (forwardRequest req w).2 = None <->
  w_dial_ok w = false \/ ReqBody req = None
  \/ w_target_write_ok w = false \/ w_response w = None.
Proof.
  unfold forwardRequest.
  destruct (w_dial_ok w), (ReqBody req), (w_target_write_ok w); simpl;
    intuition congruence.
Qed.

Lemma prepare_events_private resp w :
  client_writes (prepareResponse resp w).1 = [] /\
  cache_puts (prepareResponse resp w).1 = [].
Proof. unfold prepareResponse. by destruct (RespBody resp). Qed.

Lemma getCachedResponse_spec k s m s1 cached :
  refines s m -> getCachedResponse k s = Some (s1, cached) ->
  (exists m1, refines s1 m1) /\
  index_keys s1 = index_keys s /\
  (k ∉ index_keys s -> s1 = s).
Proof.
  intros Hr. unfold getCachedResponse.
  destruct (Get k s) as [[[s' found] item]|] eqn:E; [|done].
  intros [= <- <-].
  destruct (m_get k m) as [[m' found'] v'] eqn:Em.
  destruct (Get_refines _ _ _ _ _ _ Hr Em) as (c' & E' & Hr').
  assert (c' = s') as -> by congruence.
  split; [by exists m'|]. split.
  - unfold index_keys. by rewrite (Get_items _ _ _ _ _ _ Hr E).
  - intros Hk. unfold Get in E.
    destruct (c_items s !! k) eqn:Ek; [|by injection E as <- _ _].
    exfalso. apply Hk. unfold index_keys. apply elem_of_dom. by eexists.
Qed.

Lemma sendErrorResponse_writes w :
  client_writes (sendErrorResponse w) = [badGatewayResponse] /\
  cache_puts (sendErrorResponse w) = [].
Proof. unfold sendErrorResponse. by destruct (w_client_write_ok w). Qed.

(** C3: when, on a miss, forwarding fails, the handler writes to the
    client the fixed 502 response and nothing else, puts nothing into the
    cache and leaves the index with the keys it had: no entry appears for
    the computed key.  The response is the fixed text with
    [Content-Length: 57], and 57 is the length of the fixed body. *)
Theorem forwarding_failure_502 (cap : Z) (os : list op) (s s1 : LRUCache)
    (w : world) (request : Request) :
  run_ops os (NewLRUCache cap) = Some s ->
  w_request w = Some request ->
  getCachedResponse (generateCacheKey request) s = Some (s1, None) ->
  (forwardRequest request w).2 = None ->
  exists evs,
    handleConnection s w = Some (s1, evs) /\
    client_writes evs = [badGatewayResponse] /\
    cache_puts evs = [] /\
    index_keys s1 = index_keys s /\
    (generateCacheKey request ∉ index_keys s -> s1 = s) /\
    badGatewayResponse
    = "HTTP/1.1 502 Bad Gateway" +:+ CRLF +:+
      "Content-Type: text/plain" +:+ CRLF +:+
      "Content-Length: 57" +:+ CRLF +:+
      "Connection: close" +:+ CRLF +:+
      CRLF +:+
      "The target server is unavailable. Please try again later." /\
    String.length badGatewayBody = 57%nat.
Proof.
  intros Hs Hreq Hmiss Hfwd.
  destruct (reachable_refines _ _ _ Hs) as (m & Hr & _).
  destruct (getCachedResponse_spec _ _ _ _ _ Hr Hmiss) as (_ & Hkeys & Hsame).
  unfold handleConnection. rewrite Hreq, Hmiss. simpl.
  destruct (forwardRequest request w) as [fwd r] eqn:Ef.
  simpl in Hfwd. subst r.
  eexists. split; [done|].
  pose proof (forward_events_private request w) as [Hc Hp].
  rewrite Ef in Hc, Hp. simpl in Hc, Hp.
  destruct (sendErrorResponse_writes w) as [Hc' Hp'].
  unfold client_writes, cache_puts in *.
  split; [by rewrite omap_app, Hc; simpl; rewrite omap_app, Hc'|].
  split; [by rewrite omap_app, Hp; simpl; rewrite omap_app, Hp'|].
  split; [done|]. split; [done|].
  split; reflexivity.
Qed.

Lemma forwarding_failure_502_witness :
  exists evs,
    handleConnection (NewLRUCache 1) refused_world
    = Some (NewLRUCache 1, evs) /\
    client_writes evs = [badGatewayResponse] /\
    cache_puts evs = [] /\
    index_keys (NewLRUCache 1) = index_keys (NewLRUCache 1) /\
    (generateCacheKey sample_request ∉ index_keys (NewLRUCache 1) ->
     NewLRUCache 1 = NewLRUCache 1) /\
    badGatewayResponse
    = "HTTP/1.1 502 Bad Gateway" +:+ CRLF +:+
      "Content-Type: text/plain" +:+ CRLF +:+
      "Content-Length: 57" +:+ CRLF +:+
      "Connection: close" +:+ CRLF +:+
      CRLF +:+
      "The target server is unavailable. Please try again later." /\
    String.length badGatewayBody = 57%nat.
Proof.
  apply (forwarding_failure_502 1 [] (NewLRUCache 1) (NewLRUCache 1)
           refused_world sample_request); reflexivity.
Defined.

(** C10: on a miss with forwarding successful, if the write of the
    assembled response to the client fails, the handler ends with the
    cache as the lookup left it and without any [Put]; if the write
    succeeds, the one [Put], of the computed key and of the response just
    sent, comes right after that write. *)
Theorem store_only_after_client_write (cap : Z) (os : list op)
    (s s1 : LRUCache) (w : world) (request : Request) (response : Response)
    (statusLine headers body : string) :
  run_ops os (NewLRUCache cap) = Some s ->
  w_request w = Some request ->
  getCachedResponse (generateCacheKey request) s = Some (s1, None) ->
  (forwardRequest request w).2 = Some response ->
  (prepareResponse response w).2 = (statusLine, headers, body) ->
  let key := generateCacheKey request in
  let item := mkItem statusLine headers body in
  let data := statusLine +:+ headers +:+ CRLF +:+ body in
  exists pre,
    client_writes pre = [] /\ cache_puts pre = [] /\
    (w_client_write_ok w = false ->
     handleConnection s w
     = Some (s1, pre ++ [EvClientWrite data false;
                         EvLogError "Failed to send response";
                         EvClientClose])) /\
    (w_client_write_ok w = true ->
     exists s2,
       Put key (Some item) s1 = Some s2 /\
       handleConnection s w
       = Some (s2, pre ++ [EvClientWrite data true; EvCachePut key item;
                           EvClientClose])).
Proof.
  intros Hs Hreq Hmiss Hfwd Hprep key item data. subst key item data.
  destruct (reachable_refines _ _ _ Hs) as (m & Hr & _).
  destruct (getCachedResponse_spec _ _ _ _ _ Hr Hmiss) as ((m1 & Hr1) & _).
  destruct (forwardRequest request w) as [fwd r] eqn:Ef.
  simpl in Hfwd. subst r.
  destruct (prepareResponse response w) as [prep t] eqn:Ep.
  simpl in Hprep. subst t.
  exists (fwd ++ prep).
  pose proof (forward_events_private request w) as [Hc Hp].
  rewrite Ef in Hc, Hp. simpl in Hc, Hp.
  pose proof (prepare_events_private response w) as [Hc' Hp'].
  rewrite Ep in Hc', Hp'. simpl in Hc', Hp'.
  split; [by unfold client_writes in *; rewrite omap_app, Hc, Hc'|].
  split; [by unfold cache_puts in *; rewrite omap_app, Hp, Hp'|].
  split.
  - intros Hw. unfold handleConnection.
    rewrite Hreq, Hmiss. simpl. rewrite Ef, Ep, Hw. simpl.
    by rewrite <- app_assoc.
  - intros Hw.
    destruct (Put_refines (generateCacheKey request)
                (Some (mkItem statusLine headers body)) _ _ Hr1)
      as (s2 & E2 & _).
    exists s2. split; [done|]. unfold handleConnection.
    rewrite Hreq, Hmiss. simpl. rewrite Ef, Ep, Hw. simpl.
    unfold cacheResponse. rewrite E2. simpl.
    by rewrite <- app_assoc.
Qed.

Lemma store_only_after_client_write_witness :
  exists pre,
    client_writes pre = [] /\ cache_puts pre = [] /\
    (w_client_write_ok client_gone_world = false ->
     handleConnection (NewLRUCache 1) client_gone_world
     = Some (NewLRUCache 1,
             pre ++ [EvClientWrite
                       (("HTTP/1.1 200 OK" +:+ CRLF) +:+ "" +:+ CRLF +:+ "hi")
                       false;
                     EvLogError "Failed to send response";
                     EvClientClose])) /\
    (w_client_write_ok client_gone_world = true ->
     exists s2,
       Put (generateCacheKey sample_request)
         (Some (mkItem ("HTTP/1.1 200 OK" +:+ CRLF) "" "hi"))
         (NewLRUCache 1) = Some s2 /\
       handleConnection (NewLRUCache 1) client_gone_world
       = Some (s2,
               pre ++ [EvClientWrite
                         (("HTTP/1.1 200 OK" +:+ CRLF) +:+ "" +:+ CRLF +:+ "hi")
                         true;
                       EvCachePut (generateCacheKey sample_request)
                         (mkItem ("HTTP/1.1 200 OK" +:+ CRLF) "" "hi");
                       EvClientClose])).
Proof.
  apply (store_only_after_client_write 1 [] (NewLRUCache 1) (NewLRUCache 1)
           client_gone_world sample_request sample_response
           ("HTTP/1.1 200 OK" +:+ CRLF) "" "hi"); reflexivity.
Defined.

(** *** The cache key *)

(** Requests that agree on host, path and method have the same key,
    whatever their headers, query strings and bodies. *)
Lemma cache_key_same_tuple r1 r2 :
  Host r1 = Host r2 -> URL_Path r1 = URL_Path r2 -> Method r1 = Method r2 ->
  generateCacheKey r1 = generateCacheKey r2.
Proof. unfold generateCacheKey. by intros -> -> ->. Qed.

Lemma append_cons a (s t : string) : String a s +:+ t = String a (s +:+ t).
Proof. done. Qed.

Lemma Contains_cons a s sub :
  Contains (String a s) sub
  = if String.prefix sub (String a s) then true else Contains s sub.
Proof. done. Qed.

Lemma Contains_colon_mid (x m : string) :
  Contains (x +:+ ":" +:+ m) ":" = true.
Proof.
  induction x as [|a x IH].
  - change ("" +:+ ":" +:+ m) with (String ":"%char m).
    rewrite Contains_cons. simpl. by destruct m.
  - rewrite append_cons, Contains_cons, IH. by destruct (String.prefix _ _).
Qed.

(** A method holds no colon, so the last colon of a key is the one before
    the method: requests that differ in method have different keys. *)
Lemma key_suffix_inj (x1 x2 m1 m2 : string) :
  Contains m1 ":" = false -> Contains m2 ":" = false ->
  x1 +:+ ":" +:+ m1 = x2 +:+ ":" +:+ m2 -> x1 = x2 /\ m1 = m2.
Proof.
  intros H1 H2. revert x2. induction x1 as [|a x1 IH]; intros [|b x2] E.
  - split; [done|]. by injection E.
  - exfalso. change ("" +:+ ":" +:+ m1) with (String ":"%char m1) in E.
    rewrite append_cons in E. injection E as _ ->.
    by rewrite Contains_colon_mid in H1.
  - exfalso. change ("" +:+ ":" +:+ m2) with (String ":"%char m2) in E.
    rewrite append_cons in E. injection E as _ <-.
    by rewrite Contains_colon_mid in H2.
  - rewrite !append_cons in E. injection E as -> E.
    destruct (IH _ E) as [-> ->]. done.
Qed.

Lemma cache_key_method r1 r2 :
  Contains (Method r1) ":" = false -> Contains (Method r2) ":" = false ->
  Method r1 <> Method r2 -> generateCacheKey r1 <> generateCacheKey r2.
Proof.
  intros H1 H2 Hne E. unfold generateCacheKey in E.
  rewrite <- !(append_assoc (Host _) ":"), <- !append_assoc in E.
  rewrite !(append_assoc _ ":" (Method _)) in E.
  by apply key_suffix_inj in E as [_ ?].
Qed.

(** On one host, with the same method, different paths give different
    keys. *)
Lemma cache_key_path_same_host r1 r2 :
  Host r1 = Host r2 ->
  Contains (Method r1) ":" = false -> Contains (Method r2) ":" = false ->
  URL_Path r1 <> URL_Path r2 -> generateCacheKey r1 <> generateCacheKey r2.
Proof.
  intros Hh H1 H2 Hne E. unfold generateCacheKey in E. rewrite Hh in E.
  do 2 apply String.app_inj in E.
  by apply key_suffix_inj in E as [? _].
Qed.

(** C5 fails on the code: the key is the plain concatenation
    [host:path:method], so a colon inside the host or the path moves the
    boundary between them.  The request for path [/a:/b] on host [h] and
    the request for path [/b] on host [h:/a] differ in path and have the
    same key. *)
Theorem cache_key_collision :
  URL_Path colon_path_request <> URL_Path colon_host_request /\
  Method colon_path_request = Method colon_host_request /\
  generateCacheKey colon_path_request = "h:/a:/b:GET"%string /\
  generateCacheKey colon_host_request = "h:/a:/b:GET"%string.
Proof. repeat split; done. Qed.

End ProxyProperties.

(** ** The admission gate *)

Module AdmissionProperties.
Import Admission.

Lemma active_nil ch : active (mkSystem ch []) = 0%nat.
Proof. done. Qed.

Lemma count_cons h hs :
  length (filter (fun h => admitted h = true) (h :: hs))
  = (weight h + length (filter (fun h => admitted h = true) hs))%nat.
Proof.
  unfold weight. destruct (admitted h) eqn:E.
  - by rewrite filter_cons_True.
  - rewrite filter_cons_False; [done|]. by rewrite E.
Qed.

Lemma count_app hs1 hs2 :
  length (filter (fun h => admitted h = true) (hs1 ++ hs2))
  = (length (filter (fun h => admitted h = true) hs1)
     + length (filter (fun h => admitted h = true) hs2))%nat.
Proof. by rewrite filter_app, length_app. Qed.

(** Replacing one handler changes the count by the difference of the
    weights. *)
Lemma count_insert hs i h h' :
  hs !! i = Some h ->
  (length (filter (fun h => admitted h = true) (<[i := h']> hs)) + weight h
   = length (filter (fun h => admitted h = true) hs) + weight h')%nat.
Proof.
  revert i. induction hs as [|h0 hs IH]; intros i Hi; [done|].
  destruct i as [|i]; simpl in Hi.
  - injection Hi as ->. simpl. rewrite !count_cons. lia.
  - simpl. rewrite !count_cons. specialize (IH i Hi). lia.
Qed.

Lemma count_pos hs i h :
  hs !! i = Some h -> admitted h = true ->
  (0 < length (filter (fun h => admitted h = true) hs))%nat.
Proof.
  intros Hi Ha.
  assert (h ∈ filter (fun h => admitted h = true) hs) as Hin.
  { apply list_elem_of_filter. split; [done|].
    by eapply list_elem_of_lookup_2. }
  destruct (filter _ hs); [by apply elem_of_nil in Hin|simpl; lia].
Qed.

Lemma handler_ok_lookup hs i h :
  Forall handler_ok hs -> hs !! i = Some h -> handler_ok h.
Proof. intros HF Hi. by eapply Forall_lookup_1. Qed.

Lemma system_ok_initial cfg srv :
  NewProxyServer cfg = Some srv ->
  system_ok (Z.to_nat (MaxClients cfg)) (initial srv) /\
  0 <= MaxClients cfg.
Proof.
  unfold NewProxyServer, make_chan. case_bool_decide as Hneg; [done|].
  simpl. intros [= <-]. split; [|lia].
  repeat split; simpl; [lia|apply Forall_nil_2].
Qed.

(** A handler step that touches neither the channel nor whether the
    handler holds a token. *)
Lemma system_ok_move cap ch hs i h h' :
  system_ok cap (mkSystem ch hs) ->
  hs !! i = Some h -> weight h' = weight h -> handler_ok h' ->
  system_ok cap (mkSystem ch (<[i := h']> hs)).
Proof.
  intros (Hcap & Hlen & Hle & HF) Hi Hw Hok. simpl in *.
  split; [done|]. split; [|split; [done|by apply Forall_insert]].
  unfold active in *. simpl in *.
  pose proof (count_insert hs i h h' Hi). lia.
Qed.

Lemma step_preserves cap st st' :
  system_ok cap st -> step st st' -> system_ok cap st'.
Proof.
  intros Hok Hstep.
  destruct Hstep as
    [ ch hs
    | ch hs i a r Hi Hroom
    | ch hs i j a r p ds a' r' Hzero Hij Hi Hj
    | ch hs i ds d a r Hi Hnext
    | ch hs i ds a r Hi Hpanic
    | ch hs i a r Hi
    | ch hs i p ds a r Hi
    | ch hs i p ds a r Hi
    | ch hs i p ds a r Hi
    | ch hs i p ds a r n Hi Hn
    | ch hs i a r Hi
    | ch hs i a r Hi ];
    pose proof Hok as (Hcap & Hlen & Hle & HF); simpl in Hcap, Hlen, Hle, HF;
    try (pose proof (handler_ok_lookup _ _ _ HF Hi) as Hh;
         unfold handler_ok in Hh; simpl in Hh);
    unfold all_deferred in *.
  - (* spawn *)
    split; [done|]. split; [|split; [done|]].
    + unfold active in *. simpl in *. rewrite count_app, Hlen. simpl. lia.
    + apply Forall_app. split; [done|]. by apply Forall_singleton.
  - (* send *)
    destruct Hh as [-> ->].
    split; [done|]. split; [|split; [simpl; lia|]].
    + unfold active in *. simpl in *.
      pose proof (count_insert hs i _ (mkHandler (Running []) 1 0) Hi) as Hc.
      unfold weight in Hc. simpl in Hc. lia.
    + apply Forall_insert; [done|]. unfold handler_ok. simpl. auto.
  - (* rendezvous: nobody holds a token of an unbuffered semaphore *)
    exfalso.
    assert (admitted (mkHandler (Unwinding p (DRelease :: ds)) a' r') = true)
      as Hadm.
    { simpl. apply bool_decide_eq_true_2. left. }
    pose proof (count_pos _ _ _ Hj Hadm). unfold active in *. simpl in *.
    lia.
  - (* defer *)
    destruct Hh as (-> & -> & Hds).
    eapply system_ok_move; [done|exact Hi|done|].
    unfold handler_ok. simpl. split; [done|]. split; [done|].
    destruct Hds as [->|[->|[->| ->]]]; simpl in Hnext; simplify_eq; auto.
  - (* panic *)
    destruct Hh as (-> & -> & Hds).
    unfold may_panic in Hpanic. apply bool_decide_eq_true_1 in Hpanic.
    assert (ds = [DRecover; DRelease] \/ ds = all_deferred) as Hds'.
    { destruct Hds as [->|[->|[->| ->]]]; auto.
      - by apply elem_of_nil in Hpanic.
      - by apply list_elem_of_singleton in Hpanic. }
    eapply system_ok_move; [done|exact Hi| |].
    + unfold weight. simpl. by destruct Hds' as [->| ->].
    + unfold handler_ok. simpl. split; [done|]. left. split; [|done].
      destruct Hds' as [->| ->]; auto.
  - (* return *)
    destruct Hh as (-> & -> & _).
    eapply system_ok_move; [done|exact Hi|done|].
    unfold handler_ok. simpl. auto.
  - (* the deferred Close *)
    destruct Hh as (-> & Hds).
    assert (ds = [DRecover; DRelease] /\ r = 0%nat) as [-> ->].
    { destruct Hds as [[[Hd|Hd] ?]|[(Hd & _)|(Hd & _)]]; by simplify_eq. }
    eapply system_ok_move; [done|exact Hi|done|].
    unfold handler_ok. simpl. auto.
  - (* the deferred Close, panicking *)
    destruct Hh as (-> & Hds).
    assert (ds = [DRecover; DRelease] /\ r = 0%nat) as [-> ->].
    { destruct Hds as [[[Hd|Hd] ?]|[(Hd & _)|(Hd & _)]]; by simplify_eq. }
    eapply system_ok_move; [done|exact Hi|done|].
    unfold handler_ok. simpl. auto.
  - (* the deferred recover *)
    destruct Hh as (-> & Hds).
    assert (ds = [DRelease] /\ r = 0%nat) as [-> ->].
    { destruct Hds as [[[Hd|Hd] ?]|[(Hd & _)|(Hd & _)]]; by simplify_eq. }
    eapply system_ok_move; [done|exact Hi|done|].
    unfold handler_ok. simpl. auto 10.
  - (* the deferred receive *)
    destruct Hh as (-> & Hds).
    assert (ds = [] /\ p = false /\ r = 0%nat) as (-> & -> & ->).
    { destruct Hds as [[[Hd|Hd] ?]|[(Hd & ? & ?)|(Hd & _)]];
        by simplify_eq. }
    split; [done|]. split; [|split; [simpl; lia|]].
    + unfold active in *. simpl in *.
      pose proof (count_insert hs i _ (mkHandler (Unwinding false []) 1 1) Hi)
        as Hc.
      unfold weight in Hc. simpl in Hc. lia.
    + apply Forall_insert; [done|]. unfold handler_ok. simpl. auto 10.
  - (* the goroutine ends *)
    destruct Hh as (-> & Hds).
    assert (r = 1%nat) as ->.
    { destruct Hds as [[[Hd|Hd] ?]|[(Hd & ? & ?)|(_ & _ & ?)]];
        by simplify_eq. }
    eapply system_ok_move; [done|exact Hi|done|].
    unfold handler_ok. simpl. auto.
  - (* a panic nobody recovered: excluded *)
    exfalso. destruct Hh as (_ & Hds).
    destruct Hds as [[[Hd|Hd] ?]|[(Hd & ? & ?)|(_ & ? & _)]]; simplify_eq.
Qed.

Lemma reaches_preserves cap st st' :
  system_ok cap st -> reaches st st' -> system_ok cap st'.
Proof.
  intros Hok Hr. induction Hr; [done|].
  eapply step_preserves; [|done]. auto.
Qed.

Lemma reaches_trans st1 st2 st3 :
  reaches st1 st2 -> reaches st2 st3 -> reaches st1 st3.
Proof.
  intros H12 H23. induction H23; [done|].
  eapply reaches_step; [|done]. auto.
Qed.

Lemma reaches_first st1 st2 st3 :
  step st1 st2 -> reaches st2 st3 -> reaches st1 st3.
Proof.
  intros H12 H23. eapply reaches_trans; [|done].
  eapply reaches_step; [apply reaches_refl|done].
Qed.

Lemma lookup_insert_here (hs : list handler) i h h' :
  hs !! i = Some h -> <[i := h']> hs !! i = Some h'.
Proof.
  intros Hi. apply list_lookup_insert_eq. by eapply lookup_lt_Some.
Qed.

(** *** Every admitted handler can run to its end *)

Lemma finish_from_unwinding cap st i p ds a r :
  system_ok cap st ->
  handlers st !! i = Some (mkHandler (Unwinding p ds) a r) ->
  exists st', reaches st st' /\
              handlers st' !! i = Some (mkHandler Finished 1 1).
Proof.
  revert st p r. induction ds as [|d ds IH]; intros [ch hs] p r Hok Hi;
    simpl in Hi;
    pose proof Hok as (_ & Hlen & _ & HF); simpl in Hlen, HF;
    pose proof (handler_ok_lookup _ _ _ HF Hi) as Hh;
    unfold handler_ok, all_deferred in Hh; simpl in Hh;
    destruct Hh as (-> & Hds).
  - assert (p = false /\ r = 1%nat) as [-> ->].
    { destruct Hds as [[[Hd|Hd] ?]|[(Hd & ? & ?)|(_ & ? & ?)]];
        by simplify_eq. }
    eexists. split.
    + eapply reaches_first; [by apply step_finish|apply reaches_refl].
    + simpl. by eapply lookup_insert_here.
  - assert (exists st1 p1 r1,
              step (mkSystem ch hs) st1 /\
              handlers st1 !! i = Some (mkHandler (Unwinding p1 ds) 1 r1))
      as (st1 & p1 & r1 & Hstep & Hi1).
    { destruct d.
      - assert (0 < ch_len ch)%nat as Hpos.
        { rewrite Hlen. unfold active. simpl.
          eapply count_pos; [exact Hi|].
          simpl. apply bool_decide_eq_true_2. left. }
        destruct (ch_len ch) as [|n] eqn:En; [lia|].
        eexists _, p, (S r). split.
        + by eapply (step_run_release ch hs i p ds 1 r n).
        + simpl. by eapply lookup_insert_here.
      - eexists _, false, r. split.
        + by eapply step_run_recover.
        + simpl. by eapply lookup_insert_here.
      - eexists _, p, r. split.
        + by eapply step_run_close.
        + simpl. by eapply lookup_insert_here. }
    pose proof (step_preserves _ _ _ Hok Hstep) as Hok1.
    destruct (IH st1 p1 r1 Hok1 Hi1) as (st' & Hr & Hfin).
    exists st'. split; [|done]. by eapply reaches_first.
Qed.

Lemma finish_from_running cap st i ds a r :
  system_ok cap st ->
  handlers st !! i = Some (mkHandler (Running ds) a r) ->
  exists st', reaches st st' /\
              handlers st' !! i = Some (mkHandler Finished 1 1).
Proof.
  intros Hok Hi.
  assert (Hret : forall st0 a0 r0,
    system_ok cap st0 ->
    handlers st0 !! i = Some (mkHandler (Running all_deferred) a0 r0) ->
    exists st', reaches st0 st' /\
                handlers st' !! i = Some (mkHandler Finished 1 1)).
  { intros [ch hs] a0 r0 Hok0 Hi0. simpl in Hi0.
    pose proof (step_return ch hs i a0 r0 Hi0) as Hstep.
    pose proof (step_preserves _ _ _ Hok0 Hstep) as Hok1.
    destruct (finish_from_unwinding cap _ i false all_deferred a0 r0 Hok1)
      as (st' & Hr & Hfin).
    { simpl. by eapply lookup_insert_here. }
    exists st'. split; [|done]. by eapply reaches_first. }
  assert (Hdefer : forall ds0 d,
    next_defer ds0 = Some d ->
    (forall st0 a0 r0,
       system_ok cap st0 ->
       handlers st0 !! i = Some (mkHandler (Running (d :: ds0)) a0 r0) ->
       exists st', reaches st0 st' /\
                   handlers st' !! i = Some (mkHandler Finished 1 1)) ->
    forall st0 a0 r0,
      system_ok cap st0 ->
      handlers st0 !! i = Some (mkHandler (Running ds0) a0 r0) ->
      exists st', reaches st0 st' /\
                  handlers st' !! i = Some (mkHandler Finished 1 1)).
  { intros ds0 d Hn Hnext [ch hs] a0 r0 Hok0 Hi0. simpl in Hi0.
    pose proof (step_defer ch hs i ds0 d a0 r0 Hi0 Hn) as Hstep.
    pose proof (step_preserves _ _ _ Hok0 Hstep) as Hok1.
    destruct (Hnext _ a0 r0 Hok1) as (st' & Hr & Hfin).
    { simpl. by eapply lookup_insert_here. }
    exists st'. split; [|done]. by eapply reaches_first. }
  pose proof Hok as (_ & _ & _ & HF).
  pose proof (handler_ok_lookup _ _ _ HF Hi) as Hh.
  unfold handler_ok in Hh. simpl in Hh. destruct Hh as (_ & _ & Hds).
  pose proof (Hdefer [DRecover; DRelease] DClose eq_refl Hret) as H2.
  pose proof (Hdefer [DRelease] DRecover eq_refl H2) as H1.
  pose proof (Hdefer [] DRelease eq_refl H1) as H0.
  destruct Hds as [->|[->|[->| ->]]]; eauto.
Qed.

(** C8: with [maxClients = M], in every state the server can reach, at
    most [M] handlers are past the admission step, and the semaphore holds
    one token for each of them.  A handler sends on the semaphore at most
    once and receives from it only after that, at most once; it is past
    admission exactly while it has sent and not received; once it has
    ended it has done both exactly once; no panic escapes it; its deferred
    receive never has to wait; and from wherever it stands after
    admission, whether it returns or panics, it can run to its end, where
    it has released its token. *)
Theorem admission_bound (cfg : Config) (srv : ProxyServer) (st : system) :
  NewProxyServer cfg = Some srv ->
  reaches (initial srv) st ->
  Z.of_nat (active st) <= MaxClients cfg /\
  ch_len (sem st) = active st /\
  forall i h, handlers st !! i = Some h ->
    (h_acquired h <= 1)%nat /\
    (h_released h <= h_acquired h)%nat /\
    (admitted h = true <-> h_acquired h = 1%nat /\ h_released h = 0%nat) /\
    (h_pc h = Finished -> h_acquired h = 1%nat /\ h_released h = 1%nat) /\
    h_pc h <> Crashed /\
    can_release st h /\
    (admitted h = true ->
     exists st', reaches st st' /\
                 handlers st' !! i = Some (mkHandler Finished 1 1)).
Proof.
  intros Hnew Hreach.
  destruct (system_ok_initial _ _ Hnew) as [Hok0 Hpos].
  pose proof (reaches_preserves _ _ _ Hok0 Hreach) as Hok.
  pose proof Hok as (Hcap & Hlen & Hle & HF).
  split; [lia|]. split; [done|].
  intros i h Hi.
  pose proof (handler_ok_lookup _ _ _ HF Hi) as Hh.
  destruct h as [pc0 a r]. unfold handler_ok in Hh. simpl in Hh.
  unfold can_release, admitted. simpl.
  destruct pc0 as [|ds|p ds| |]; unfold all_deferred in *.
  - destruct Hh as [-> ->].
    split; [lia|]. split; [lia|]. split; [by split; [|intros [? _]]|].
    by repeat (split; [done|]).
  - destruct Hh as (-> & -> & _).
    split; [lia|]. split; [lia|]. split; [done|].
    do 3 (split; [done|]).
    intros _. by eapply finish_from_running.
  - destruct Hh as (-> & Hds).
    assert (Hfin : exists st', reaches st st' /\
              handlers st' !! i = Some (mkHandler Finished 1 1))
      by (by eapply finish_from_unwinding).
    assert (Hcan : match ds with
                   | DRelease :: _ => (0 < ch_len (sem st))%nat
                   | _ => True
                   end).
    { destruct ds as [|[] ds']; try done. rewrite Hlen. unfold active.
      eapply count_pos; [exact Hi|].
      simpl. apply bool_decide_eq_true_2. left. }
    destruct Hds as [[[-> | ->] ->]|[(-> & -> & ->)|(-> & -> & ->)]];
      (split; [lia|]); (split; [lia|]);
      (split;
       [|split; [done|split; [done|split; [exact Hcan|by intros _]]]]);
      vm_compute; (split; [done|]); first [done | by intros [_ ?]].
  - destruct Hh as [-> ->].
    split; [lia|]. split; [lia|]. split; [by split; [|intros [_ ?]]|].
    by repeat (split; [done|]).
  - done.
Qed.

Lemma admission_bound_witness :
  Z.of_nat (active one_admitted) <= MaxClients default_config /\
  ch_len (sem one_admitted) = active one_admitted /\
  forall i h, handlers one_admitted !! i = Some h ->
    (h_acquired h <= 1)%nat /\
    (h_released h <= h_acquired h)%nat /\
    (admitted h = true <-> h_acquired h = 1%nat /\ h_released h = 0%nat) /\
    (h_pc h = Finished -> h_acquired h = 1%nat /\ h_released h = 1%nat) /\
    h_pc h <> Crashed /\
    can_release one_admitted h /\
    (admitted h = true ->
     exists st', reaches one_admitted st' /\
                 handlers st' !! i = Some (mkHandler Finished 1 1)).
Proof.
  apply (admission_bound default_config default_server one_admitted).
  - reflexivity.
  - eapply reaches_step.
    + eapply reaches_step; [apply reaches_refl|apply step_spawn].
    + apply (step_send (mkChan 100 0) [mkHandler AtSend 0 0] 0 0 0).
      * reflexivity.
      * simpl. lia.
Defined.

End AdmissionProperties.

(** ** The accept loop *)

Module AcceptorProperties.
Import Acceptor.

Lemma accept_loop_spec results st :
  accept_loop results st
  = (if existsb is_closed results then Returned None else Accepting,
     mkLoop (logged st ++ errors_of (before_close results))
            (dispatched st ++ conns_of (before_close results))).
Proof.
  revert st. induction results as [|a results IH]; intros [lg ds].
  - simpl. by rewrite !app_nil_r.
  - destruct a as [c|err]; simpl.
    + rewrite IH. simpl. by rewrite <- app_assoc.
    + destruct (errors_Is err ErrClosed) eqn:E; simpl.
      * by rewrite !app_nil_r.
      * rewrite IH. simpl. by rewrite <- app_assoc.
Qed.

(** C9: [Start] returns [nil] exactly when some call of [Accept] fails
    with an error that is [net.ErrClosed], and it returns at the first
    such call; it never returns another error from the loop.  Every
    other error of [Accept] is logged and the loop goes on: up to the
    closing of the listener every failed call is in the log and every
    connection accepted has been handed to a handler. *)
Theorem accept_loop_exit (results : list accepted) (st : loop_state) :
  ((accept_loop results st).1 = Returned None <->
   exists err, AcceptError err ∈ results /\ errors_Is err ErrClosed = true) /\
  ((accept_loop results st).1 = Accepting <->
   forall err, AcceptError err ∈ results -> errors_Is err ErrClosed = false) /\
  (forall err, (accept_loop results st).1 <> Returned (Some err)) /\
  (accept_loop results st).2
  = mkLoop (logged st ++ errors_of (before_close results))
           (dispatched st ++ conns_of (before_close results)) /\
  (forall err rest,
     errors_Is err ErrClosed = true ->
     accept_loop (AcceptError err :: rest) st = (Returned None, st)) /\
  (forall err rest,
     errors_Is err ErrClosed = false ->
     accept_loop (AcceptError err :: rest) st
     = accept_loop rest (mkLoop (logged st ++ [err]) (dispatched st))) /\
  (forall c rest,
     accept_loop (Conn c :: rest) st
     = accept_loop rest (mkLoop (logged st) (dispatched st ++ [c]))) /\
  Start None results = accept_loop results (mkLoop [] []).
Proof.
  rewrite accept_loop_spec. cbn [fst snd].
  assert (Hex : existsb is_closed results = true <->
                exists err, AcceptError err ∈ results
                            /\ errors_Is err ErrClosed = true).
  { rewrite existsb_exists. split.
    - intros ([c|err] & Hin & Hc); [done|].
      exists err. split; [|done]. by apply list_elem_of_In.
    - intros (err & Hin & Hc). exists (AcceptError err).
      split; [|done]. by apply list_elem_of_In. }
  split; [|split; [|split; [|split; [done|]]]].
  - rewrite <- Hex. by destruct (existsb is_closed results).
  - split.
    + intros Ha err Hin. destruct (errors_Is err ErrClosed) eqn:E; [|done].
      assert (existsb is_closed results = true) as Ht.
      { apply Hex. by exists err. }
      by rewrite Ht in Ha.
    + intros Hall.
      destruct (decide (existsb is_closed results = true)) as [E|E].
      * apply Hex in E as (err & Hin & Hc). by rewrite (Hall _ Hin) in Hc.
      * by destruct (existsb is_closed results).
  - intros err. by destruct (existsb is_closed results).
  - split; [|split; [|split]].
    + intros err rest Hc. simpl. by rewrite Hc.
    + intros err rest Hc. simpl. by rewrite Hc.
    + done.
    + done.
Qed.

End AcceptorProperties.

(** ** More on the cache: round trips, what a call leaves alone *)

Module CacheExtras.
Import Cache CacheInv CacheModel CacheFacts CacheRefinement CacheModelFacts
  CacheRuns CacheProperties CacheObs.

(** What a caller sees is what the model holds. *)
Lemma lookup_result_refines k c m :
  refines c m ->
  lookup_result k c
  = Some (match a_lookup k (m_entries m) with
          | Some v => (true, v)
          | None => (false, None)
          end).
Proof.
  intros Hr. unfold lookup_result.
  destruct (a_lookup k (m_entries m)) as [v|] eqn:E.
  - by destruct (Get_hit _ _ _ _ Hr E) as (c' & -> & _).
  - by rewrite (Get_miss _ _ _ Hr E).
Qed.

Lemma Get_model k c m c' found v :
  refines c m -> Get k c = Some (c', found, v) ->
  refines c' (m_get k m).1.1 /\
  a_lookup k (m_entries m) = (if found then Some v else None).
Proof.
  intros Hr E.
  destruct (m_get k m) as [[m' found'] v'] eqn:Em.
  destruct (Get_refines _ _ _ _ _ _ Hr Em) as (c2 & E2 & Hr2).
  rewrite E in E2. injection E2 as -> -> ->.
  split; [done|]. unfold m_get in Em.
  destruct (a_lookup k (m_entries m)); by injection Em as <- <- <-.
Qed.

(** X1: on a cache of capacity at least one, in whatever state earlier
    calls left it, a [Put(k, v)] followed by any number of lookups of any
    keys and then a [Get(k)] returns [v]: lookups evict nothing. *)
Theorem put_then_get (cap : Z) (os : list op) (k : string)
    (v : option ProxyItem) (gs : list string) :
  1 <= cap ->
  exists c c',
    run_ops (os ++ [OpPut k v] ++ gets gs) (NewLRUCache cap) = Some c /\
    Get k c = Some (c', true, v).
Proof.
  intros Hcap.
  destruct (reachable cap os) as (c0 & m0 & E0 & Hr0 & Hok0 & _ & Hc0).
  assert (Hm0 : 1 <= m_capacity m0).
  { destruct Hr0 as (_ & _ & _ & _ & ->). lia. }
  destruct (m_put_front k v _ Hok0 Hm0) as (rest & Hes).
  destruct (run_ops_refines ([OpPut k v] ++ gets gs) _ _ Hr0)
    as (c & E & Hr).
  rewrite m_run_ops_app in Hr.
  destruct (Get_hit c _ k v Hr) as (c' & E' & _).
  { rewrite m_gets_lookup. simpl. rewrite Hes. apply a_lookup_cons_eq. }
  exists c, c'. split; [|done].
  rewrite run_ops_app, E0. done.
Qed.

Lemma put_then_get_witness :
  exists c c',
    run_ops ([OpPut "a" None] ++ [OpPut "k" (Some (mkItem "s" "h" "b"))]
             ++ gets ["a"%string; "z"%string]) (NewLRUCache 2) = Some c /\
    Get "k" c = Some (c', true, Some (mkItem "s" "h" "b")).
Proof.
  apply (put_then_get 2 [OpPut "a" None] "k" (Some (mkItem "s" "h" "b"))
           ["a"%string; "z"%string]).
  lia.
Defined.

Lemma last_put_snoc k os o :
  last_put k (os ++ [o])
  = match o with
    | OpPut k' v => if decide (k' = k) then Some v else last_put k os
    | OpGet _ => last_put k os
    end.
Proof.
  induction os as [|o' os IH]; simpl.
  - destruct o as [|k' v]; [done|]. by destruct (decide (k' = k)).
  - rewrite IH. destruct o as [|k' v]; [done|].
    by destruct (decide (k' = k)).
Qed.

Lemma a_lookup_removelast k es v :
  a_lookup k (removelast es) = Some v -> a_lookup k es = Some v.
Proof.
  destruct es as [|e es _] using rev_ind; [done|].
  rewrite removelast_last. revert v.
  induction es as [|e' es IH]; intros v; [done|].
  cbn [app a_lookup]. destruct (decide (e'.1 = k)); [done|]. apply IH.
Qed.

(** Every entry of the model holds the item of the latest [Put] of its
    key. *)
Lemma m_lookup_last_put cap os k v :
  a_lookup k (m_entries (m_run_ops os (m_new cap))) = Some v ->
  last_put k os = Some v.
Proof.
  revert k v. induction os as [|o os IH] using rev_ind; intros k v; [done|].
  rewrite m_run_ops_snoc, last_put_snoc.
  set (m := m_run_ops os (m_new cap)) in *.
  destruct o as [k'|k' v']; simpl.
  - rewrite m_get_lookup. apply IH.
  - unfold m_put. destruct (decide (k' = k)) as [->|Hne].
    + destruct (a_lookup k (m_entries m)) as [w|] eqn:E.
      * cbn [m_entries]. rewrite a_lookup_cons_eq. done.
      * case_bool_decide; cbn [m_entries]; intros Hl.
        -- apply a_lookup_removelast in Hl.
           by rewrite a_lookup_cons_eq in Hl.
        -- by rewrite a_lookup_cons_eq in Hl.
    + destruct (a_lookup k' (m_entries m)) as [w|] eqn:E.
      * cbn [m_entries]. rewrite a_lookup_cons_ne by done.
        rewrite a_lookup_a_remove_ne by done. apply IH.
      * case_bool_decide; cbn [m_entries]; intros Hl.
        -- apply a_lookup_removelast in Hl.
           rewrite a_lookup_cons_ne in Hl by done. by apply IH.
        -- rewrite a_lookup_cons_ne in Hl by done. by apply IH.
Qed.

(** X2: after any sequence of calls on a fresh cache, a [Get(k)] that hits
    returns the item of the latest [Put(k, _)] of the sequence; a key that
    was never put misses. *)
Theorem get_returns_last_put (cap : Z) (os : list op) (c c' : LRUCache)
    (k : string) (v : option ProxyItem) :
  run_ops os (NewLRUCache cap) = Some c ->
  Get k c = Some (c', true, v) ->
  last_put k os = Some v.
Proof.
  intros E Eg.
  destruct (reachable cap os) as (c0 & m & E0 & Hr & _ & -> & _).
  assert (c0 = c) as -> by congruence.
  destruct (Get_model _ _ _ _ _ _ Hr Eg) as [_ Hl].
  by eapply m_lookup_last_put.
Qed.

Lemma get_returns_last_put_witness :
  last_put "k" [OpPut "k" None; OpGet "k";
                OpPut "k" (Some (mkItem "s" "h" "b"))]
  = Some (Some (mkItem "s" "h" "b")).
Proof.
  eapply (get_returns_last_put 1
            [OpPut "k" None; OpGet "k"; OpPut "k" (Some (mkItem "s" "h" "b"))]);
    vm_compute; reflexivity.
Defined.

Lemma size_of_keys (ks : list string) (X : gset string) :
  NoDup ks -> (forall k, k ∈ ks <-> k ∈ X) -> size X = length ks.
Proof.
  intros Hnd Hiff. rewrite <- (size_list_to_set (C := gset string) ks Hnd).
  f_equal. apply set_eq. intros k. rewrite elem_of_list_to_set.
  symmetry. apply Hiff.
Qed.

(** X3: as long as the capacity is below the largest [int], so that the
    counter cannot wrap, [Size()] is the number of entries: the number of
    nodes on the list and the number of keys in the map, and never
    negative. *)
Theorem size_counts_entries (cap : Z) (os : list op) (c : LRUCache) :
  cap < GoInt.max_int ->
  run_ops os (NewLRUCache cap) = Some c ->
  exists ks,
    recency_keys c = Some ks /\
    Size c = Z.of_nat (length ks) /\
    Size c = Z.of_nat (size (index_keys c)) /\
    0 <= Size c.
Proof.
  intros Hcap E.
  destruct (reachable_refines _ _ _ E) as (m & Hr & Hok & Hc).
  destruct (recency_keys_refines _ _ Hr) as [Hk _].
  exists (keys (m_entries m)). split; [done|].
  pose proof Hok as (Hnd & _ & Hsz). destruct Hsz as [Hs _]; [lia|].
  assert (Size c = Z.of_nat (length (keys (m_entries m)))) as Hsize.
  { unfold Size. destruct Hr as (_ & _ & _ & <- & _).
    unfold keys. by rewrite length_map. }
  split; [done|]. split; [|lia].
  rewrite Hsize. f_equal. symmetry. apply size_of_keys; [done|].
  intros k. symmetry. by apply index_keys_refines.
Qed.

Lemma size_counts_entries_witness :
  exists c,
    run_ops [OpPut "a" None; OpPut "b" None; OpGet "a"; OpPut "c" None;
             OpPut "c" (Some (mkItem "s" "h" "b"))]
      (NewLRUCache 2) = Some c /\
    recency_keys c = Some ["c"%string; "a"%string] /\
    exists ks,
      recency_keys c = Some ks /\
      Size c = Z.of_nat (length ks) /\
      Size c = Z.of_nat (size (index_keys c)) /\
      0 <= Size c.
Proof.
  destruct (run_ops_refines
              [OpPut "a" None; OpPut "b" None; OpGet "a"; OpPut "c" None;
               OpPut "c" (Some (mkItem "s" "h" "b"))] _ _
              (refines_new 2)) as (c & E & Hr).
  destruct (recency_keys_refines _ _ Hr) as [Hk _].
  exists c. split; [exact E|]. split; [exact Hk|].
  apply (size_counts_entries 2
           [OpPut "a" None; OpPut "b" None; OpGet "a"; OpPut "c" None;
            OpPut "c" (Some (mkItem "s" "h" "b"))] c);
    [by vm_compute|exact E].
Defined.

(** X4: a [Get], hit or miss, changes neither [Size()] nor [Capacity()] nor
    the set of keys, nor what is stored under any key: a lookup of any key
    made right after it returns what the same lookup returned right before
    it.  (It changes the recency order, and with it the key a later [Put]
    evicts.) *)
Theorem get_changes_order_only (cap : Z) (os : list op) (c c' : LRUCache)
    (k : string) (found : bool) (v : option ProxyItem) :
  run_ops os (NewLRUCache cap) = Some c ->
  Get k c = Some (c', found, v) ->
  Size c' = Size c /\ Capacity c' = Capacity c /\
  index_keys c' = index_keys c /\
  forall k', lookup_result k' c' = lookup_result k' c.
Proof.
  intros E Eg.
  destruct (reachable_refines _ _ _ E) as (m & Hr & _).
  destruct (Get_model _ _ _ _ _ _ Hr Eg) as [Hr' _].
  split; [|split; [|split]].
  - unfold Size. destruct Hr as (_ & _ & _ & <- & _).
    destruct Hr' as (_ & _ & _ & <- & _).
    unfold m_get. by destruct (a_lookup k (m_entries m)).
  - unfold Capacity. destruct Hr as (_ & _ & _ & _ & <-).
    destruct Hr' as (_ & _ & _ & _ & <-). apply m_capacity_get.
  - unfold index_keys. by rewrite (Get_items _ _ _ _ _ _ Hr Eg).
  - intros k'. rewrite (lookup_result_refines _ _ _ Hr).
    rewrite (lookup_result_refines _ _ _ Hr'). by rewrite m_get_lookup.
Qed.

Lemma get_changes_order_only_witness :
  exists c c',
    run_ops [OpPut "a" None; OpPut "b" None] (NewLRUCache 2) = Some c /\
    Get "a" c = Some (c', true, None) /\
    Size c' = Size c /\ Capacity c' = Capacity c /\
    index_keys c' = index_keys c /\
    forall k', lookup_result k' c' = lookup_result k' c.
Proof.
  destruct (run_ops_refines [OpPut "a" None; OpPut "b" None] _ _
              (refines_new 2)) as (c & E & Hr).
  destruct (Get_hit c _ "a" None Hr) as (c' & Eg & _); [by vm_compute|].
  exists c, c'. split; [done|]. split; [done|].
  exact (get_changes_order_only 2 [OpPut "a" None; OpPut "b" None]
           c c' "a" true None E Eg).
Defined.

Lemma a_lookup_snoc_ne k es e :
  e.1 <> k -> a_lookup k (es ++ [e]) = a_lookup k es.
Proof.
  intros Hne. induction es as [|e' es IH]; simpl.
  - by rewrite decide_False.
  - by rewrite IH.
Qed.

Lemma last_keys es e : last (keys (es ++ [e])) = Some e.1.
Proof. rewrite keys_app. cbn [keys map]. apply last_snoc. Qed.

(** What a [Put] of [k] does to another key, on the model. *)
Lemma m_put_lookup_other k v k' m :
  k' <> k ->
  a_lookup k (m_entries m) <> None
  \/ ~ GoInt.incr (m_size m) > m_capacity m
  \/ last (keys (m_entries m)) <> Some k' ->
  a_lookup k' (m_entries (m_put k v m)) = a_lookup k' (m_entries m).
Proof.
  intros Hne Hcase. unfold m_put.
  destruct (a_lookup k (m_entries m)) as [w|] eqn:E; cbn [m_entries].
  - rewrite a_lookup_cons_ne by done. by apply a_lookup_a_remove_ne.
  - case_bool_decide as Hgt; cbn [m_entries].
    + destruct Hcase as [?|[?|Hlast]]; [done..|].
      destruct (m_entries m) as [|e es _] using rev_ind; [done|].
      rewrite last_keys in Hlast.
      change ((k, v) :: es ++ [e]) with (((k, v) :: es) ++ [e]).
      rewrite removelast_last, a_lookup_cons_ne by done.
      rewrite a_lookup_snoc_ne; [done|congruence].
    + by rewrite a_lookup_cons_ne.
Qed.

(** X5: a [Put(k, v)] leaves every other key as it was, the one key it
    evicts apart: a lookup of [k'] returns after the [Put] what it returned
    before when [k] was already present, or when there was room for one
    more entry, or when [k'] is not the last key of the list. *)
Theorem put_keeps_other_keys (cap : Z) (os : list op) (c : LRUCache)
    (ks : list string) (k k' : string) (v : option ProxyItem) :
  cap < GoInt.max_int ->
  run_ops os (NewLRUCache cap) = Some c ->
  recency_keys c = Some ks ->
  k' <> k ->
  k ∈ ks \/ Z.of_nat (length ks) + 1 <= cap \/ last ks <> Some k' ->
  exists c', Put k v c = Some c' /\
             lookup_result k' c' = lookup_result k' c.
Proof.
  intros Hcap E Hks Hne Hcase.
  destruct (reachable_refines _ _ _ E) as (m & Hr & Hok & Hc).
  destruct (recency_keys_refines _ _ Hr) as [Hk _].
  assert (ks = keys (m_entries m)) as -> by congruence.
  destruct (Put_refines k v _ _ Hr) as (c' & E' & Hr').
  exists c'. split; [done|].
  rewrite (lookup_result_refines _ _ _ Hr), (lookup_result_refines _ _ _ Hr').
  rewrite m_put_lookup_other; [done..|].
  destruct Hok as (_ & _ & Hsz). destruct Hsz as [Hs Hle]; [lia|].
  destruct Hcase as [Hin|[Hroom|Hlast]].
  - left. by destruct (a_lookup_in _ _ Hin) as [w ->].
  - right. left.
    rewrite GoIntFacts.incr_small
      by (unfold GoInt.min_int, GoInt.max_int in *; lia).
    unfold keys in Hroom. rewrite length_map in Hroom.
    assert (Z.of_nat (length (m_entries m)) + 1 <= cap) as Hroom'
      by exact Hroom.
    lia.
  - right. by right.
Qed.

Lemma put_keeps_other_keys_witness :
  exists c c',
    run_ops [OpPut "a" None; OpPut "b" (Some (mkItem "s" "h" "b"))]
      (NewLRUCache 2) = Some c /\
    Put "z" None c = Some c' /\
    lookup_result "b" c' = lookup_result "b" c.
Proof.
  destruct (run_ops_refines
              [OpPut "a" None; OpPut "b" (Some (mkItem "s" "h" "b"))] _ _
              (refines_new 2)) as (c & E & Hr).
  destruct (recency_keys_refines _ _ Hr) as [Hk _].
  destruct (put_keeps_other_keys 2
              [OpPut "a" None; OpPut "b" (Some (mkItem "s" "h" "b"))]
              c _ "z" "b" None ltac:(by vm_compute) E Hk ltac:(discriminate))
    as (c' & E' & Hl).
  { right. right. vm_compute. discriminate. }
  by exists c, c'.
Defined.

(** X6: [evictLRU] on a cache with no entry changes nothing; on any other
    cache it removes the last key of the list, and that key only, from the
    list and from the map, and takes one off [Size()]. *)
Theorem evictLRU_drops_last (cap : Z) (os : list op) (c : LRUCache) :
  cap < GoInt.max_int ->
  run_ops os (NewLRUCache cap) = Some c ->
  exists ks c',
    recency_keys c = Some ks /\
    evictLRU c = Some c' /\
    recency_keys c' = Some (removelast ks) /\
    (forall k, k ∈ index_keys c' <-> k ∈ removelast ks) /\
    (ks = [] -> c' = c) /\
    (ks <> [] -> Size c' = Size c - 1).
Proof.
  intros Hcap E.
  destruct (reachable_refines _ _ _ E) as (m & Hr & Hok & Hc).
  destruct (recency_keys_refines _ _ Hr) as [Hk _].
  exists (keys (m_entries m)).
  pose proof Hr as (l & Hwf & He & Hs & Hcm).
  pose proof Hok as (_ & _ & Hsz). destruct Hsz as [Hlen Hle]; [lia|].
  destruct l as [|t l _] using rev_ind.
  - exists c. split; [done|].
    assert (evictLRU c = Some c) as Hev.
    { unfold evictLRU. destruct Hwf as [[_ _ Ht _] _]. by rewrite Ht. }
    rewrite He in *. simpl in *. split; [done|]. split; [done|].
    split; [|done].
    intros k. rewrite (index_keys_refines _ _ k Hr), He. done.
  - destruct (evictLRU_spec _ _ _ Hwf) as (c' & Ev & Hwf' & Hs' & Hc' & Hp').
    assert (Hr' : refines c'
              (mkModel (c_size c') (c_capacity c') (view (nodes c) l))).
    { exists l. split; [done|]. simpl. split; [|done].
      symmetry. apply view_same_payload. auto. }
    exists c'. split; [done|]. split; [done|].
    assert (Hrl : removelast (keys (m_entries m)) = keys (view (nodes c) l)).
    { rewrite He, view_app, <- keys_removelast. simpl.
      by rewrite removelast_last. }
    rewrite Hrl.
    destruct (recency_keys_refines _ _ Hr') as [Hk' _].
    split; [done|]. split; [|split].
    + intros k. by rewrite (index_keys_refines _ _ k Hr').
    + rewrite He, view_app, keys_app. intros Hnil.
      by apply app_eq_nil in Hnil as [_ ?].
    + intros _.
      assert (0 < m_size m) as Hpos.
      { rewrite Hlen, He. unfold view. rewrite length_map, length_app.
        simpl. lia. }
      unfold Size. rewrite Hs', <- Hs.
      apply GoIntFacts.decr_small.
      unfold GoInt.min_int, GoInt.max_int in *. lia.
Qed.

Lemma evictLRU_drops_last_witness :
  exists c ks c',
    run_ops [OpPut "a" None; OpPut "b" None] (NewLRUCache 3) = Some c /\
    recency_keys c = Some ks /\
    evictLRU c = Some c' /\
    recency_keys c' = Some (removelast ks) /\
    (forall k, k ∈ index_keys c' <-> k ∈ removelast ks) /\
    (ks = [] -> c' = c) /\
    (ks <> [] -> Size c' = Size c - 1).
Proof.
  destruct (run_ops_refines [OpPut "a" None; OpPut "b" None] _ _
              (refines_new 3)) as (c & E & _).
  destruct (evictLRU_drops_last 3 [OpPut "a" None; OpPut "b" None] c
              ltac:(by vm_compute) E) as (ks & c' & H).
  by exists c, ks, c'.
Defined.

End CacheExtras.

(** ** More on the handler: hits, the round trip through the cache, and
       what every run does *)

Module ProxyExtras.
Import Cache CacheModel CacheRefinement CacheModelFacts CacheRuns
  CacheProperties CacheObs Proxy ProxyObs ProxyProperties.

Lemma run_ops_snoc_get cap os k s s1 found v :
  run_ops os (NewLRUCache cap) = Some s ->
  Get k s = Some (s1, found, v) ->
  run_ops (os ++ [OpGet k]) (NewLRUCache cap) = Some s1.
Proof. intros E Eg. rewrite run_ops_app, E. simpl. by rewrite Eg. Qed.

Lemma run_ops_snoc_put cap os k v s s2 :
  run_ops os (NewLRUCache cap) = Some s ->
  Put k v s = Some s2 ->
  run_ops (os ++ [OpPut k v]) (NewLRUCache cap) = Some s2.
Proof. intros E Ep. rewrite run_ops_app, E. simpl. by rewrite Ep. Qed.

(** The lookup of a handler is a [Get] of the cache, and never panics. *)
Lemma getCachedResponse_total cap os s k :
  run_ops os (NewLRUCache cap) = Some s ->
  exists s1 cached,
    getCachedResponse k s = Some (s1, cached) /\
    run_ops (os ++ [OpGet k]) (NewLRUCache cap) = Some s1.
Proof.
  intros E. destruct (reachable_refines _ _ _ E) as (m & Hr & _).
  destruct (m_get k m) as [[m' found] v] eqn:Em.
  destruct (Get_refines _ _ _ _ _ _ Hr Em) as (s1 & Eg & _).
  exists s1, (if found then v else None). split.
  - unfold getCachedResponse. by rewrite Eg.
  - by eapply run_ops_snoc_get.
Qed.

(** The runs of a handler on a parsed request, one case for each way it
    ends: a hit, a failed forward, a failed write to the client, a stored
    response. *)
Lemma handle_cases cap os s w request :
  run_ops os (NewLRUCache cap) = Some s ->
  w_request w = Some request ->
  let key := generateCacheKey request in
  exists s1 cached,
    getCachedResponse key s = Some (s1, cached) /\
    run_ops (os ++ [OpGet key]) (NewLRUCache cap) = Some s1 /\
    ((exists item,
        cached = Some item /\
        handleConnection s w
        = Some (s1, sendCachedResponse item w ++ [EvClientClose]))
     \/ (cached = None /\ (forwardRequest request w).2 = None /\
         handleConnection s w
         = Some (s1, (forwardRequest request w).1
                     ++ [EvLogError "Failed to forward request"]
                     ++ sendErrorResponse w ++ [EvClientClose]))
     \/ (exists response prep statusLine headers body,
           cached = None /\
           (forwardRequest request w).2 = Some response /\
           prepareResponse response w = (prep, (statusLine, headers, body)) /\
           let data := statusLine +:+ headers +:+ CRLF +:+ body in
           let item := mkItem statusLine headers body in
           (w_client_write_ok w = false /\
            handleConnection s w
            = Some (s1, (forwardRequest request w).1 ++ prep
                        ++ [EvClientWrite data false;
                            EvLogError "Failed to send response";
                            EvClientClose])
            \/ exists s2,
                 w_client_write_ok w = true /\
                 Put key (Some item) s1 = Some s2 /\
                 run_ops (os ++ [OpGet key; OpPut key (Some item)])
                   (NewLRUCache cap) = Some s2 /\
                 handleConnection s w
                 = Some (s2, (forwardRequest request w).1 ++ prep
                             ++ [EvClientWrite data true;
                                 EvCachePut key item; EvClientClose])))).
Proof.
  intros E Hreq key.
  destruct (getCachedResponse_total cap os s key E) as (s1 & cached & Hg & E1).
  exists s1, cached. split; [done|]. split; [done|].
  unfold handleConnection. rewrite Hreq. fold key. rewrite Hg. simpl.
  destruct cached as [item|]; [left; by exists item|right].
  destruct (forwardRequest request w) as [fwd [response|]] eqn:Ef;
    [right|left; done].
  destruct (prepareResponse response w) as [prep [[statusLine headers] body]]
    eqn:Ep.
  exists response, prep, statusLine, headers, body.
  split; [done|]. split; [done|]. split; [done|]. simpl.
  destruct (w_client_write_ok w) eqn:Hw; simpl.
  - right.
    destruct (reachable_refines _ _ _ E1) as (m1 & Hr1 & _).
    destruct (Put_refines key (Some (mkItem statusLine headers body)) _ _ Hr1)
      as (s2 & E2 & _).
    exists s2. split; [done|]. split; [done|]. split.
    + change [OpGet key; OpPut key (Some (mkItem statusLine headers body))]
        with ([OpGet key]
              ++ [OpPut key (Some (mkItem statusLine headers body))]).
      rewrite app_assoc. by eapply run_ops_snoc_put.
    + unfold cacheResponse. rewrite E2. simpl. done.
  - left. split; done.
Qed.

Lemma last_close (evs : list event) :
  last (evs ++ [EvClientClose]) = Some EvClientClose.
Proof. apply last_snoc. Qed.

Lemma forward_trace req w :
  let evs := (forwardRequest req w).1 in
  dials evs = [target_address req] /\
  client_writes evs = [] /\ cache_puts evs = [] /\
  (length (target_writes evs) <= 1)%nat.
Proof.
  unfold forwardRequest. fold (target_address req).
  destruct (w_dial_ok w); simpl; [|by repeat split; try lia].
  destruct (ReqBody req); simpl; [|by repeat split; try lia].
  destruct (w_target_write_ok w); simpl; by repeat split; try lia.
Qed.

Lemma prepare_trace resp w prep t :
  prepareResponse resp w = (prep, t) ->
  dials prep = [] /\ client_writes prep = [] /\ cache_puts prep = [] /\
  target_writes prep = [].
Proof.
  unfold prepareResponse. destruct (RespBody resp); by intros [= <- _].
Qed.

Lemma sendCachedResponse_trace item w :
  dials (sendCachedResponse item w) = [] /\
  target_writes (sendCachedResponse item w) = [] /\
  client_writes (sendCachedResponse item w)
  = [Status item +:+ Header item +:+ CRLF +:+ Body item] /\
  cache_puts (sendCachedResponse item w) = [].
Proof. unfold sendCachedResponse. by destruct (w_client_write_ok w). Qed.

Lemma sendErrorResponse_trace w :
  dials (sendErrorResponse w) = [] /\
  client_writes (sendErrorResponse w) = [badGatewayResponse] /\
  cache_puts (sendErrorResponse w) = [].
Proof. unfold sendErrorResponse. by destruct (w_client_write_ok w). Qed.

Lemma dials_app evs1 evs2 : dials (evs1 ++ evs2) = dials evs1 ++ dials evs2.
Proof. apply omap_app. Qed.

Lemma client_writes_app evs1 evs2 :
  client_writes (evs1 ++ evs2) = client_writes evs1 ++ client_writes evs2.
Proof. apply omap_app. Qed.

Lemma cache_puts_app evs1 evs2 :
  cache_puts (evs1 ++ evs2) = cache_puts evs1 ++ cache_puts evs2.
Proof. apply omap_app. Qed.

Lemma target_writes_app evs1 evs2 :
  target_writes (evs1 ++ evs2) = target_writes evs1 ++ target_writes evs2.
Proof. apply omap_app. Qed.

(** Rewrites the projections of a trace built with [++] from the parts
    above. *)
Ltac trace_parts :=
  repeat (progress
            (rewrite ?dials_app, ?client_writes_app, ?cache_puts_app,
               ?target_writes_app; simpl)).

(** X7: on a hit the handler answers from the cache alone: it dials
    nothing and writes nothing to an origin, writes to the client once, the
    status line, the header block, a blank line and the body of the cached
    item, puts nothing into the cache, and leaves the keys and the size of
    the cache as they were. *)
Theorem cache_hit_served_locally (cap : Z) (os : list op) (s s1 : LRUCache)
    (w : world) (request : Request) (item : ProxyItem) :
  run_ops os (NewLRUCache cap) = Some s ->
  w_request w = Some request ->
  getCachedResponse (generateCacheKey request) s = Some (s1, Some item) ->
  exists evs,
    handleConnection s w = Some (s1, evs) /\
    dials evs = [] /\ target_writes evs = [] /\
    client_writes evs = [Status item +:+ Header item +:+ CRLF +:+ Body item] /\
    cache_puts evs = [] /\
    index_keys s1 = index_keys s /\ Size s1 = Size s.
Proof.
  intros E Hreq Hg.
  destruct (reachable_refines _ _ _ E) as (m & Hr & _).
  exists (sendCachedResponse item w ++ [EvClientClose]).
  split; [unfold handleConnection; by rewrite Hreq, Hg|].
  destruct (sendCachedResponse_trace item w) as (Hd & Ht & Hc & Hp).
  trace_parts. rewrite Hd, Ht, Hc, Hp.
  do 4 (split; [done|]).
  unfold getCachedResponse in Hg.
  destruct (Get (generateCacheKey request) s) as [[[s' found] v]|] eqn:Eg;
    [|done].
  injection Hg as -> Hv.
  destruct (CacheExtras.Get_model _ _ _ _ _ _ Hr Eg) as [Hr' _].
  split.
  - unfold index_keys. by rewrite (Get_items _ _ _ _ _ _ Hr Eg).
  - unfold Size. destruct Hr as (_ & _ & _ & <- & _).
    destruct Hr' as (_ & _ & _ & <- & _).
    unfold m_get. by destruct (a_lookup _ (m_entries m)).
Qed.

Lemma cache_hit_served_locally_witness :
  exists s s1 evs,
    run_ops [OpPut (generateCacheKey sample_request)
               (Some (mkItem "S" "H" "B"))] (NewLRUCache 1) = Some s /\
    handleConnection s second_world = Some (s1, evs) /\
    dials evs = [] /\ target_writes evs = [] /\
    client_writes evs = ["S" +:+ "H" +:+ CRLF +:+ "B"] /\
    cache_puts evs = [] /\
    index_keys s1 = index_keys s /\ Size s1 = Size s.
Proof.
  destruct (run_ops_refines
              [OpPut (generateCacheKey sample_request)
                 (Some (mkItem "S" "H" "B"))] _ _ (refines_new 1))
    as (s & E & Hr).
  destruct (Get_hit s _ (generateCacheKey sample_request)
              (Some (mkItem "S" "H" "B")) Hr) as (s1 & Eg & _);
    [by vm_compute|].
  assert (getCachedResponse (generateCacheKey sample_request) s
          = Some (s1, Some (mkItem "S" "H" "B"))) as Hg.
  { unfold getCachedResponse. by rewrite Eg. }
  destruct (cache_hit_served_locally 1 _ s s1 second_world sample_request
              (mkItem "S" "H" "B") E eq_refl Hg) as (evs & H).
  by exists s, s1, evs.
Defined.

(** The cache a handler leaves after it has stored a response holds that
    response under its key, when the capacity is at least one. *)
Lemma stored_is_found cap os key item s2 :
  1 <= cap ->
  run_ops (os ++ [OpGet key; OpPut key (Some item)]) (NewLRUCache cap)
  = Some s2 ->
  exists s3, getCachedResponse key s2 = Some (s3, Some item).
Proof.
  intros Hcap E.
  destruct (reachable cap (os ++ [OpGet key; OpPut key (Some item)]))
    as (c & m & E' & Hr & _ & Hm & _).
  assert (c = s2) as -> by congruence.
  change [OpGet key; OpPut key (Some item)]
    with ([OpGet key] ++ [OpPut key (Some item)]) in Hm.
  rewrite app_assoc, m_run_ops_snoc in Hm. simpl in Hm.
  set (m1 := m_run_ops (os ++ [OpGet key]) (m_new cap)) in *.
  assert (Hok1 : m_ok m1) by apply m_ok_run, m_ok_new.
  assert (Hc1 : 1 <= m_capacity m1).
  { unfold m1. rewrite m_capacity_run. simpl. lia. }
  destruct (m_put_front key (Some item) _ Hok1 Hc1) as (rest & Hes).
  destruct (Get_hit s2 m key (Some item) Hr) as (s3 & Eg & _).
  { rewrite Hm, Hes. apply a_lookup_cons_eq. }
  exists s3. unfold getCachedResponse. by rewrite Eg.
Qed.

(** X8: the round trip through the cache.  On a cache of capacity at least
    one, once a handler has stored the response it relayed, a handler for a
    request with the same key, whatever else it carries and whatever the
    network would do, dials nothing, writes to the client the very bytes
    the first handler wrote, and puts nothing into the cache. *)
Theorem miss_then_hit (cap : Z) (os : list op) (s s' : LRUCache)
    (w1 w2 : world) (request request2 : Request) (evs1 : list event) :
  1 <= cap ->
  run_ops os (NewLRUCache cap) = Some s ->
  w_request w1 = Some request ->
  w_request w2 = Some request2 ->
  generateCacheKey request2 = generateCacheKey request ->
  handleConnection s w1 = Some (s', evs1) ->
  cache_puts evs1 <> [] ->
  exists s'' evs2,
    handleConnection s' w2 = Some (s'', evs2) /\
    dials evs2 = [] /\ target_writes evs2 = [] /\
    client_writes evs2 = client_writes evs1 /\
    cache_puts evs2 = [].
Proof.
  intros Hcap E Hreq1 Hreq2 Hkey Hrun Hput.
  destruct (handle_cases cap os s w1 request E Hreq1)
    as (s1 & cached & Hg & E1 & Hcases).
  pose proof (forward_trace request w1) as (_ & Hfc & Hfp & _).
  cbv zeta in Hfc, Hfp.
  destruct Hcases as
    [(item & -> & Hh)
    |[(-> & _ & Hh)
     |(response & prep & sl & hd & bd & -> & _ & Hp & Hh)]].
  - exfalso. rewrite Hh in Hrun. injection Hrun as <- <-. apply Hput.
    trace_parts. by destruct (sendCachedResponse_trace item w1) as (_&_&_&->).
  - exfalso. rewrite Hh in Hrun. injection Hrun as <- <-. apply Hput.
    trace_parts. rewrite Hfp.
    by destruct (sendErrorResponse_trace w1) as (_ & _ & ->).
  - destruct (prepare_trace _ _ _ _ Hp) as (_ & Hpc & Hpp & _).
    cbv zeta in Hh. destruct Hh as [[_ Hh]|(s2 & _ & _ & E2 & Hh)].
    + exfalso. rewrite Hh in Hrun. injection Hrun as <- <-. apply Hput.
      trace_parts. by rewrite Hfp, Hpp.
    + rewrite Hh in Hrun. injection Hrun as <- <-.
      destruct (stored_is_found cap os _ _ s2 Hcap E2) as (s3 & Hg2).
      destruct (handle_cases cap _ s2 w2 request2 E2 Hreq2)
        as (s3' & cached2 & Hg2' & _ & Hcases2).
      cbv zeta in Hg2'. rewrite Hkey, Hg2 in Hg2'. injection Hg2' as <- <-.
      destruct Hcases2 as [(item2 & [= <-] & Hh2)|[(? & _)|(?&?&?&?&?&?&_)]];
        [|done..].
      eexists s3, _. split; [exact Hh2|].
      destruct (sendCachedResponse_trace (mkItem sl hd bd) w2)
        as (Hd & Ht & Hc & Hpu).
      trace_parts. rewrite Hd, Ht, Hc, Hpu, Hfc, Hpc. done.
Qed.

Lemma miss_then_hit_witness :
  exists s' evs1 s'' evs2,
    handleConnection (NewLRUCache 1) sample_world = Some (s', evs1) /\
    handleConnection s' second_world = Some (s'', evs2) /\
    dials evs2 = [] /\ target_writes evs2 = [] /\
    client_writes evs2 = client_writes evs1 /\
    cache_puts evs2 = [].
Proof.
  assert (exists s' evs1,
            handleConnection (NewLRUCache 1) sample_world = Some (s', evs1)
            /\ cache_puts evs1 <> []) as (s' & evs1 & E1 & Hput).
  { vm_compute. eexists. eexists. split; [reflexivity|discriminate]. }
  destruct (miss_then_hit 1 [] (NewLRUCache 1) s' sample_world second_world
              sample_request sample_request evs1 ltac:(lia) eq_refl eq_refl
              eq_refl eq_refl E1 Hput) as (s'' & evs2 & E2 & H).
  by exists s', evs1, s'', evs2.
Defined.

(** X9: every run of a handler on a cache that cache calls have made ends
    without a panic and with the client connection closed as its last
    action.  It writes to the client at most once, and not at all exactly
    when the request cannot be parsed; it dials at most once; it puts into
    the cache at most once, and only after a successful write to the
    client.  What it does to the cache is: nothing when the request cannot
    be parsed; otherwise one [Get] of the key of the request, followed or
    not by one [Put] under that key, of the item its trace shows as put.
    So the next handler finds a cache that cache calls have made. *)
Theorem handler_runs_to_close (cap : Z) (os : list op) (s : LRUCache)
    (w : world) :
  run_ops os (NewLRUCache cap) = Some s ->
  exists s' evs os',
    handleConnection s w = Some (s', evs) /\
    run_ops (os ++ os') (NewLRUCache cap) = Some s' /\
    (length os' <= 2)%nat /\
    match w_request w with
    | None => os' = [] /\ s' = s /\ cache_puts evs = []
    | Some request =>
        (os' = [OpGet (generateCacheKey request)] /\ cache_puts evs = []) \/
        (exists item,
           os' = [OpGet (generateCacheKey request);
                  OpPut (generateCacheKey request) (Some item)] /\
           cache_puts evs = [(generateCacheKey request, item)])
    end /\
    last evs = Some EvClientClose /\
    (length (client_writes evs) <= 1)%nat /\
    (client_writes evs = [] <-> w_request w = None) /\
    (length (dials evs) <= 1)%nat /\
    (length (cache_puts evs) <= 1)%nat /\
    (cache_puts evs <> [] -> w_client_write_ok w = true).
Proof.
  intros E. destruct (w_request w) as [request|] eqn:Hreq.
  2:{ exists s, [EvLogError "Failed to parse HTTP request"; EvClientClose], [].
      split; [unfold handleConnection; by rewrite Hreq|].
      rewrite app_nil_r. repeat split; simpl; try done; lia. }
  destruct (handle_cases cap os s w request E Hreq)
    as (s1 & cached & Hg & E1 & Hcases).
  pose proof (forward_trace request w) as (Hfd & Hfc & Hfp & _).
  cbv zeta in Hfd, Hfc, Hfp.
  destruct Hcases as
    [(item & -> & Hh)
    |[(-> & _ & Hh)
     |(response & prep & sl & hd & bd & -> & _ & Hp & Hh)]].
  - exists s1; eexists; exists [OpGet (generateCacheKey request)].
    split; [exact Hh|]. split; [done|]. split; [simpl; lia|].
    destruct (sendCachedResponse_trace item w) as (Hd & _ & Hc & Hpu).
    split; [left; split; [done|]; trace_parts; by rewrite Hpu|].
    split; [apply last_close|].
    trace_parts. rewrite Hd, Hc, Hpu. simpl.
    repeat split; try done; lia.
  - exists s1; eexists; exists [OpGet (generateCacheKey request)].
    split; [exact Hh|]. split; [done|]. split; [simpl; lia|].
    destruct (sendErrorResponse_trace w) as (Hd & Hc & Hpu).
    split; [left; split; [done|]; trace_parts; by rewrite Hfp, Hpu|].
    split; [rewrite !app_assoc; apply last_close|].
    trace_parts. rewrite Hfd, Hfc, Hfp, Hd, Hc, Hpu. simpl.
    repeat split; try done; lia.
  - destruct (prepare_trace _ _ _ _ Hp) as (Hpd & Hpc & Hpp & _).
    cbv zeta in Hh. destruct Hh as [[Hw Hh]|(s2 & Hw & _ & E2 & Hh)].
    + exists s1; eexists; exists [OpGet (generateCacheKey request)].
      split; [exact Hh|]. split; [done|]. split; [simpl; lia|].
      split; [left; split; [done|]; trace_parts; by rewrite Hfp, Hpp|].
      split.
      { change [EvClientWrite (sl +:+ hd +:+ CRLF +:+ bd) false;
                EvLogError "Failed to send response"; EvClientClose]
          with ([EvClientWrite (sl +:+ hd +:+ CRLF +:+ bd) false;
                 EvLogError "Failed to send response"] ++ [EvClientClose]).
        rewrite !app_assoc. apply last_close. }
      trace_parts. rewrite Hfd, Hfc, Hfp, Hpd, Hpc, Hpp. simpl.
      repeat split; try done; lia.
    + exists s2; eexists; exists [OpGet (generateCacheKey request);
                     OpPut (generateCacheKey request)
                       (Some (mkItem sl hd bd))].
      split; [exact Hh|]. split; [done|]. split; [simpl; lia|].
      split.
      { right. exists (mkItem sl hd bd). split; [done|].
        trace_parts. by rewrite Hfp, Hpp. }
      split.
      { change [EvClientWrite (sl +:+ hd +:+ CRLF +:+ bd) true;
                EvCachePut (generateCacheKey request) (mkItem sl hd bd);
                EvClientClose]
          with ([EvClientWrite (sl +:+ hd +:+ CRLF +:+ bd) true;
                 EvCachePut (generateCacheKey request) (mkItem sl hd bd)]
                ++ [EvClientClose]).
        rewrite !app_assoc. apply last_close. }
      trace_parts. rewrite Hfd, Hfc, Hfp, Hpd, Hpc, Hpp. simpl.
      repeat split; try done; lia.
Qed.

Lemma handler_runs_to_close_witness :
  exists s' evs os',
    handleConnection (NewLRUCache 1) sample_world = Some (s', evs) /\
    run_ops ([] ++ os') (NewLRUCache 1) = Some s' /\
    (length os' <= 2)%nat /\
    ((os' = [OpGet (generateCacheKey sample_request)] /\
      cache_puts evs = []) \/
     (exists item,
        os' = [OpGet (generateCacheKey sample_request);
               OpPut (generateCacheKey sample_request) (Some item)] /\
        cache_puts evs = [(generateCacheKey sample_request, item)])) /\
    last evs = Some EvClientClose /\
    (length (client_writes evs) <= 1)%nat /\
    (client_writes evs = [] <-> w_request sample_world = None) /\
    (length (dials evs) <= 1)%nat /\
    (length (cache_puts evs) <= 1)%nat /\
    (cache_puts evs <> [] -> w_client_write_ok sample_world = true).
Proof.
  apply (handler_runs_to_close 1 [] (NewLRUCache 1) sample_world).
  reflexivity.
Defined.

Lemma reachable_empty cap os s :
  cap <= 0 -> run_ops os (NewLRUCache cap) = Some s ->
  Size s = 0 /\ index_keys s = ∅ /\
  forall k, Get k s = Some (s, false, None).
Proof.
  intros Hcap E.
  destruct (reachable_refines _ _ _ E) as (m & Hr & Hok & Hc).
  pose proof Hok as (_ & _ & Hsz).
  destruct Hsz as [Hlen Hle]; [unfold GoInt.max_int; lia|].
  assert (m_entries m = []) as Hnil.
  { destruct (m_entries m); [done|]. simpl in Hlen. lia. }
  split; [|split].
  - unfold Size. destruct Hr as (_ & _ & _ & <- & _). lia.
  - apply set_eq. intros k. rewrite (index_keys_refines _ _ k Hr), Hnil.
    split; [by intros ?%elem_of_nil|by intros ?%elem_of_empty].
  - intros k. apply (Get_miss _ _ _ Hr). by rewrite Hnil.
Qed.

(** X10: with a cache of capacity zero or less nothing is ever served from
    the cache: every request that parses is forwarded to its origin, and
    the cache is empty when the handler ends. *)
Theorem zero_capacity_always_forwards (cap : Z) (os : list op)
    (s : LRUCache) (w : world) (request : Request) :
  cap <= 0 ->
  run_ops os (NewLRUCache cap) = Some s ->
  w_request w = Some request ->
  exists s' evs,
    handleConnection s w = Some (s', evs) /\
    dials evs = [target_address request] /\
    Size s' = 0 /\ index_keys s' = ∅.
Proof.
  intros Hcap E Hreq.
  destruct (handle_cases cap os s w request E Hreq)
    as (s1 & cached & Hg & E1 & Hcases).
  destruct (reachable_empty _ _ _ Hcap E) as (_ & _ & Hmiss).
  unfold getCachedResponse in Hg. cbv zeta in Hg. rewrite Hmiss in Hg.
  injection Hg as <- <-.
  destruct (reachable_empty _ _ _ Hcap E1) as (Hs1 & Hk1 & _).
  pose proof (forward_trace request w) as (Hfd & _).
  cbv zeta in Hfd.
  destruct Hcases as
    [(item & [=] & _)
    |[(_ & _ & Hh)
     |(response & prep & sl & hd & bd & _ & _ & Hp & Hh)]].
  - exists s; eexists. split; [exact Hh|].
    destruct (sendErrorResponse_trace w) as (Hd & _).
    trace_parts. by rewrite Hfd, Hd.
  - destruct (prepare_trace _ _ _ _ Hp) as (Hpd & _).
    cbv zeta in Hh. destruct Hh as [[Hw Hh]|(s2 & Hw & _ & E2 & Hh)].
    + exists s; eexists. split; [exact Hh|].
      trace_parts. by rewrite Hfd, Hpd.
    + destruct (reachable_empty _ _ _ Hcap E2) as (Hs2 & Hk2 & _).
      exists s2; eexists. split; [exact Hh|].
      trace_parts. by rewrite Hfd, Hpd.
Qed.

Lemma zero_capacity_always_forwards_witness :
  exists s' evs,
    handleConnection (NewLRUCache 0) sample_world = Some (s', evs) /\
    dials evs = [target_address sample_request] /\
    Size s' = 0 /\ index_keys s' = ∅.
Proof.
  apply (zero_capacity_always_forwards 0 [] (NewLRUCache 0) sample_world
           sample_request); [lia|reflexivity|reflexivity].
Defined.

(** X11: [forwardRequest] dials exactly once, first of all, and the
    address it dials always holds a colon: it is the host of the request
    as it stands when that holds a colon, whatever stands after the colon,
    and the host with [:80] after it otherwise.  When
    the dial fails nothing else happens; when it succeeds the connection
    to the origin is closed exactly once, as the last step, whatever goes
    wrong in between.  The request is written at most once, nothing is
    written to the client or put into the cache, and a response comes back
    only when the body of the request could be read and the request has
    been written. *)
Theorem forward_dials_once_and_closes (req : Request) (w : world) :
  let evs := (forwardRequest req w).1 in
  let resp := (forwardRequest req w).2 in
  dials evs = [target_address req] /\
  Contains (target_address req) ":" = true /\
  (Contains (Host req) ":" = true -> target_address req = Host req) /\
  (Contains (Host req) ":" = false ->
   target_address req = Host req +:+ ":80") /\
  head evs = Some (EvDial (target_address req) (w_dial_ok w)) /\
  (w_dial_ok w = false -> length evs = 1%nat /\ resp = None) /\
  (w_dial_ok w = true ->
   target_closes evs = 1%nat /\ last evs = Some EvTargetClose) /\
  (length (target_writes evs) <= 1)%nat /\
  client_writes evs = [] /\ cache_puts evs = [] /\
  (forall r, resp = Some r ->
     w_response w = Some r /\ w_dial_ok w = true /\
     w_target_write_ok w = true /\
     exists body, ReqBody req = Some body /\
                  length (target_writes evs) = 1%nat).
Proof.
  cbv zeta.
  assert (Contains (target_address req) ":" = true) as Hport.
  { unfold target_address. destruct (Contains (Host req) ":") eqn:E; [done|].
    change (Host req +:+ ":80") with (Host req +:+ ":" +:+ "80").
    apply Contains_colon_mid. }
  assert (Contains (Host req) ":" = true -> target_address req = Host req)
    as Hsame by (unfold target_address; by intros ->).
  assert (Contains (Host req) ":" = false ->
          target_address req = Host req +:+ ":80")
    as Hdef by (unfold target_address; by intros ->).
  unfold forwardRequest. fold (target_address req).
  destruct (w_dial_ok w); simpl.
  2:{ repeat split; try done; lia. }
  destruct (ReqBody req) as [body|]; simpl.
  2:{ repeat split; try done; lia. }
  destruct (w_target_write_ok w); simpl.
  - repeat split; try done; try lia. by exists body.
  - repeat split; try done; lia.
Qed.

Lemma prefix_slash a s :
  String.prefix "/" (String a s) = bool_decide (a = "/"%char).
Proof.
  change (String.prefix "/" (String a s))
    with (if Ascii.ascii_dec "/" a then String.prefix "" s else false).
  destruct (Ascii.ascii_dec "/" a) as [<-|Hne].
  - by destruct s.
  - symmetry. apply bool_decide_eq_false_2. by intros ->.
Qed.

Lemma no_slash_cons a s :
  Contains (String a s) "/" = false ->
  a <> "/"%char /\ Contains s "/" = false.
Proof.
  rewrite Contains_cons, prefix_slash. case_bool_decide as Ha; [done|].
  by intros ->.
Qed.

(** A host holds no slash and a path starts with one, so the first slash
    of [host:path] is where the path starts. *)
Lemma host_path_inj (h1 h2 p1 p2 : string) :
  Contains h1 "/" = false -> Contains h2 "/" = false ->
  h1 +:+ ":" +:+ String "/" p1 = h2 +:+ ":" +:+ String "/" p2 ->
  h1 = h2 /\ p1 = p2.
Proof.
  revert h2. induction h1 as [|a h1 IH]; intros [|b h2] H1 H2 E.
  - split; [done|]. by injection E.
  - exfalso. change ("" +:+ ":" +:+ String "/" p1)
      with (String ":" (String "/" p1)) in E.
    rewrite append_cons in E. injection E as _ E.
    apply no_slash_cons in H2 as [_ H2].
    destruct h2 as [|c h2].
    + change ("" +:+ ":" +:+ String "/" p2)
        with (String ":" (String "/" p2)) in E. by injection E.
    + rewrite append_cons in E. injection E as <- _.
      by apply no_slash_cons in H2 as [? _].
  - exfalso. change ("" +:+ ":" +:+ String "/" p2)
      with (String ":" (String "/" p2)) in E.
    rewrite append_cons in E. injection E as _ E.
    apply no_slash_cons in H1 as [_ H1].
    destruct h1 as [|c h1].
    + change ("" +:+ ":" +:+ String "/" p1)
        with (String ":" (String "/" p1)) in E. by injection E.
    + rewrite append_cons in E. injection E as -> _.
      by apply no_slash_cons in H1 as [? _].
  - rewrite !append_cons in E. injection E as -> E.
    apply no_slash_cons in H1 as [_ H1]. apply no_slash_cons in H2 as [_ H2].
    destruct (IH h2 H1 H2 E) as [-> ->]. done.
Qed.

(** X12: on requests as HTTP forms them (no slash in the host, a path that
    starts with a slash, no colon in the method) the cache key tells the
    host, the path and the method: two such requests share a key exactly
    when they agree on the three.  The query string, the headers and the
    body never enter the key. *)
Theorem cache_key_inj_well_formed (r1 r2 : Request) :
  Contains (Host r1) "/" = false -> Contains (Host r2) "/" = false ->
  String.prefix "/" (URL_Path r1) = true ->
  String.prefix "/" (URL_Path r2) = true ->
  Contains (Method r1) ":" = false -> Contains (Method r2) ":" = false ->
  (generateCacheKey r1 = generateCacheKey r2 <->
   Host r1 = Host r2 /\ URL_Path r1 = URL_Path r2 /\ Method r1 = Method r2).
Proof.
  intros Hh1 Hh2 Hp1 Hp2 Hm1 Hm2. split.
  2:{ intros (Hh & Hp & Hm). unfold generateCacheKey. by rewrite Hh, Hp, Hm. }
  intros E. unfold generateCacheKey in E.
  rewrite <- !(append_assoc (Host _) ":"), <- !append_assoc in E.
  rewrite !(append_assoc _ ":" (Method _)) in E.
  apply key_suffix_inj in E as [E ->]; [|done|done].
  rewrite !append_assoc in E.
  destruct (URL_Path r1) as [|c1 p1] eqn:E1; [done|].
  destruct (URL_Path r2) as [|c2 p2] eqn:E2; [done|].
  rewrite prefix_slash in Hp1, Hp2.
  apply bool_decide_eq_true_1 in Hp1 as ->.
  apply bool_decide_eq_true_1 in Hp2 as ->.
  by apply host_path_inj in E as [-> ->].
Qed.

Lemma cache_key_inj_well_formed_witness :
  generateCacheKey sample_request = generateCacheKey other_query_request <->
  Host sample_request = Host other_query_request /\
  URL_Path sample_request = URL_Path other_query_request /\
  Method sample_request = Method other_query_request.
Proof.
  apply (cache_key_inj_well_formed sample_request other_query_request);
    reflexivity.
Defined.

End ProxyExtras.

(** ** More on the admission gate *)

Module AdmissionExtras.
Import Admission AdmissionObs AdmissionProperties.

Lemma reachable_ok cfg srv st :
  NewProxyServer cfg = Some srv -> reaches (initial srv) st ->
  system_ok (Z.to_nat (MaxClients cfg)) st /\ 0 <= MaxClients cfg.
Proof.
  intros Hnew Hr. destruct (system_ok_initial _ _ Hnew) as [Hok Hpos].
  split; [|done]. by eapply reaches_preserves.
Qed.

(** With an unbuffered semaphore and every handler waiting, the only step
    left is the acceptor starting one more handler. *)
Lemma idle_step st st' :
  ch_cap (sem st) = 0%nat ->
  Forall (fun h => h = mkHandler AtSend 0 0) (handlers st) ->
  step st st' ->
  st' = mkSystem (sem st) (handlers st ++ [mkHandler AtSend 0 0]).
Proof.
  intros Hcap HF Hstep.
  destruct Hstep as
    [ ch hs
    | ch hs i a r Hi Hroom
    | ch hs i j a r p ds a' r' Hzero Hij Hi Hj
    | ch hs i ds d a r Hi Hnext
    | ch hs i ds a r Hi Hpanic
    | ch hs i a r Hi
    | ch hs i p ds a r Hi
    | ch hs i p ds a r Hi
    | ch hs i p ds a r Hi
    | ch hs i p ds a r n Hi Hn
    | ch hs i a r Hi
    | ch hs i a r Hi ];
    simpl in *; try done;
    try (pose proof (Forall_lookup_1 _ _ _ _ HF Hi) as Hh; by simplify_eq).
  - lia.
  - pose proof (Forall_lookup_1 _ _ _ _ HF Hj) as Hh. by simplify_eq.
Qed.

(** X13: with [maxClients = 0] the semaphore is unbuffered and nobody
    ever receives from it before sending: the server goes on accepting,
    and every handler it starts waits at the semaphore for ever.  No
    connection is served. *)
Theorem zero_clients_admit_nobody (cfg : Config) (srv : ProxyServer)
    (st : system) :
  MaxClients cfg = 0 ->
  NewProxyServer cfg = Some srv ->
  reaches (initial srv) st ->
  active st = 0%nat /\
  (forall h, h ∈ handlers st -> h = mkHandler AtSend 0 0) /\
  (forall st', step st st' ->
     st' = mkSystem (sem st) (handlers st ++ [mkHandler AtSend 0 0])).
Proof.
  intros Hzero Hnew Hr.
  assert (ch_cap (sem st) = 0%nat /\
          Forall (fun h => h = mkHandler AtSend 0 0) (handlers st))
    as [Hcap HF].
  { remember (initial srv) as st0 eqn:E0.
    induction Hr as [st|st1 st2 st3 Hr IH Hstep].
    - unfold NewProxyServer, make_chan in Hnew. rewrite Hzero in Hnew.
      simpl in Hnew. injection Hnew as <-. subst st. simpl. split; [done|].
      apply Forall_nil_2.
    - destruct (IH E0) as [Hcap HF].
      rewrite (idle_step _ _ Hcap HF Hstep). simpl. split; [done|].
      apply Forall_app. split; [done|]. by apply Forall_singleton. }
  destruct (reachable_ok _ _ _ Hnew Hr) as [(Hc & Hlen & Hle & _) _].
  split; [lia|]. split.
  - intros h Hin. by apply (proj1 (Forall_forall _ _) HF).
  - intros st' Hstep. by apply idle_step.
Qed.

Lemma zero_clients_admit_nobody_witness :
  active one_waiting_zero = 0%nat /\
  (forall h, h ∈ handlers one_waiting_zero -> h = mkHandler AtSend 0 0) /\
  (forall st', step one_waiting_zero st' ->
     st' = mkSystem (sem one_waiting_zero)
             (handlers one_waiting_zero ++ [mkHandler AtSend 0 0])).
Proof.
  apply (zero_clients_admit_nobody zero_config zero_server one_waiting_zero).
  - reflexivity.
  - reflexivity.
  - eapply reaches_step; [apply reaches_refl|apply step_spawn].
Defined.

(** X14: a handler that waits at the semaphore can pass it exactly when
    fewer than [maxClients] handlers are past it: the gate turns nobody
    away while there is room, and lets nobody in when there is none. *)
Theorem waiting_enters_iff_room (cfg : Config) (srv : ProxyServer)
    (st : system) (i : nat) (h : handler) :
  NewProxyServer cfg = Some srv ->
  reaches (initial srv) st ->
  handlers st !! i = Some h ->
  h_pc h = AtSend ->
  ((exists st' h', step st st' /\ handlers st' !! i = Some h' /\
                   admitted h' = true)
   <-> Z.of_nat (active st) < MaxClients cfg).
Proof.
  intros Hnew Hr Hi Hpc.
  destruct (reachable_ok _ _ _ Hnew Hr) as [Hok Hpos].
  pose proof Hok as (Hcap & Hlen & Hle & HF).
  assert (admitted h = false) as Hna by (unfold admitted; by rewrite Hpc).
  split.
  - intros (st' & h' & Hstep & Hi' & Hadm).
    assert (Hother : forall j hj (hs : list handler),
               i <> j -> <[j := hj]> hs !! i = Some h' ->
               hs !! i = Some h -> False).
    { intros j hj hs Hne H1 H2.
      rewrite list_lookup_insert_ne in H1 by done. congruence. }
    destruct Hstep as
      [ ch hs
      | ch hs j a r Hj Hroom
      | ch hs j j' a r p ds a' r' Hzero Hij Hj Hj'
      | ch hs j ds d a r Hj Hnext
      | ch hs j ds a r Hj Hpanic
      | ch hs j a r Hj
      | ch hs j p ds a r Hj
      | ch hs j p ds a r Hj
      | ch hs j p ds a r Hj
      | ch hs j p ds a r n Hj Hn
      | ch hs j a r Hj
      | ch hs j a r Hj ];
      simpl in *.
    + rewrite lookup_app_l in Hi' by (by eapply lookup_lt_Some). congruence.
    + lia.
    + exfalso.
      assert (admitted (mkHandler (Unwinding p (DRelease :: ds)) a' r') = true)
        as Ha.
      { simpl. apply bool_decide_eq_true_2. left. }
      pose proof (count_pos _ _ _ Hj' Ha). unfold active in *. simpl in *.
      lia.
    + destruct (decide (i = j)) as [->|Hne]; [|exfalso; by eapply Hother].
      rewrite Hj in Hi. by injection Hi as <-.
    + destruct (decide (i = j)) as [->|Hne]; [|exfalso; by eapply Hother].
      rewrite Hj in Hi. by injection Hi as <-.
    + destruct (decide (i = j)) as [->|Hne]; [|exfalso; by eapply Hother].
      rewrite Hj in Hi. by injection Hi as <-.
    + destruct (decide (i = j)) as [->|Hne]; [|exfalso; by eapply Hother].
      rewrite Hj in Hi. by injection Hi as <-.
    + destruct (decide (i = j)) as [->|Hne]; [|exfalso; by eapply Hother].
      rewrite Hj in Hi. by injection Hi as <-.
    + destruct (decide (i = j)) as [->|Hne]; [|exfalso; by eapply Hother].
      rewrite Hj in Hi. by injection Hi as <-.
    + destruct (decide (i = j)) as [->|Hne]; [|exfalso; by eapply Hother].
      rewrite Hj in Hi. by injection Hi as <-.
    + destruct (decide (i = j)) as [->|Hne]; [|exfalso; by eapply Hother].
      rewrite Hj in Hi. by injection Hi as <-.
    + destruct (decide (i = j)) as [->|Hne]; [|exfalso; by eapply Hother].
      rewrite Hj in Hi. by injection Hi as <-.
  - intros Hroom. destruct st as [ch hs], h as [pc0 a r]. simpl in *.
    subst pc0.
    exists (mkSystem (mkChan (ch_cap ch) (S (ch_len ch)))
              (<[i := mkHandler (Running []) (S a) r]> hs)),
      (mkHandler (Running []) (S a) r).
    split; [apply step_send; [done|lia]|].
    split; [simpl; by eapply lookup_insert_here|done].
Qed.

Lemma waiting_enters_iff_room_witness :
  (exists st' h', step one_waiting st' /\ handlers st' !! 0%nat = Some h' /\
                  admitted h' = true)
  <-> Z.of_nat (active one_waiting) < MaxClients default_config.
Proof.
  apply (waiting_enters_iff_room default_config default_server one_waiting
           0 (mkHandler AtSend 0 0)).
  - reflexivity.
  - eapply reaches_step; [apply reaches_refl|apply step_spawn].
  - reflexivity.
  - reflexivity.
Defined.

(** *** No slot is lost *)

(** A handler that unwinds runs its deferred calls to the end, and nothing
    else moves meanwhile. *)
Lemma finish_unwinding_framed cap st i p ds a r :
  system_ok cap st ->
  handlers st !! i = Some (mkHandler (Unwinding p ds) a r) ->
  exists st', reaches st st' /\
              handlers st' = <[i := mkHandler Finished 1 1]> (handlers st).
Proof.
  revert st p r. induction ds as [|d ds IH]; intros [ch hs] p r Hok Hi;
    simpl in Hi;
    pose proof Hok as (_ & Hlen & _ & HF); simpl in Hlen, HF;
    pose proof (handler_ok_lookup _ _ _ HF Hi) as Hh;
    unfold handler_ok, all_deferred in Hh; simpl in Hh;
    destruct Hh as (-> & Hds).
  - assert (p = false /\ r = 1%nat) as [-> ->].
    { destruct Hds as [[[Hd|Hd] ?]|[(Hd & ? & ?)|(_ & ? & ?)]];
        by simplify_eq. }
    eexists. split.
    + eapply reaches_first; [by apply step_finish|apply reaches_refl].
    + done.
  - assert (exists ch1 p1 r1,
              step (mkSystem ch hs)
                (mkSystem ch1 (<[i := mkHandler (Unwinding p1 ds) 1 r1]> hs)))
      as (ch1 & p1 & r1 & Hstep).
    { destruct d.
      - assert (0 < ch_len ch)%nat as Hpos.
        { rewrite Hlen. unfold active. simpl.
          eapply count_pos; [exact Hi|].
          simpl. apply bool_decide_eq_true_2. left. }
        destruct (ch_len ch) as [|n] eqn:En; [lia|].
        exists (mkChan (ch_cap ch) n), p, (S r).
        by eapply (step_run_release ch hs i p ds 1 r n).
      - exists ch, false, r. by eapply step_run_recover.
      - exists ch, p, r. by eapply step_run_close. }
    pose proof (step_preserves _ _ _ Hok Hstep) as Hok1.
    destruct (IH _ p1 r1 Hok1) as (st' & Hr & Hfin).
    { simpl. by eapply lookup_insert_here. }
    exists st'. split; [by eapply reaches_first|].
    rewrite Hfin. simpl. apply list_insert_insert_eq.
Qed.

Lemma finish_running_framed cap st i ds a r :
  system_ok cap st ->
  handlers st !! i = Some (mkHandler (Running ds) a r) ->
  exists st', reaches st st' /\
              handlers st' = <[i := mkHandler Finished 1 1]> (handlers st).
Proof.
  intros Hok Hi.
  assert (Hret : forall st0 a0 r0,
    system_ok cap st0 ->
    handlers st0 !! i = Some (mkHandler (Running all_deferred) a0 r0) ->
    exists st', reaches st0 st' /\
                handlers st' = <[i := mkHandler Finished 1 1]> (handlers st0)).
  { intros [ch hs] a0 r0 Hok0 Hi0. simpl in Hi0.
    pose proof (step_return ch hs i a0 r0 Hi0) as Hstep.
    pose proof (step_preserves _ _ _ Hok0 Hstep) as Hok1.
    destruct (finish_unwinding_framed cap _ i false all_deferred a0 r0 Hok1)
      as (st' & Hr & Hfin).
    { simpl. by eapply lookup_insert_here. }
    exists st'. split; [by eapply reaches_first|].
    rewrite Hfin. simpl. apply list_insert_insert_eq. }
  assert (Hdefer : forall ds0 d,
    next_defer ds0 = Some d ->
    (forall st0 a0 r0,
       system_ok cap st0 ->
       handlers st0 !! i = Some (mkHandler (Running (d :: ds0)) a0 r0) ->
       exists st', reaches st0 st' /\
                   handlers st'
                   = <[i := mkHandler Finished 1 1]> (handlers st0)) ->
    forall st0 a0 r0,
      system_ok cap st0 ->
      handlers st0 !! i = Some (mkHandler (Running ds0) a0 r0) ->
      exists st', reaches st0 st' /\
                  handlers st'
                  = <[i := mkHandler Finished 1 1]> (handlers st0)).
  { intros ds0 d Hn Hnext [ch hs] a0 r0 Hok0 Hi0. simpl in Hi0.
    pose proof (step_defer ch hs i ds0 d a0 r0 Hi0 Hn) as Hstep.
    pose proof (step_preserves _ _ _ Hok0 Hstep) as Hok1.
    destruct (Hnext _ a0 r0 Hok1) as (st' & Hr & Hfin).
    { simpl. by eapply lookup_insert_here. }
    exists st'. split; [by eapply reaches_first|].
    rewrite Hfin. simpl. apply list_insert_insert_eq. }
  pose proof Hok as (_ & _ & _ & HF).
  pose proof (handler_ok_lookup _ _ _ HF Hi) as Hh.
  unfold handler_ok in Hh. simpl in Hh. destruct Hh as (_ & _ & Hds).
  pose proof (Hdefer [DRecover; DRelease] DClose eq_refl Hret) as H2.
  pose proof (Hdefer [DRelease] DRecover eq_refl H2) as H1.
  pose proof (Hdefer [] DRelease eq_refl H1) as H0.
  destruct Hds as [->|[->|[->| ->]]]; eauto.
Qed.

Lemma some_admitted (hs : list handler) :
  (0 < length (filter (fun h => admitted h = true) hs))%nat ->
  exists j hj, hs !! j = Some hj /\ admitted hj = true.
Proof.
  intros Hpos.
  destruct (filter (fun h => admitted h = true) hs) as [|x t] eqn:E;
    [simpl in Hpos; lia|].
  assert (x ∈ filter (fun h => admitted h = true) hs) as Hin
    by (rewrite E; left).
  apply list_elem_of_filter in Hin as [Hx Hin].
  apply list_elem_of_lookup_1 in Hin as [j Hj]. by exists j, x.
Qed.

(** X15: with [maxClients] at least one no slot of the semaphore is ever
    lost: wherever the server stands, a handler that waits at the
    semaphore can still get past it, at once when there is room, and
    otherwise after one of the admitted handlers has run to its end,
    by return or by panic, and has given back its slot. *)
Theorem waiting_handler_can_enter (cfg : Config) (srv : ProxyServer)
    (st : system) (i : nat) (h : handler) :
  1 <= MaxClients cfg ->
  NewProxyServer cfg = Some srv ->
  reaches (initial srv) st ->
  handlers st !! i = Some h ->
  h_pc h = AtSend ->
  exists st', reaches st st' /\
              handlers st' !! i = Some (mkHandler (Running []) 1 0).
Proof.
  intros Hone Hnew Hr Hi Hpc.
  destruct (reachable_ok _ _ _ Hnew Hr) as [Hok _].
  set (cap := Z.to_nat (MaxClients cfg)) in *.
  assert (1 <= cap)%nat as Hcap1 by (unfold cap; lia).
  assert (admitted h = false) as Hna by (unfold admitted; by rewrite Hpc).
  assert (Hsend : forall st0,
            system_ok cap st0 -> handlers st0 !! i = Some h ->
            (ch_len (sem st0) < ch_cap (sem st0))%nat ->
            exists st', step st0 st' /\
                        handlers st' !! i
                        = Some (mkHandler (Running []) 1 0)).
  { intros [ch hs] Hok0 Hi0 Hroom. simpl in Hi0, Hroom.
    pose proof Hok0 as (_ & _ & _ & HF0). simpl in HF0.
    pose proof (handler_ok_lookup _ _ _ HF0 Hi0) as Hh.
    destruct h as [pc0 a r]. simpl in Hpc. subst pc0.
    unfold handler_ok in Hh. simpl in Hh. destruct Hh as [-> ->].
    eexists. split; [by apply step_send|].
    simpl. by eapply lookup_insert_here. }
  destruct (decide (ch_len (sem st) < ch_cap (sem st))%nat) as [Hroom|Hfull].
  { destruct (Hsend st Hok Hi Hroom) as (st' & Hstep & Hi').
    exists st'. split; [|done].
    eapply reaches_first; [done|apply reaches_refl]. }
  pose proof Hok as (Hc & Hlen & Hle & HF).
  destruct (some_admitted (handlers st)) as (j & hj & Hj & Hadm).
  { unfold active in Hlen. lia. }
  assert (i <> j) as Hij.
  { intros ->. rewrite Hj in Hi. injection Hi as ->. congruence. }
  assert (exists st1, reaches st st1 /\
            handlers st1 = <[j := mkHandler Finished 1 1]> (handlers st))
    as (st1 & Hr1 & Hh1).
  { destruct hj as [pcj aj rj]. unfold admitted in Hadm. simpl in Hadm.
    destruct pcj as [|ds|p ds| |]; try done.
    - by eapply finish_running_framed.
    - by eapply finish_unwinding_framed. }
  pose proof (reaches_preserves _ _ _ Hok Hr1) as Hok1.
  pose proof Hok1 as (Hc1 & Hlen1 & _ & _).
  assert (handlers st1 !! i = Some h) as Hi1.
  { rewrite Hh1, list_lookup_insert_ne by done. done. }
  assert (ch_len (sem st1) < ch_cap (sem st1))%nat as Hroom1.
  { rewrite Hlen1, Hc1. unfold active. rewrite Hh1.
    pose proof (count_insert (handlers st) j hj (mkHandler Finished 1 1) Hj)
      as Hcount.
    unfold weight in Hcount. rewrite Hadm in Hcount. simpl in Hcount.
    unfold active in Hlen. lia. }
  destruct (Hsend st1 Hok1 Hi1 Hroom1) as (st' & Hstep & Hi').
  exists st'. split; [|done].
  eapply reaches_trans; [exact Hr1|].
  eapply reaches_first; [done|apply reaches_refl].
Qed.

Lemma waiting_handler_can_enter_witness :
  exists st', reaches one_waiting st' /\
              handlers st' !! 0%nat = Some (mkHandler (Running []) 1 0).
Proof.
  apply (waiting_handler_can_enter default_config default_server one_waiting
           0 (mkHandler AtSend 0 0)).
  - simpl. lia.
  - reflexivity.
  - eapply reaches_step; [apply reaches_refl|apply step_spawn].
  - reflexivity.
  - reflexivity.
Defined.

End AdmissionExtras.

(** ** [Display] *)

Module DisplayExtras.
Import Cache CacheInv CacheModel CacheFacts CacheRefinement CacheModelFacts
  CacheRuns CacheProperties CacheObs.

Lemma display_loop_dseg h p l fuel :
  dseg h p l None -> (length l <= fuel)%nat ->
  display_loop fuel h (head l)
  = Some (foldr (fun a out => key_at h a +:+ " -> " +:+ out)
            ("END" +:+ newline) l).
Proof.
  revert p fuel. induction l as [|a l IH]; intros p fuel Hd Hf.
  - by destruct fuel.
  - destruct fuel as [|fuel]; [simpl in Hf; lia|].
    destruct Hd as (nd & Ha & _ & Hnx & Hd).
    cbn [head display_loop foldr]. rewrite Ha. cbn [mbind option_bind].
    rewrite Hnx, hd_or_head.
    replace (match head l with Some a0 => Some a0 | None => None end)
      with (head l) by (by destruct (head l)).
    rewrite (IH (Some a) fuel Hd) by (simpl in Hf; lia).
    assert (key_at h a = key nd) as -> by (unfold key_at; by rewrite Ha).
    done.
Qed.

Lemma Display_refines c m :
  refines c m -> Display c = Some (display_line (keys (m_entries m))).
Proof.
  intros (l & Hwf & -> & _). pose proof Hwf as [[_ Hh _ Hl] _].
  pose proof (length_le_heap _ _ Hwf) as Hlen.
  unfold Display. rewrite Hh, (display_loop_dseg _ _ _ _ Hl Hlen).
  cbn [mbind option_bind]. unfold display_line.
  rewrite <- keys_view.
  change (map (key_at (nodes c)) l) with (key_at (nodes c) <$> l).
  by rewrite foldr_fmap.
Qed.

(** X16: on every cache that calls of [Get] and [Put] have made,
    [Display] comes to an end (the list has no cycle and no dangling
    pointer) and prints the keys in recency order: every key of the index,
    none of them twice.  After a [Put] on a cache of capacity at least one
    the key just put is the first it prints. *)
Theorem Display_prints_each_key_once (cap : Z) (os : list op)
    (s : LRUCache) :
  run_ops os (NewLRUCache cap) = Some s ->
  exists ks,
    Display s = Some (display_line ks) /\
    recency_keys s = Some ks /\
    NoDup ks /\
    (forall k, k ∈ ks <-> k ∈ index_keys s) /\
    (forall k v, 1 <= cap ->
       exists s' ks',
         Put k v s = Some s' /\
         Display s' = Some (display_line (k :: ks'))).
Proof.
  intros E. destruct (reachable_refines _ _ _ E) as (m & Hr & Hok & Hc).
  exists (keys (m_entries m)).
  split; [by apply Display_refines|].
  split; [by apply recency_keys_refines|].
  split; [by destruct Hok|].
  split; [intros k; symmetry; by apply index_keys_refines|].
  intros k v Hcap.
  destruct (Put_refines k v s m Hr) as (s' & Ep & Hr').
  destruct (m_put_front k v m Hok) as (rest & Hes); [lia|].
  exists s', (keys rest). split; [done|].
  rewrite (Display_refines _ _ Hr'), Hes. done.
Qed.

Lemma Display_prints_each_key_once_witness :
  exists c,
    run_ops [OpPut "a" None; OpPut "b" None; OpGet "a"; OpPut "c" None]
      (NewLRUCache 2) = Some c /\
    recency_keys c = Some ["c"%string; "a"%string] /\
    Display c = Some ("Cache: c -> a -> END" +:+ newline) /\
    exists ks,
      Display c = Some (display_line ks) /\
      recency_keys c = Some ks /\
      NoDup ks /\
      (forall k, k ∈ ks <-> k ∈ index_keys c) /\
      (forall k v, 1 <= 2 ->
         exists s' ks',
           Put k v c = Some s' /\
           Display s' = Some (display_line (k :: ks'))).
Proof.
  destruct (run_ops_refines
              [OpPut "a" None; OpPut "b" None; OpGet "a"; OpPut "c" None]
              _ _ (refines_new 2)) as (c & E & Hr).
  destruct (recency_keys_refines _ _ Hr) as [Hk _].
  exists c. split; [exact E|]. split; [exact Hk|].
  split; [exact (Display_refines _ _ Hr)|].
  exact (Display_prints_each_key_once 2
           [OpPut "a" None; OpPut "b" None; OpGet "a"; OpPut "c" None]
           c E).
Defined.

End DisplayExtras.

(** ** A response whose body cannot be read *)

Module HandlerEdges.
Import Cache CacheModel CacheRuns CacheObs Proxy ProxyObs ProxyProperties
  ProxyExtras.

(** X17: when a request misses the cache and is forwarded, and the body
    of the origin's response cannot be read, the handler does not give up:
    it writes the status line and the headers with an empty body to the
    client.  When that write succeeds it puts exactly that into the cache;
    there the next lookup of the key finds it when the capacity is at
    least one, and misses when the capacity is zero or less.  When the
    write fails nothing is put and the cache stays as it was. *)
Theorem unreadable_body_sent_empty_and_cached (cap : Z) (os : list op)
    (s : LRUCache) (w : world) (request : Request) (response : Response) :
  run_ops os (NewLRUCache cap) = Some s ->
  w_request w = Some request ->
  lookup_result (generateCacheKey request) s = Some (false, None) ->
  (forwardRequest request w).2 = Some response ->
  RespBody response = None ->
  let key := generateCacheKey request in
  let statusLine :=
    RespProto response +:+ " " +:+ RespStatus response +:+ CRLF in
  let headers := write_headers (w_resp_visit w) in
  let item := mkItem statusLine headers "" in
  exists s' evs,
    handleConnection s w = Some (s', evs) /\
    client_writes evs = [statusLine +:+ headers +:+ CRLF] /\
    (w_client_write_ok w = false -> cache_puts evs = [] /\ s' = s) /\
    (w_client_write_ok w = true ->
     cache_puts evs = [(key, item)] /\
     Put key (Some item) s = Some s' /\
     (1 <= cap -> lookup_result key s' = Some (true, Some item)) /\
     (cap <= 0 -> lookup_result key s' = Some (false, None))).
Proof.
  intros E Hreq Hmiss Hfwd Hbody key statusLine headers item.
  destruct (handle_cases cap os s w request E Hreq)
    as (s1 & cached & Hg & E1 & Hcases).
  fold key in Hg, E1, Hcases, Hmiss.
  assert (cached = None /\ s1 = s) as [-> ->].
  { unfold getCachedResponse in Hg. unfold lookup_result in Hmiss.
    destruct (Get key s) as [[[s0 found] v]|] eqn:Eg; [|done].
    injection Hmiss as -> ->.
    destruct (Get_miss_unchanged _ _ _ _ Eg) as [-> _].
    by injection Hg as <- <-. }
  pose proof (forward_trace request w) as (_ & Hfc & Hfp & _).
  cbv zeta in Hfc, Hfp.
  destruct Hcases as
    [(item0 & [=] & _)
    |[(_ & Hnone & _)
     |(response' & prep & sl & hd & bd & _ & Hsome & Hp & Hh)]].
  { rewrite Hfwd in Hnone. done. }
  rewrite Hfwd in Hsome. injection Hsome as <-.
  unfold prepareResponse in Hp. rewrite Hbody in Hp.
  injection Hp as <- <- <- <-. fold statusLine headers in Hh.
  cbv zeta in Hh. fold item in Hh.
  destruct Hh as [[Hw Hh]|(s2 & Hw & Eput & E2 & Hh)].
  - exists s. eexists. split; [exact Hh|].
    split; [|split].
    + trace_parts. rewrite Hfc. simpl. by change (CRLF +:+ "") with CRLF.
    + intros _. split; [|done]. trace_parts. by rewrite Hfp.
    + congruence.
  - exists s2. eexists. split; [exact Hh|].
    split; [|split].
    + trace_parts. rewrite Hfc. simpl. by change (CRLF +:+ "") with CRLF.
    + congruence.
    + intros _. split; [trace_parts; by rewrite Hfp|].
      split; [done|]. split.
      * intros Hcap.
        destruct (stored_is_found cap os _ _ s2 Hcap E2) as (s3 & Hg2).
        unfold getCachedResponse in Hg2. unfold lookup_result.
        destruct (Get key s2) as [[[s0 found] v]|]; [|done].
        destruct found; by simplify_eq.
      * intros Hcap.
        destruct (reachable_empty _ _ _ Hcap E2) as (_ & _ & Hget).
        unfold lookup_result. by rewrite Hget.
Qed.

Lemma unreadable_body_sent_empty_and_cached_witness :
  let key := generateCacheKey sample_request in
  let statusLine :=
    RespProto truncated_response +:+ " " +:+ RespStatus truncated_response
    +:+ CRLF in
  let headers := write_headers (w_resp_visit truncated_world) in
  let item := mkItem statusLine headers "" in
  exists s' evs,
    handleConnection (NewLRUCache 1) truncated_world = Some (s', evs) /\
    client_writes evs = [statusLine +:+ headers +:+ CRLF] /\
    (w_client_write_ok truncated_world = false ->
     cache_puts evs = [] /\ s' = NewLRUCache 1) /\
    (w_client_write_ok truncated_world = true ->
     cache_puts evs = [(key, item)] /\
     Put key (Some item) (NewLRUCache 1) = Some s' /\
     (1 <= 1 -> lookup_result key s' = Some (true, Some item)) /\
     (1 <= 0 -> lookup_result key s' = Some (false, None))).
Proof.
  apply (unreadable_body_sent_empty_and_cached 1 [] (NewLRUCache 1)
           truncated_world sample_request truncated_response);
    reflexivity.
Defined.

End HandlerEdges.

(** ** Configuration *)

Module ConfigExtras.
Import Cache Admission ConfigLoader.

Lemma getEnvOrDefault_nonempty env key d :
  d <> ""%string -> getEnvOrDefault env key d <> ""%string.
Proof. intros Hd. unfold getEnvOrDefault. cbv zeta. by case_bool_decide. Qed.

(** X18: whatever the environment and the flags, building the server
    from the loaded configuration panics in exactly one case, a negative
    [-max-clients]; otherwise the semaphore has room for as many handlers
    as the flag says, 100 without the flag, and the cache is empty with
    the capacity of [-cache-size], 100 without it.  Neither number can be
    set from the environment. *)
Theorem server_starts_unless_negative_flag (env : gmap string string)
    (fl : flags) :
  (NewProxyServer (LoadConfig env fl) = None <->
   exists n, f_max_clients fl = Some n /\ n < 0) /\
  (forall srv, NewProxyServer (LoadConfig env fl) = Some srv ->
     ch_cap (semaphore srv) = Z.to_nat (default 100 (f_max_clients fl)) /\
     ch_len (semaphore srv) = 0%nat /\
     Capacity (cache srv) = default 100 (f_cache_size fl) /\
     Size (cache srv) = 0 /\
     config srv = LoadConfig env fl).
Proof.
  unfold NewProxyServer, make_chan, LoadConfig. cbn [MaxClients CacheSize].
  split.
  - case_bool_decide as Hneg; simpl.
    + split; [intros _|done].
      destruct (f_max_clients fl) as [n|]; simpl in Hneg; [by exists n|lia].
    + split; [done|]. intros (n & Hn & Hlt). rewrite Hn in Hneg.
      simpl in Hneg. lia.
  - intros srv. case_bool_decide as Hneg; simpl; [done|].
    by intros [= <-].
Qed.

(** X19: of the environment [LoadConfig] reads two variables only, and
    one that is set to the empty string counts as not set.  Without the
    flag [-port] the port is never empty, and without [-log-level]
    neither is the log level. *)
Theorem env_only_port_and_log_level (env env' : gmap string string)
    (fl : flags) :
  Getenv env "PROXY_PORT" = Getenv env' "PROXY_PORT" ->
  Getenv env "LOG_LEVEL" = Getenv env' "LOG_LEVEL" ->
  LoadConfig env fl = LoadConfig env' fl /\
  (f_port fl = None -> Port (LoadConfig env fl) <> ""%string) /\
  (f_log_level fl = None -> LogLevel (LoadConfig env fl) <> ""%string).
Proof.
  intros Hp Hl. split; [|split].
  - unfold LoadConfig, getEnvOrDefault. by rewrite Hp, Hl.
  - intros Hf. unfold LoadConfig. rewrite Hf. simpl.
    by apply getEnvOrDefault_nonempty.
  - intros Hf. unfold LoadConfig. rewrite Hf. simpl.
    by apply getEnvOrDefault_nonempty.
Qed.

Lemma env_only_port_and_log_level_witness :
  LoadConfig empty_port_env no_flags = LoadConfig ∅ no_flags /\
  (f_port no_flags = None ->
   Port (LoadConfig empty_port_env no_flags) <> ""%string) /\
  (f_log_level no_flags = None ->
   LogLevel (LoadConfig empty_port_env no_flags) <> ""%string).
Proof.
  apply (env_only_port_and_log_level empty_port_env ∅ no_flags);
    reflexivity.
Defined.

End ConfigExtras.

(** ** [Start]: the listener *)

Module AcceptorExtras.
Import Acceptor AcceptorProperties.

Lemma errors_Is_wrap msg e t :
  errors_Is e t = true -> errors_Is (Wrap msg e) t = true.
Proof. intros H. simpl. by destruct (decide _). Qed.

(** X20: [Start] returns an error exactly when the listener cannot be
    made.  Then no connection has been accepted and nothing logged, and
    the error wraps the one [net.Listen] gave: [errors.Is] finds in it
    whatever it finds in that one.  Once the listener stands, [Start]
    returns [nil] or does not return. *)
Theorem start_error_iff_listen_fails (listen : option goerror)
    (results : list accepted) :
  ((exists e, (Start listen results).1 = Returned (Some e)) <->
   listen <> None) /\
  (forall err, listen = Some err ->
     exists e, Start listen results = (Returned (Some e), mkLoop [] []) /\
               forall t, errors_Is err t = true -> errors_Is e t = true) /\
  (listen = None ->
   (Start listen results).1 = Returned None \/
   (Start listen results).1 = Accepting).
Proof.
  split; [|split].
  - destruct listen as [err|]; simpl.
    + split; [done|]. intros _. by eexists.
    + rewrite accept_loop_spec. simpl. split; [|done].
      intros [e He]. by destruct (existsb is_closed results).
  - intros err ->. simpl. eexists. split; [done|].
    intros t Ht. by apply errors_Is_wrap.
  - intros ->. simpl. rewrite accept_loop_spec. simpl.
    destruct (existsb is_closed results); auto.
Qed.

End AcceptorExtras.
